(** * The interceptor registry and its two pipelines

    A shallow embedding of [InterceptorManager] (packages/core/src/interceptor)
    and of the types of [types.ts], followed by the properties of the
    registry and of the input and output pipelines.

    Modelling choices, all local to this file:
    - [this.interceptors] is a JavaScript [Map]: an association list in
      insertion order with one binding per key ([JsMap.set] keeps the position
      of a key that is already bound).
    - [priority] is a [number]: [NaN], an infinity or a finite double, the
      latter taken as the rational it denotes.  The comparator
      [(b.priority ?? 0) - (a.priority ?? 0)] is a consistent one exactly
      when no priority is [NaN].
    - [Array.prototype.sort] is the stable sort of ECMAScript 2019, written
      as a stable insertion sort that reads the comparator as SortCompare
      does.  With an inconsistent comparator the order is left to the
      implementation by ECMAScript: the insertion sort is then one
      implementation.
    - message and event payloads, metadata values and thrown values are
      opaque: they are the type parameters of the development.  A change
      made inside a payload is not modelled.
    - the loop of a pipeline builds one context object and one input (or
      output) object and hands the same two objects to every handler, and
      [context.metadata] is the object the variable [metadata] refers to.
      The loops thread the two objects and the metadata object, and a
      handler call says what it writes into them.
    - a handler is a function of its two arguments as they stand when it is
      called.  What it does besides settling (returning, or throwing /
      rejecting) is given by the writes made into the two objects and by the
      registry methods called while it is awaited, be it by the handler
      itself or by other code that runs meanwhile and holds the objects.
      Every call settles: a handler whose promise stays pending stalls the
      run for good, and no claim is about that.
    - [debugLogger] is a log of lines, the system clock an oracle read by
      [new Date()], and the arrays handed out by [getAll] live in a heap of
      their own, so that a caller can mutate them.
    - a ghost list [spied] records every handler call with its arguments
      and its outcome, like the [vi.fn()] spies of the test-suite.
    - the two interceptors of the examples are embedded with what they
      use.  For the content filter: strings are sequences of UTF-16 code
      units, the patterns are matched by the backtracking matcher of
      ECMAScript, and the [lastIndex] of each expression and the console
      are the state of the module.  [JSON.stringify], [toISOString] and the
      type and fields of an event are parameters.  A handler of the manager
      is a function of its arguments, so a registration of the examples is
      given for the state in which its handlers are called. *)

From stdpp Require Import base option list strings gmap fin_maps sorting.
From Stdlib Require Import ZArith QArith Sorting.Permutation Ascii.

Set Default Proof Using "Type".
Local Open Scope string_scope.
Local Open Scope Z_scope.

(** ** JavaScript [Map], in insertion order *)

Module JsMap.
Section JsMap.
Context {V : Type}.

Definition t := list (string * V).

Definition empty : t := [].

Fixpoint get (k : string) (m : t) : option V :=
  match m with
  | [] => None
  | (k', v) :: m' => if decide (k = k') then Some v else get k m'
  end.

Definition has (k : string) (m : t) : bool :=
  match get k m with Some _ => true | None => false end.

(** [set] on a bound key replaces the value where it stands; a new key
    goes to the end. *)
Fixpoint set (k : string) (v : V) (m : t) : t :=
  match m with
  | [] => [(k, v)]
  | (k', v') :: m' =>
      if decide (k = k') then (k, v) :: m' else (k', v') :: set k v m'
  end.

Fixpoint remove (k : string) (m : t) : t :=
  match m with
  | [] => []
  | (k', v') :: m' =>
      if decide (k = k') then m' else (k', v') :: remove k m'
  end.

(** [Map.prototype.delete]: whether the key was bound, and the map
    without it. *)
Definition delete (k : string) (m : t) : bool * t := (has k m, remove k m).

Definition values (m : t) : list V := m.*2.

Definition keys (m : t) : list string := m.*1.
End JsMap.
Arguments t : clear implicits.
End JsMap.

(** ** Numbers

    A [number] is a double: [NaN], one of the two infinities, or a finite
    value, which is taken as the rational it denotes (the two zeros are
    one).  Of the arithmetic the manager uses the difference only, and of a
    difference [sort] reads only whether it is positive.  The rounded
    difference of two doubles is positive, zero or negative as the exact
    difference is, so the difference is taken exact. *)

Module Number.
Inductive t :=
  | NaN
  | Infinity
  | NegInfinity
  | Num (q : Q).

Definition of_Z (z : Z) : t := Num (inject_Z z).

Definition to_Z (a : t) : option Z :=
  match a with
  | Num (Qmake z 1) => Some z
  | _ => None
  end.

(** [a - b] *)
Definition minus (a b : t) : t :=
  match a, b with
  | NaN, _ | _, NaN => NaN
  | Infinity, Infinity | NegInfinity, NegInfinity => NaN
  | Infinity, _ | _, NegInfinity => Infinity
  | NegInfinity, _ | _, Infinity => NegInfinity
  | Num p, Num q => Num (p - q)
  end.

(** [a > 0] *)
Definition positive (a : t) : bool :=
  match a with
  | Infinity => true
  | Num q => bool_decide (0 < Qnum q)%Z
  | _ => false
  end.

(** [a < b], [a <= b] and [a === b]: false as soon as one side is [NaN]. *)
Definition lt (a b : t) : Prop :=
  match a, b with
  | NaN, _ | _, NaN => False
  | Infinity, _ | _, NegInfinity => False
  | NegInfinity, _ | _, Infinity => True
  | Num p, Num q => (p < q)%Q
  end.

Definition le (a b : t) : Prop :=
  match a, b with
  | NaN, _ | _, NaN => False
  | NegInfinity, _ | _, Infinity => True
  | Infinity, _ | _, NegInfinity => False
  | Num p, Num q => (p <= q)%Q
  end.

Definition eq (a b : t) : Prop := le a b ∧ le b a.

#[global] Instance lt_dec a b : Decision (lt a b).
Proof. destruct a, b; simpl; try apply _; unfold Qlt; apply _. Defined.

#[global] Instance le_dec a b : Decision (le a b).
Proof. destruct a, b; simpl; try apply _; unfold Qle; apply _. Defined.

#[global] Instance eq_dec a b : Decision (eq a b).
Proof. unfold eq. apply _. Defined.
End Number.

Declare Scope number_scope.
Delimit Scope number_scope with num.
Bind Scope number_scope with Number.t.
Number Notation Number.t Number.of_Z Number.to_Z : number_scope.
Infix "<" := Number.lt : number_scope.
Infix "<=" := Number.le : number_scope.
Infix "≤" := Number.le : number_scope.
Infix "-" := Number.minus : number_scope.

(** ** [Array.prototype.sort] with a comparator

    The sort is stable (ECMAScript 2019) and reads a comparator result
    through SortCompare, in which [NaN] counts as [+0].  When the
    comparator is a consistent one the sorted order is determined, and it is
    the one computed here by a stable insertion sort.  When it is not,
    ECMAScript leaves the order to the implementation; the insertion sort is
    then one implementation. *)

Section ArraySort.
Context {A : Type} (compareFn : A → A → Number.t).

Definition SortCompare (x y : A) : Number.t :=
  match compareFn x y with
  | Number.NaN => 0%num
  | v => v
  end.

Fixpoint Array_insert (x : A) (l : list A) : list A :=
  match l with
  | [] => [x]
  | y :: l' =>
      if Number.positive (SortCompare x y) then y :: Array_insert x l'
      else x :: y :: l'
  end.

Fixpoint Array_sort (l : list A) : list A :=
  match l with
  | [] => []
  | x :: l' => Array_insert x (Array_sort l')
  end.
End ArraySort.

(** ** types.ts *)

Inductive Severity := sev_debug | sev_error.

Inductive Completion (Thrown A : Type) :=
| Normal (a : A)
| Throw (e : Thrown).
Arguments Normal {_ _} _.
Arguments Throw {_ _} _.

(** A call of a method of the manager made while a handler is awaited. *)
Inductive ManagerCall (C : Type) :=
| CallRegister (config : C)
| CallUnregister (i : string)
| CallClear.
Arguments CallRegister {_} _.
Arguments CallUnregister {_} _.
Arguments CallClear {_}.

(** A write a handler makes, while it runs, into the objects it was handed.
    The manager builds one [context] object and one [inputData] (or
    [outputData]) object before its loop and hands the same two objects to
    every handler of the run, and the property [metadata] of the context is
    the running metadata object itself: what a handler writes there stays
    for the handlers called after it, whether it then returns or throws.
    The writes are those the types of [types.ts] allow and the loop does not
    undo: it assigns [message] (or [event]) and the property [metadata] of the
    context anew at every turn. *)
Inductive Write (U : Type) :=
  | WriteMetadata (key : string) (value : U) (* context.metadata[key] = value *)
  | DeleteMetadata (key : string)            (* delete context.metadata[key] *)
  | WriteSessionId (s : string)              (* context.sessionId = s *)
  | WriteTimestamp (t : Z)                   (* context.timestamp.setTime(t) *)
  | WriteModel (m : option string)           (* context.model = m *)
  | WriteIsRetry (r : option bool).          (* input.isRetry = r *)
Arguments WriteMetadata {_} _ _.
Arguments DeleteMetadata {_} _.
Arguments WriteSessionId {_} _.
Arguments WriteTimestamp {_} _.
Arguments WriteModel {_} _.
Arguments WriteIsRetry {_} _.

(** What one handler call does: its writes into the two objects, the
    registry methods called meanwhile, then how it settles: [Normal None] is
    a handler that returns nothing. *)
Record Invocation (Thrown U C R : Type) := {
writes : list (Write U);
calls : list (ManagerCall C);
settled : Completion Thrown (option R);
}.
Arguments writes {_ _ _ _} _.
Arguments calls {_ _ _ _} _.
Arguments settled {_ _ _ _} _.

Section Model.
Context {PartListUnion ServerGeminiStreamEvent Unknown Thrown : Type}.

Record InterceptorContext := {
  sessionId : string;
  timestamp : Z;
  model : option string;
  metadata : gmap string Unknown;
}.

Record InputData := {
  message : PartListUnion;
  isRetry : option bool;
}.

Record OutputData := {
  event : ServerGeminiStreamEvent;
}.

Record InputInterceptorResult := {
  in_message : option PartListUnion;
  in_blocked : option bool;
  blockReason : option string;
  in_metadata : option (gmap string Unknown);
}.

Record OutputInterceptorResult := {
  out_event : option ServerGeminiStreamEvent;
  out_blocked : option bool;
  out_metadata : option (gmap string Unknown);
}.

#[local] Unset Elimination Schemes.
Inductive InterceptorConfig := {
  id : string;
  name : string;
  description : option string;
  onInput :
    option (InputData → InterceptorContext →
            Invocation Thrown Unknown InterceptorConfig InputInterceptorResult);
  onOutput :
    option (OutputData → InterceptorContext →
            Invocation Thrown Unknown InterceptorConfig
              OutputInterceptorResult);
  enabled : option bool;
  priority : option Number.t;
}.
#[local] Set Elimination Schemes.

Definition InputInterceptor :=
  InputData → InterceptorContext →
  Invocation Thrown Unknown InterceptorConfig InputInterceptorResult.

Definition OutputInterceptor :=
  OutputData → InterceptorContext →
  Invocation Thrown Unknown InterceptorConfig OutputInterceptorResult.

(** ** The state the manager runs in *)

Record LogLine := {
  severity : Severity;
  text : string;
  detail : option Thrown;
}.

(** One entry of the ghost record of handler calls: the registration whose
    handler was called, the two arguments as they were at the call, and what
    the call did. *)
Inductive HandlerCall :=
  | InputCall (interceptor : InterceptorConfig)
      (input : InputData) (context : InterceptorContext)
      (run : Invocation Thrown Unknown InterceptorConfig InputInterceptorResult)
  | OutputCall (interceptor : InterceptorConfig)
      (output : OutputData) (context : InterceptorContext)
      (run : Invocation Thrown Unknown InterceptorConfig
               OutputInterceptorResult).

Definition callee (c : HandlerCall) : InterceptorConfig :=
  match c with
  | InputCall i _ _ _ => i
  | OutputCall i _ _ _ => i
  end.

Definition seen (c : HandlerCall) : InterceptorContext :=
  match c with
  | InputCall _ _ context _ => context
  | OutputCall _ _ context _ => context
  end.

Definition performed (c : HandlerCall) : list (ManagerCall InterceptorConfig) :=
  match c with
  | InputCall _ _ _ run => calls run
  | OutputCall _ _ _ run => calls run
  end.

Definition wrote (c : HandlerCall) : list (Write Unknown) :=
  match c with
  | InputCall _ _ _ run => writes run
  | OutputCall _ _ _ run => writes run
  end.

Record World := {
  interceptors : JsMap.t InterceptorConfig;  (* this.interceptors *)
  this_sessionId : string;                   (* this.sessionId *)
  logged : list LogLine;                     (* debugLogger, oldest first *)
  clock : nat → Z;                           (* what the n-th Date reads *)
  dates : nat;                               (* Dates constructed so far *)
  arrays : list (list InterceptorConfig);    (* arrays handed to callers *)
  spied : list HandlerCall;                  (* ghost, oldest first *)
}.

Definition with_interceptors (m : JsMap.t InterceptorConfig) (w : World) : World :=
  {| interceptors := m; this_sessionId := this_sessionId w;
     logged := logged w; clock := clock w; dates := dates w;
     arrays := arrays w; spied := spied w |}.

Definition with_logged (l : list LogLine) (w : World) : World :=
  {| interceptors := interceptors w; this_sessionId := this_sessionId w;
     logged := l; clock := clock w; dates := dates w;
     arrays := arrays w; spied := spied w |}.

Definition with_dates (n : nat) (w : World) : World :=
  {| interceptors := interceptors w; this_sessionId := this_sessionId w;
     logged := logged w; clock := clock w; dates := n;
     arrays := arrays w; spied := spied w |}.

Definition with_arrays (h : list (list InterceptorConfig)) (w : World) : World :=
  {| interceptors := interceptors w; this_sessionId := this_sessionId w;
     logged := logged w; clock := clock w; dates := dates w;
     arrays := h; spied := spied w |}.

Definition with_spied (s : list HandlerCall) (w : World) : World :=
  {| interceptors := interceptors w; this_sessionId := this_sessionId w;
     logged := logged w; clock := clock w; dates := dates w;
     arrays := arrays w; spied := s |}.

Definition with_metadata (md : gmap string Unknown) (context : InterceptorContext)
    : InterceptorContext :=
  {| sessionId := sessionId context; timestamp := timestamp context;
     model := model context; metadata := md |}.

Definition with_message (m : PartListUnion) (inputData : InputData) : InputData :=
  {| message := m; isRetry := isRetry inputData |}.

Definition with_event (e : ServerGeminiStreamEvent) (outputData : OutputData)
    : OutputData :=
  {| event := e |}.

(** What a write does to the metadata object, to the context, whose
    [metadata] is that object, and to the input object. *)
Definition write_metadata (md : gmap string Unknown) (wr : Write Unknown)
    : gmap string Unknown :=
  match wr with
  | WriteMetadata key value => <[key := value]> md
  | DeleteMetadata key => delete key md
  | _ => md
  end.

Definition write_context (context : InterceptorContext) (wr : Write Unknown)
    : InterceptorContext :=
  {| sessionId := match wr with
                  | WriteSessionId s => s
                  | _ => sessionId context
                  end;
     timestamp := match wr with
                  | WriteTimestamp t => t
                  | _ => timestamp context
                  end;
     model := match wr with
              | WriteModel m => m
              | _ => model context
              end;
     metadata := write_metadata (metadata context) wr |}.

Definition write_input (inputData : InputData) (wr : Write Unknown)
    : InputData :=
  {| message := message inputData;
     isRetry := match wr with
                | WriteIsRetry r => r
                | _ => isRetry inputData
                end |}.

(** ** Computations: state, and exceptions that can be caught *)

Definition Eff (A : Type) : Type := World → Completion Thrown A * World.

#[export] Instance Eff_ret : MRet Eff := λ A a w, (Normal a, w).

#[export] Instance Eff_bind : MBind Eff := λ A B f m w,
  match m w with
  | (Normal a, w') => f a w'
  | (Throw e, w') => (Throw e, w')
  end.

Definition gets {A} (f : World → A) : Eff A := λ w, (Normal (f w), w).

Definition modify (f : World → World) : Eff () := λ w, (Normal (), f w).

(** [try { body } catch (error) { handler }] *)
Definition try_catch {A} (body : Eff A) (handler : Thrown → Eff A) : Eff A := λ w,
  match body w with
  | (Normal a, w') => (Normal a, w')
  | (Throw e, w') => handler e w'
  end.

(** Awaiting a value that has already settled. *)
Definition settle {A} (c : Completion Thrown A) : Eff A := λ w, (c, w).

(** Modelled from the spec: [debugLogger] (utils/debugLogger is not among
    the sources), the logging collaborator: a sink that takes a line and a
    severity, debug or error, returns nothing and does not throw.  It
    records the line; [error] also records the value it is passed. *)
Definition debugLogger_debug (line : string) : Eff () :=
  modify (λ w, with_logged
    (logged w ++ [{| severity := sev_debug; text := line; detail := None |}]) w).

Definition debugLogger_error (line : string) (e : Thrown) : Eff () :=
  modify (λ w, with_logged
    (logged w ++ [{| severity := sev_error; text := line; detail := Some e |}]) w).

(** [new Date()] *)
Definition new_Date : Eff Z := λ w,
  (Normal (clock w (dates w)), with_dates (S (dates w)) w).

(** [Array.from(it)]: a new array, by its index in the heap of arrays. *)
Definition Array_from (l : list InterceptorConfig) : Eff nat := λ w,
  (Normal (length (arrays w)), with_arrays (arrays w ++ [l]) w).

(** Any in-place change of an array (push, pop, splice, reverse, sort, an
    assignment to an index or to [length]): it replaces the contents of that
    array by a function of them.  Nothing happens at an index that was
    never handed out. *)
Definition Array_mutate (a : nat)
    (f : list InterceptorConfig → list InterceptorConfig) : Eff () :=
  modify (λ w, with_arrays (alter f a (arrays w)) w).

(** ** interceptorManager.ts: the registry *)

Definition register (config : InterceptorConfig) : Eff () :=
  m ← gets interceptors;
  (if JsMap.has (id config) m
   then debugLogger_debug
          ("[InterceptorManager] Replacing existing interceptor: " +:+ id config)
   else mret ());;
  modify (λ w, with_interceptors (JsMap.set (id config) config (interceptors w)) w);;
  debugLogger_debug
    ("[InterceptorManager] Registered interceptor: " +:+ id config
       +:+ " (" +:+ name config +:+ ")").

Definition unregister (i : string) : Eff bool :=
  m ← gets interceptors;
  let result := (JsMap.delete i m).1 in
  modify (with_interceptors (JsMap.delete i m).2);;
  (if result
   then debugLogger_debug ("[InterceptorManager] Unregistered interceptor: " +:+ i)
   else mret ());;
  mret result.

Definition getAll : Eff nat :=
  m ← gets interceptors;
  Array_from (JsMap.values m).

Definition get (i : string) : Eff (option InterceptorConfig) :=
  m ← gets interceptors;
  mret (JsMap.get i m).

Definition clear : Eff () :=
  modify (with_interceptors JsMap.empty);;
  debugLogger_debug "[InterceptorManager] Cleared all interceptors".

(** ** interceptorManager.ts: the pipelines *)

(** The values found in the object a pipeline returns; the object itself is
    a finite map from property names. *)
Inductive JsValue :=
  | JUndefined
  | JBoolean (b : bool)
  | JString (s : string)
  | JPartListUnion (m : PartListUnion)
  | JEvent (e : ServerGeminiStreamEvent).

Definition optional (o : option string) : JsValue :=
  match o with
  | Some s => JString s
  | None => JUndefined
  end.

(** [if (x)] on an optional boolean. *)
Definition truthy (o : option bool) : bool :=
  match o with
  | Some true => true
  | _ => false
  end.

(** How one turn of a [for] loop ends: with the loop variables for the next
    turn, or with the value the function returns. *)
Inductive Turn (S R : Type) :=
  | Continue (s : S)
  | Return (r : R).
Arguments Continue {_ _} _.
Arguments Return {_ _} _.

(** Calling a handler and awaiting it: the call is spied, the registry
    methods called meanwhile take effect, then the handler settles. *)
Definition perform (c : ManagerCall InterceptorConfig) : Eff () :=
  match c with
  | CallRegister config => register config
  | CallUnregister i => unregister i;; mret ()
  | CallClear => clear
  end.

Fixpoint perform_all (cs : list (ManagerCall InterceptorConfig)) : Eff () :=
  match cs with
  | [] => mret ()
  | c :: cs' => perform c;; perform_all cs'
  end.

Definition await {R} (spy : HandlerCall)
    (run : Invocation Thrown Unknown InterceptorConfig R) : Eff (option R) :=
  modify (λ w, with_spied (spied w ++ [spy]) w);;
  perform_all (calls run);;
  settle (settled run).

(** [(a, b) => (b.priority ?? 0) - (a.priority ?? 0)] *)
Definition byPriority (a b : InterceptorConfig) : Number.t :=
  (default 0 (priority b) - default 0 (priority a))%num.

Definition inputEnabled (i : InterceptorConfig) : Prop :=
  enabled i ≠ Some false ∧ is_Some (onInput i).

Definition outputEnabled (i : InterceptorConfig) : Prop :=
  enabled i ≠ Some false ∧ is_Some (onOutput i).

#[export] Instance inputEnabled_dec i : Decision (inputEnabled i).
Proof. unfold inputEnabled. apply _. Defined.

#[export] Instance outputEnabled_dec i : Decision (outputEnabled i).
Proof. unfold outputEnabled. apply _. Defined.

Definition getSortedInputInterceptors : Eff (list InterceptorConfig) :=
  m ← gets interceptors;
  mret (Array_sort byPriority (filter inputEnabled (JsMap.values m))).

Definition getSortedOutputInterceptors : Eff (list InterceptorConfig) :=
  m ← gets interceptors;
  mret (Array_sort byPriority (filter outputEnabled (JsMap.values m))).

(** The [for] loop of [executeInputInterceptors], from the turn of the
    first element of [enabledInterceptors] on.  [context] and [inputData]
    are the two objects as they stand when the turn begins, [metadata] the
    object the variable of that name refers to. *)
Fixpoint forInputInterceptors (context : InterceptorContext) (inputData : InputData)
    (enabledInterceptors : list InterceptorConfig)
    (currentMessage : PartListUnion) (metadata : gmap string Unknown)
    {struct enabledInterceptors} : Eff (gmap string JsValue) :=
  match enabledInterceptors with
  | [] =>
      mret {[ "message" := JPartListUnion currentMessage;
              "blocked" := JBoolean false ]}
  | interceptor :: rest =>
      match onInput interceptor with
      | None => forInputInterceptors context inputData rest currentMessage metadata
      | Some handler =>
          (* the two assignments of the turn, which the source makes in the
             [try], after the first debug line: they do not throw *)
          let context := with_metadata metadata context in
          let inputData := with_message currentMessage inputData in
          (* the call of the turn; what it writes into the two objects, and
             so into the object [metadata], is there whether it returns or
             throws *)
          let run := handler inputData context in
          let written := foldl write_context context (writes run) in
          let writtenData := foldl write_input inputData (writes run) in
          let metadata := foldl write_metadata metadata (writes run) in
          turn ← try_catch
            (debugLogger_debug
               ("[InterceptorManager] Executing input interceptor: "
                  +:+ id interceptor);;
             result ← await (InputCall interceptor inputData context run) run;
             match result with
             | None => mret (Continue (currentMessage, metadata))
             | Some result =>
                 if truthy (in_blocked result) then
                   debugLogger_debug
                     ("[InterceptorManager] Input blocked by interceptor: "
                        +:+ id interceptor);;
                   mret (Return
                     {[ "message" := JPartListUnion currentMessage;
                        "blocked" := JBoolean true;
                        "blockReason" := optional (blockReason result) ]})
                 else
                   currentMessage ←
                     match in_message result with
                     | Some m =>
                         debugLogger_debug
                           ("[InterceptorManager] Input modified by interceptor: "
                              +:+ id interceptor);;
                         mret m
                     | None => mret currentMessage
                     end;
                   let metadata :=
                     match in_metadata result with
                     | Some more => more ∪ metadata
                     | None => metadata
                     end in
                   mret (Continue (currentMessage, metadata))
             end)
            (λ error,
               debugLogger_error
                 ("[InterceptorManager] Error in input interceptor "
                    +:+ id interceptor +:+ ":") error;;
               mret (Continue (currentMessage, metadata)));
          match turn with
          | Continue (currentMessage, metadata) =>
              forInputInterceptors written writtenData rest
                currentMessage metadata
          | Return r => mret r
          end
      end
  end.

Definition executeInputInterceptors (message : PartListUnion)
    (model : option string) (isRetry : option bool) : Eff (gmap string JsValue) :=
  enabledInterceptors ← getSortedInputInterceptors;
  if decide (length enabledInterceptors = 0%nat) then
    mret {[ "message" := JPartListUnion message; "blocked" := JBoolean false ]}
  else
    let currentMessage := message in
    let metadata : gmap string Unknown := ∅ in
    sid ← gets this_sessionId;
    now ← new_Date;
    let context :=
      {| sessionId := sid; timestamp := now; model := model;
         metadata := metadata |} in
    let inputData := {| message := currentMessage; isRetry := isRetry |} in
    forInputInterceptors context inputData enabledInterceptors
      currentMessage metadata.

(** The [for] loop of [executeOutputInterceptors]. *)
Fixpoint forOutputInterceptors (context : InterceptorContext) (outputData : OutputData)
    (enabledInterceptors : list InterceptorConfig)
    (currentEvent : ServerGeminiStreamEvent) (metadata : gmap string Unknown)
    {struct enabledInterceptors} : Eff (gmap string JsValue) :=
  match enabledInterceptors with
  | [] =>
      mret {[ "event" := JEvent currentEvent; "blocked" := JBoolean false ]}
  | interceptor :: rest =>
      match onOutput interceptor with
      | None => forOutputInterceptors context outputData rest currentEvent metadata
      | Some handler =>
          (* as in the input loop; an output object has the one property
             [event], which the turn assigns *)
          let context := with_metadata metadata context in
          let outputData := with_event currentEvent outputData in
          let run := handler outputData context in
          let written := foldl write_context context (writes run) in
          let metadata := foldl write_metadata metadata (writes run) in
          turn ← try_catch
            (debugLogger_debug
               ("[InterceptorManager] Executing output interceptor: "
                  +:+ id interceptor);;
             result ← await (OutputCall interceptor outputData context run) run;
             match result with
             | None => mret (Continue (currentEvent, metadata))
             | Some result =>
                 if truthy (out_blocked result) then
                   debugLogger_debug
                     ("[InterceptorManager] Output blocked by interceptor: "
                        +:+ id interceptor);;
                   mret (Return
                     {[ "event" := JEvent currentEvent;
                        "blocked" := JBoolean true ]})
                 else
                   currentEvent ←
                     match out_event result with
                     | Some e =>
                         debugLogger_debug
                           ("[InterceptorManager] Output modified by interceptor: "
                              +:+ id interceptor);;
                         mret e
                     | None => mret currentEvent
                     end;
                   let metadata :=
                     match out_metadata result with
                     | Some more => more ∪ metadata
                     | None => metadata
                     end in
                   mret (Continue (currentEvent, metadata))
             end)
            (λ error,
               debugLogger_error
                 ("[InterceptorManager] Error in output interceptor "
                    +:+ id interceptor +:+ ":") error;;
               mret (Continue (currentEvent, metadata)));
          match turn with
          | Continue (currentEvent, metadata) =>
              forOutputInterceptors written outputData rest
                currentEvent metadata
          | Return r => mret r
          end
      end
  end.

Definition executeOutputInterceptors (event : ServerGeminiStreamEvent)
    (model : option string) : Eff (gmap string JsValue) :=
  enabledInterceptors ← getSortedOutputInterceptors;
  if decide (length enabledInterceptors = 0%nat) then
    mret {[ "event" := JEvent event; "blocked" := JBoolean false ]}
  else
    let currentEvent := event in
    let metadata : gmap string Unknown := ∅ in
    sid ← gets this_sessionId;
    now ← new_Date;
    let context :=
      {| sessionId := sid; timestamp := now; model := model;
         metadata := metadata |} in
    let outputData := {| event := currentEvent |} in
    forOutputInterceptors context outputData enabledInterceptors
      currentEvent metadata.

End Model.

Arguments InterceptorContext : clear implicits.
Arguments InputData : clear implicits.
Arguments OutputData : clear implicits.
Arguments InputInterceptorResult : clear implicits.
Arguments OutputInterceptorResult : clear implicits.
Arguments InterceptorConfig : clear implicits.
Arguments InputInterceptor : clear implicits.
Arguments OutputInterceptor : clear implicits.
Arguments LogLine : clear implicits.
Arguments HandlerCall : clear implicits.
Arguments World : clear implicits.
Arguments Eff : clear implicits.
Arguments JsValue : clear implicits.

(** ** What the ghost record of one call says *)

Section Observations.
Context {PartListUnion ServerGeminiStreamEvent Unknown Thrown : Type}.
Local Abbreviation HandlerCall :=
  (HandlerCall PartListUnion ServerGeminiStreamEvent Unknown Thrown).
Local Abbreviation InterceptorConfig :=
  (InterceptorConfig PartListUnion ServerGeminiStreamEvent Unknown Thrown).

(** The call returned a result whose [blocked] is true. *)
Definition blocks (c : HandlerCall) : bool :=
  match c with
  | InputCall _ _ _ run =>
      match settled run with
      | Normal (Some result) => truthy (in_blocked result)
      | _ => false
      end
  | OutputCall _ _ _ run =>
      match settled run with
      | Normal (Some result) => truthy (out_blocked result)
      | _ => false
      end
  end.

(** The value the call threw, or its promise was rejected with. *)
Definition thrown (c : HandlerCall) : option Thrown :=
  match c with
  | InputCall _ _ _ run =>
      match settled run with Throw e => Some e | _ => None end
  | OutputCall _ _ _ run =>
      match settled run with Throw e => Some e | _ => None end
  end.

(** The [metadata] of the result of the call, if it returned one. *)
Definition contributed (c : HandlerCall) : option (gmap string Unknown) :=
  match c with
  | InputCall _ _ _ run =>
      match settled run with
      | Normal (Some result) => in_metadata result
      | _ => None
      end
  | OutputCall _ _ _ run =>
      match settled run with
      | Normal (Some result) => out_metadata result
      | _ => None
      end
  end.

(** The [message] of the result of an input call, the [event] of the result
    of an output call, if it returned one. *)
Definition newMessage (c : HandlerCall) : option PartListUnion :=
  match c with
  | InputCall _ _ _ run =>
      match settled run with
      | Normal (Some result) => in_message result
      | _ => None
      end
  | OutputCall _ _ _ _ => None
  end.

Definition newEvent (c : HandlerCall) : option ServerGeminiStreamEvent :=
  match c with
  | InputCall _ _ _ _ => None
  | OutputCall _ _ _ run =>
      match settled run with
      | Normal (Some result) => out_event result
      | _ => None
      end
  end.

(** The running message, event and metadata after a sequence of calls none
    of which blocks: each result is applied in turn. *)
Definition messageAfter (start : PartListUnion) (cs : list HandlerCall)
    : PartListUnion :=
  foldl (λ m c, default m (newMessage c)) start cs.

Definition eventAfter (start : ServerGeminiStreamEvent) (cs : list HandlerCall)
    : ServerGeminiStreamEvent :=
  foldl (λ e c, default e (newEvent c)) start cs.

(** The metadata object after the writes of a call, then merged with what
    its result contributes: [{...metadata, ...result.metadata}]. *)
Definition metadataAfter (start : gmap string Unknown) (cs : list HandlerCall)
    : gmap string Unknown :=
  foldl (λ md c, match contributed c with
                 | Some more => more ∪ foldl write_metadata md (wrote c)
                 | None => foldl write_metadata md (wrote c)
                 end) start cs.

(** The context object and the input object as a sequence of calls leaves
    them: each call leaves the object it was handed with its writes. *)
Definition contextLeft (c : HandlerCall) : InterceptorContext Unknown :=
  foldl write_context (seen c) (wrote c).


Definition inputLeft (inputData : InputData PartListUnion) (c : HandlerCall)
    : InputData PartListUnion :=
  match c with
  | InputCall _ input _ run => foldl write_input input (writes run)
  | OutputCall _ _ _ _ => inputData
  end.



Definition contextAfter (start : InterceptorContext Unknown)
    (cs : list HandlerCall) : InterceptorContext Unknown :=
  foldl (λ _ c, contextLeft c) start cs.

Definition inputAfter (start : InputData PartListUnion) (cs : list HandlerCall)
    : InputData PartListUnion :=
  foldl inputLeft start cs.

(** What a registry method called during a handler does to the [Map]. *)
Definition effect (m : JsMap.t InterceptorConfig)
    (c : ManagerCall InterceptorConfig) : JsMap.t InterceptorConfig :=
  match c with
  | CallRegister config => JsMap.set (id config) config m
  | CallUnregister i => JsMap.remove i m
  | CallClear => JsMap.empty
  end.

(** The line [debugLogger.error] writes for a handler that threw. *)
Definition inputErrorLine (i : InterceptorConfig) (e : Thrown)
    : LogLine Thrown :=
  {| severity := sev_error;
     text := "[InterceptorManager] Error in input interceptor "
               +:+ id i +:+ ":";
     detail := Some e |}.

Definition outputErrorLine (i : InterceptorConfig) (e : Thrown)
    : LogLine Thrown :=
  {| severity := sev_error;
     text := "[InterceptorManager] Error in output interceptor "
               +:+ id i +:+ ":";
     detail := Some e |}.

(** The [blockReason] of the result of an input call, if it returned one. *)
Definition reason (c : HandlerCall) : option string :=
  match c with
  | InputCall _ _ _ run =>
      match settled run with
      | Normal (Some result) => blockReason result
      | _ => None
      end
  | OutputCall _ _ _ _ => None
  end.

Definition errorLine (c : HandlerCall) (e : Thrown) : LogLine Thrown :=
  match c with
  | InputCall i _ _ _ => inputErrorLine i e
  | OutputCall i _ _ _ => outputErrorLine i e
  end.

(** The call the input loop makes at the turn of [i], whose handler is [h],
    when the running message is [cur] and the running metadata [md]; and
    the same for the output loop. *)
Definition inputCall (context : InterceptorContext Unknown)
    (inputData : InputData PartListUnion) (i : InterceptorConfig)
    (h : InputInterceptor PartListUnion ServerGeminiStreamEvent Unknown Thrown)
    (cur : PartListUnion) (md : gmap string Unknown) : HandlerCall :=
  InputCall i (with_message cur inputData) (with_metadata md context)
    (h (with_message cur inputData) (with_metadata md context)).

Definition outputCall (context : InterceptorContext Unknown)
    (outputData : OutputData ServerGeminiStreamEvent) (i : InterceptorConfig)
    (h : OutputInterceptor PartListUnion ServerGeminiStreamEvent Unknown Thrown)
    (cur : ServerGeminiStreamEvent) (md : gmap string Unknown) : HandlerCall :=
  OutputCall i (with_event cur outputData) (with_metadata md context)
    (h (with_event cur outputData) (with_metadata md context)).

(** The loops as relations: from the two objects, the handlers still to
    run, the running message (event) and the running metadata, to the calls
    made and the object returned. *)
Inductive InputRun
  : InterceptorContext Unknown → InputData PartListUnion →
    list InterceptorConfig → PartListUnion → gmap string Unknown →
    list HandlerCall → gmap string (JsValue PartListUnion ServerGeminiStreamEvent) →
    Prop :=
  | InputRun_done context inputData cur md :
      InputRun context inputData [] cur md []
        {[ "message" := JPartListUnion cur; "blocked" := JBoolean false ]}
  | InputRun_skip context inputData i rest cur md new res :
      onInput i = None →
      InputRun context inputData rest cur md new res →
      InputRun context inputData (i :: rest) cur md new res
  | InputRun_blocked context inputData i h rest cur md :
      onInput i = Some h →
      blocks (inputCall context inputData i h cur md) = true →
      InputRun context inputData (i :: rest) cur md
        [inputCall context inputData i h cur md]
        {[ "message" := JPartListUnion cur; "blocked" := JBoolean true;
           "blockReason" :=
             optional (reason (inputCall context inputData i h cur md)) ]}
  | InputRun_next context inputData i h rest cur md new res :
      onInput i = Some h →
      blocks (inputCall context inputData i h cur md) = false →
      InputRun
        (contextAfter context [inputCall context inputData i h cur md])
        (inputAfter inputData [inputCall context inputData i h cur md]) rest
        (messageAfter cur [inputCall context inputData i h cur md])
        (metadataAfter md [inputCall context inputData i h cur md]) new res →
      InputRun context inputData (i :: rest) cur md
        (inputCall context inputData i h cur md :: new) res.

Inductive OutputRun
  : InterceptorContext Unknown → OutputData ServerGeminiStreamEvent →
    list InterceptorConfig → ServerGeminiStreamEvent → gmap string Unknown →
    list HandlerCall → gmap string (JsValue PartListUnion ServerGeminiStreamEvent) →
    Prop :=
  | OutputRun_done context outputData cur md :
      OutputRun context outputData [] cur md []
        {[ "event" := JEvent cur; "blocked" := JBoolean false ]}
  | OutputRun_skip context outputData i rest cur md new res :
      onOutput i = None →
      OutputRun context outputData rest cur md new res →
      OutputRun context outputData (i :: rest) cur md new res
  | OutputRun_blocked context outputData i h rest cur md :
      onOutput i = Some h →
      blocks (outputCall context outputData i h cur md) = true →
      OutputRun context outputData (i :: rest) cur md
        [outputCall context outputData i h cur md]
        {[ "event" := JEvent cur; "blocked" := JBoolean true ]}
  | OutputRun_next context outputData i h rest cur md new res :
      onOutput i = Some h →
      blocks (outputCall context outputData i h cur md) = false →
      OutputRun
        (contextAfter context [outputCall context outputData i h cur md])
        (with_event cur outputData) rest
        (eventAfter cur [outputCall context outputData i h cur md])
        (metadataAfter md [outputCall context outputData i h cur md]) new res →
      OutputRun context outputData (i :: rest) cur md
        (outputCall context outputData i h cur md :: new) res.
End Observations.

(** ** What a computation does to the world *)

Section Worlds.
Context {PartListUnion ServerGeminiStreamEvent Unknown Thrown : Type}.
Local Abbreviation State :=
  (World PartListUnion ServerGeminiStreamEvent Unknown Thrown).
Local Abbreviation Call :=
  (HandlerCall PartListUnion ServerGeminiStreamEvent Unknown Thrown).
Local Abbreviation Config :=
  (InterceptorConfig PartListUnion ServerGeminiStreamEvent Unknown Thrown).

(** [w'] differs from [w] by its registry and by lines added to its log. *)
Definition steady (w w' : State) : Prop :=
  this_sessionId w' = this_sessionId w ∧ clock w' = clock w ∧
  dates w' = dates w ∧ arrays w' = arrays w ∧ spied w' = spied w ∧
  ∃ lines, logged w' = (logged w ++ lines)%list.

(** The world [w'] a run that made the calls [new] leaves, from [w]. *)
Definition after (w : State) (new : list Call) (w' : State) : Prop :=
  spied w' = (spied w ++ new)%list ∧
  interceptors w' = foldl effect (interceptors w) (new ≫= performed) ∧
  this_sessionId w' = this_sessionId w ∧ clock w' = clock w ∧
  dates w' = dates w ∧ arrays w' = arrays w ∧
  ∃ lines, logged w' = (logged w ++ lines)%list ∧
           ∀ c e, c ∈ new → thrown c = Some e → errorLine c e ∈ lines.

(** What [getSortedInputInterceptors] and [getSortedOutputInterceptors]
    return in [w]: the handlers a run that starts in [w] selects. *)
Definition inputSnapshot (w : State) : list Config :=
  Array_sort byPriority (filter inputEnabled (JsMap.values (interceptors w))).

Definition outputSnapshot (w : State) : list Config :=
  Array_sort byPriority (filter outputEnabled (JsMap.values (interceptors w))).

(** The context a run that starts in [w] builds. *)
Definition contextOf (w : State) (model : option string)
    : InterceptorContext Unknown :=
  {| sessionId := this_sessionId w; timestamp := clock w (dates w);
     model := model; metadata := ∅ |}.

(** The world in which the first handler of a run is called: a [Date] has
    been constructed, unless no handler was selected. *)
Definition started (snapshot : list Config) (w : State) : State :=
  match snapshot with
  | [] => w
  | _ :: _ => with_dates (S (dates w)) w
  end.
End Worlds.

(** ** Scenarios of the test-suite and of the documentation

    Payloads, metadata values and thrown values are strings here. *)

Module Scenario.
Definition Config := InterceptorConfig string string string string.
Definition State := World string string string string.

(** [new InterceptorManager('test-session')], nothing logged yet. *)
Definition fresh : State :=
  {| interceptors := JsMap.empty; this_sessionId := "test-session";
     logged := []; clock := λ n, Z.of_nat n; dates := 0%nat;
     arrays := []; spied := [] |}.

Definition returns {R} (r : R) : Invocation string string Config R :=
  {| writes := []; calls := []; settled := Normal (Some r) |}.

(** [onInput: (input) => ({ message: tag + input.message })] *)
Definition prefixing (tag : string) : InputInterceptor string string string string :=
  λ input _, returns {| in_message := Some (tag +:+ message input);
                        in_blocked := None; blockReason := None;
                        in_metadata := None |}.

Definition onInputOnly (i n : string) (p : option Number.t)
    (h : InputInterceptor string string string string) : Config :=
  {| id := i; name := n; description := None; onInput := Some h;
     onOutput := None; enabled := None; priority := p |}.

Definition onOutputOnly (i n : string) (p : option Number.t)
    (h : OutputInterceptor string string string string) : Config :=
  {| id := i; name := n; description := None; onInput := None;
     onOutput := Some h; enabled := None; priority := p |}.

Definition handlerA : Config :=
  onInputOnly "A" "A" (Some 10%num) (prefixing "A:").
Definition handlerB : Config :=
  onInputOnly "B" "B" (Some 1%num) (prefixing "B:").

(** A handler that blocks with a reason and also proposes a message. *)
Definition blocker : Config :=
  onInputOnly "blocker" "Blocker" (Some 2%num)
    (λ _ _, returns {| in_message := Some "replaced"; in_blocked := Some true;
                       blockReason := Some "Input not allowed";
                       in_metadata := None |}).

Definition outputBlocker : Config :=
  onOutputOnly "blocker" "Blocker" (Some 2%num)
    (λ _ _, returns {| out_event := Some "replaced"; out_blocked := Some true;
                       out_metadata := None |}).


Definition outputThrower : Config :=
  onOutputOnly "error-interceptor" "Error" (Some 3%num)
    (λ _ _, {| writes := []; calls := []; settled := Throw "Test error" |}).

(** A handler, ordered last, that returns nothing. *)
Definition bystander : Config :=
  onInputOnly "normal-interceptor" "Normal" (Some 1%num)
    (λ _ _, {| writes := []; calls := []; settled := Normal None |}).

Definition outputBystander : Config :=
  onOutputOnly "normal-interceptor" "Normal" (Some 1%num)
    (λ _ _, {| writes := []; calls := []; settled := Normal None |}).


(** A handler that empties the registry and registers [handlerA] while it
    runs. *)
Definition meddler : Config :=
  onInputOnly "meddler" "Meddler" (Some 5%num)
    (λ _ _, {| writes := []; calls := [CallClear; CallRegister handlerA];
               settled := Normal None |}).

(** The world after registering the given registrations in order. *)
Definition registered (l : list Config) : State :=
  (foldl (λ w c, (register c w).2) fresh l).

(** Three worlds of the scenarios, and the calls that matter in them. *)
Definition blockedWorld : State := registered [bystander; handlerA; blocker].









(** Two registrations without a priority, and one of priority 0. *)
Definition first : Config :=
  onInputOnly "first" "First" None
    (λ _ _, {| writes := []; calls := []; settled := Normal None |}).

Definition second : Config :=
  onInputOnly "second" "Second" (Some 0%num)
    (λ _ _, {| writes := []; calls := []; settled := Normal None |}).







(** [enabled: false] *)
Definition disabled : Config :=
  {| id := "disabled-interceptor"; name := "Disabled"; description := None;
     onInput := Some (prefixing "never:"); onOutput := None;
     enabled := Some false; priority := None |}.

Definition meddledWorld : State := registered [bystander; meddler].

(** The scenarios on the output side. *)
Definition blockedOutputWorld : State :=
  registered [outputBystander; outputBlocker; outputThrower].












End Scenario.

(** ** The invariant of the registry *)

Section Invariant.
Context {PartListUnion ServerGeminiStreamEvent Unknown Thrown : Type}.
Local Abbreviation Config :=
  (InterceptorConfig PartListUnion ServerGeminiStreamEvent Unknown Thrown).

(** No key is bound twice, and every registration is bound to its own
    [id]: [register] is the only method that binds, and it binds
    [config.id]. *)
Definition wellKeyed (m : JsMap.t Config) : Prop :=
  NoDup (JsMap.keys m) ∧ Forall (λ kv, id kv.2 = kv.1) m.
End Invariant.

(** ** The lines a run logs *)

#[export] Instance Severity_eq_dec : EqDecision Severity.
Proof. solve_decision. Defined.

Section Log.
Context {PartListUnion ServerGeminiStreamEvent Unknown Thrown : Type}.
Local Abbreviation Config :=
  (InterceptorConfig PartListUnion ServerGeminiStreamEvent Unknown Thrown).
Local Abbreviation Call :=
  (HandlerCall PartListUnion ServerGeminiStreamEvent Unknown Thrown).






End Log.

(** * The content filter of the examples

    [examples/interceptors/content-filter-interceptor.ts] keeps seven
    regular expressions, all with the flags [g] and [i], and uses them
    through [RegExp.prototype.test] and [String.prototype.replace].  Both
    read and write the [lastIndex] of the expression, so the expressions are
    part of the state.

    ** Regular expressions, as far as the seven patterns go

    The patterns are sequences of quantified atoms; an atom is a character,
    a class of characters, [\s] or [\S], and every quantifier is greedy.
    There are no groups, no alternatives, no assertions and no back
    references, so whether a pattern matches at an index depends on the text
    from that index on only, and a match is described by the text left
    after it. *)

Module Regex.

(** A JavaScript string is a sequence of UTF-16 code units. *)
Definition JsString := list N.

(** The string a literal of the source denotes; the literals of the source
    hold code units below 128 only. *)
Definition units (s : string) : JsString :=
  Ascii.N_of_ascii <$> String.list_ascii_of_string s.

(** The code units [\s] matches: the white space and the line terminators
    of ECMAScript. *)
Definition WhiteSpace (ch : N) : bool :=
  bool_decide (ch ∈ [9; 10; 11; 12; 13; 32; 160; 5760; 8232; 8233; 8239;
                     8287; 12288; 65279]%N)
  || (8192 <=? ch)%N && (ch <=? 8202)%N.

(** [Canonicalize] under the flag [i], without the flag [u]: the upper case
    of the code unit, unless that is not one code unit, or is below 128 when
    the code unit is not.  A code unit of 128 or more is thus never taken
    to one below 128, and is left as it is here: the patterns hold code
    units below 128 only, and a canonical code unit is only ever compared
    with that of a code unit of a pattern. *)
Definition Canonicalize (ch : N) : N :=
  if (97 <=? ch)%N && (ch <=? 122)%N then (ch - 32)%N else ch.

Inductive Atom :=
  | PatternCharacter (c : Ascii.ascii)
  | CharacterClass (ranges : list (Ascii.ascii * Ascii.ascii))
  | ClassEscape_s
  | ClassEscape_S.

(** The code units of a range [lo-hi] of a class; a single character [c]
    of a class is the range [c-c]. *)
Definition members (range : Ascii.ascii * Ascii.ascii) : list N :=
  (λ k, Ascii.N_of_ascii range.1 + N.of_nat k)%N
    <$> seq 0 (N.to_nat (Ascii.N_of_ascii range.2 + 1 - Ascii.N_of_ascii range.1)).

(** Whether the atom matches the code unit: some member of its set has the
    canonical form of the code unit.  No code unit has the canonical form
    of a white space but the white space itself. *)
Definition CharacterSetMatcher (a : Atom) (ch : N) : bool :=
  match a with
  | PatternCharacter c =>
      bool_decide (Canonicalize (Ascii.N_of_ascii c) = Canonicalize ch)
  | CharacterClass ranges =>
      bool_decide (Canonicalize ch ∈ Canonicalize <$> (ranges ≫= members))
  | ClassEscape_s => WhiteSpace ch
  | ClassEscape_S => negb (WhiteSpace ch)
  end.

(** An atom with its quantifier [{q_min, q_max}]; no [q_max] is no upper
    bound. *)
Record Term := { atom : Atom; q_min : nat; q_max : option nat }.
Definition Pattern := list Term.

(** [RepeatMatcher] for a greedy quantifier on an atom: [x] is the text
    from the current index on, [c] the continuation, and the result the
    text left after the whole match, if there is one.  One more code unit
    is tried first; the continuation is tried on [x] itself when that
    fails and no more repetition is due. *)
Fixpoint RepeatMatcher (a : Atom) (min : nat) (max : option nat)
    (c : JsString → option JsString) (x : JsString) {struct x}
    : option JsString :=
  match max with
  | Some 0%nat => c x
  | _ =>
      let z :=
        match x with
        | ch :: y =>
            if CharacterSetMatcher a ch
            then RepeatMatcher a (pred min) (pred <$> max) c y
            else None
        | [] => None
        end in
      match min with
      | S _ => z
      | 0%nat => match z with Some r => Some r | None => c x end
      end
  end.

(** The matcher of a sequence of terms.  [Matcher p Some x] is the text
    left after the match of [p] at the start of [x]. *)
Fixpoint Matcher (p : Pattern) (c : JsString → option JsString)
    : JsString → option JsString :=
  match p with
  | [] => c
  | t :: p' => RepeatMatcher (atom t) (q_min t) (q_max t) (Matcher p' c)
  end.

(** The loop of [RegExpBuiltinExec]: [x] is the text from [lastIndex] on.
    The match is tried at [lastIndex], then at the next index, up to the
    index that is the length of the text.  The result is the index of the
    match and the text left after it. *)
Fixpoint scan (p : Pattern) (x : JsString) (lastIndex : nat)
    : option (nat * JsString) :=
  match Matcher p Some x with
  | Some y => Some (lastIndex, y)
  | None =>
      match x with
      | [] => None
      | _ :: x' => scan p x' (S lastIndex)
      end
  end.

(** A [RegExp] object with the flags [g] and [i]. *)
Record RegExp := { source : Pattern; lastIndex : nat }.

Definition with_lastIndex (i : nat) (R : RegExp) : RegExp :=
  {| source := source R; lastIndex := i |}.

(** [RegExpBuiltinExec(R, S)] for a global expression: the index at which
    the match starts and the index [e] at which it ends.  [lastIndex] is
    set to [e], and to 0 when there is no match. *)
Definition RegExpBuiltinExec (R : RegExp) (S : JsString)
    : option (nat * nat) * RegExp :=
  if decide (length S < lastIndex R)%nat then (None, with_lastIndex 0 R)
  else
    match scan (source R) (drop (lastIndex R) S) (lastIndex R) with
    | None => (None, with_lastIndex 0 R)
    | Some (index, y) =>
        let e := (length S - length y)%nat in
        (Some (index, e), with_lastIndex e R)
    end.

(** [R.test(S)] *)
Definition test (R : RegExp) (S : JsString) : bool * RegExp :=
  let '(r, R') := RegExpBuiltinExec R S in (bool_decide (is_Some r), R').

(** [S.replace(R, replacement)] for a global expression and a replacement
    without [$]: the search starts at index 0, every match is replaced, and
    the search goes on where the match ended, or one index further when the
    match was empty.  The text is walked once; [inside] counts the code
    units of the match just replaced that are still to be skipped. *)
Fixpoint replaceFrom (p : Pattern) (replacement : JsString) (x : JsString)
    (inside : nat) {struct x} : JsString :=
  match x with
  | [] =>
      match inside, Matcher p Some [] with
      | 0%nat, Some _ => replacement
      | _, _ => []
      end
  | ch :: x' =>
      match inside with
      | S k => replaceFrom p replacement x' k
      | 0%nat =>
          match Matcher p Some x with
          | None => ch :: replaceFrom p replacement x' 0
          | Some y =>
              match (length x - length y)%nat with
              | 0%nat => (replacement ++ ch :: replaceFrom p replacement x' 0)%list
              | S k => (replacement ++ replaceFrom p replacement x' k)%list
              end
          end
      end
  end.

(** [replace] leaves [lastIndex] at 0: it is set to 0 before the search,
    and again by the search that finds no further match. *)
Definition replace (R : RegExp) (replacement : JsString) (S : JsString)
    : JsString * RegExp :=
  (replaceFrom (source R) replacement S 0, with_lastIndex 0 R).

(** The quantifiers of the patterns: none, [?], [*], [+], [{n,}] and
    [{n}]; and a sequence of characters. *)
Definition once (a : Atom) : Term :=
  {| atom := a; q_min := 1; q_max := Some 1%nat |}.
Definition zeroOrOne (a : Atom) : Term :=
  {| atom := a; q_min := 0; q_max := Some 1%nat |}.
Definition star (a : Atom) : Term :=
  {| atom := a; q_min := 0; q_max := None |}.
Definition plus (a : Atom) : Term :=
  {| atom := a; q_min := 1; q_max := None |}.
Definition atLeast (n : nat) (a : Atom) : Term :=
  {| atom := a; q_min := n; q_max := None |}.
Definition exactly (n : nat) (a : Atom) : Term :=
  {| atom := a; q_min := n; q_max := Some n |}.
Definition literal (s : string) : Pattern :=
  once ∘ PatternCharacter <$> String.list_ascii_of_string s.

(** *** Notions the properties are stated with *)

(** The least number of code units a match of [p] has, when no quantifier
    of [p] has a lower bound above its upper bound. *)
Definition minLength (p : Pattern) : nat := sum_list (q_min <$> p).

Definition wellFormed (p : Pattern) : Prop :=
  Forall (λ t, ∀ k, q_max t = Some k → (q_min t ≤ k)%nat) p.

(** The texts a pattern stands for: one run of code units for each term,
    each code unit matched by the atom of the term, as many as the
    quantifier allows. *)
Definition repeats (t : Term) (m : JsString) : Prop :=
  Forall (λ ch, CharacterSetMatcher (atom t) ch = true) m ∧
  (q_min t ≤ length m)%nat ∧ ∀ k, q_max t = Some k → (length m ≤ k)%nat.

Fixpoint generates (p : Pattern) (m : JsString) : Prop :=
  match p with
  | [] => m = []
  | t :: p' => ∃ m1 m2, m = (m1 ++ m2)%list ∧ repeats t m1 ∧ generates p' m2
  end.

(** [p] has a match in [S] that starts at index [i] or later. *)
Definition occursFrom (p : Pattern) (S : JsString) (i : nat) : Prop :=
  ∃ j, (i ≤ j ≤ length S)%nat ∧ is_Some (Matcher p Some (drop j S)).

(** The patterns are at rest: every [lastIndex] is 0. *)
Definition atRest (array : list RegExp) : Prop :=
  Forall (λ R, lastIndex R = 0%nat) array.
End Regex.

(** ** The filter *)

Module ContentFilter.
Import Regex.

(** [\s*[:=]\s*\S+], the tail of the first four patterns. *)
Definition assigned : Pattern :=
  [star ClassEscape_s; once (CharacterClass [(":", ":"); ("=", "=")]%char);
   star ClassEscape_s; plus ClassEscape_S].

(** The sources of [SENSITIVE_PATTERNS], in the order of the array. *)
Definition sources : list Pattern :=
  [ (literal "password" ++ assigned)%list;
    (literal "api" ++ [zeroOrOne (CharacterClass [("_", "_"); ("-", "-")]%char)]
       ++ literal "key" ++ assigned)%list;
    (literal "secret" ++ assigned)%list;
    (literal "token" ++ assigned)%list;
    (literal "bearer"
       ++ [plus ClassEscape_s;
           plus (CharacterClass [("a", "z"); ("A", "Z"); ("0", "9"); (".", ".");
                                 ("_", "_"); ("-", "-")]%char)])%list;
    (literal "sk-"
       ++ [atLeast 20 (CharacterClass [("a", "z"); ("A", "Z"); ("0", "9")]%char)])%list;
    (literal "AIza"
       ++ [exactly 35 (CharacterClass [("a", "z"); ("A", "Z"); ("0", "9");
                                       ("_", "_"); ("-", "-")]%char)])%list ].

(** What the module holds besides its functions: the seven [RegExp] objects,
    each with its [lastIndex], and what was written with [console.warn]. *)
Record Realm := {
  SENSITIVE_PATTERNS : list RegExp;
  console : list string;
}.

Definition with_patterns (ps : list RegExp) (realm : Realm) : Realm :=
  {| SENSITIVE_PATTERNS := ps; console := console realm |}.

Definition console_warn (line : string) (realm : Realm) : Realm :=
  {| SENSITIVE_PATTERNS := SENSITIVE_PATTERNS realm;
     console := (console realm ++ [line])%list |}.

(** The [RegExp] object a literal evaluates to, and the module when it has
    just been loaded. *)
Definition RegExpLiteral (p : Pattern) : RegExp :=
  {| source := p; lastIndex := 0 |}.

Definition loaded : Realm :=
  {| SENSITIVE_PATTERNS := RegExpLiteral <$> sources; console := [] |}.

(** [array.some(pattern => pattern.test(text))]: the elements are tested in
    order, up to the first for which [test] returns true. *)
Fixpoint some_test (array : list RegExp) (text : JsString) : bool * list RegExp :=
  match array with
  | [] => (false, [])
  | pattern :: rest =>
      let '(found, pattern) := test pattern text in
      if found then (true, pattern :: rest)
      else let '(found, rest) := some_test rest text in (found, pattern :: rest)
  end.

Definition containsSensitiveInfo (text : JsString) (realm : Realm) : bool * Realm :=
  let '(found, ps) := some_test (SENSITIVE_PATTERNS realm) text in
  (found, with_patterns ps realm).

(** The [for ... of] loop of [redactSensitiveInfo]. *)
Fixpoint forPatterns (array : list RegExp) (redacted : JsString)
    : JsString * list RegExp :=
  match array with
  | [] => (redacted, [])
  | pattern :: rest =>
      let '(redacted, pattern) := replace pattern (units "[REDACTED]") redacted in
      let '(redacted, rest) := forPatterns rest redacted in
      (redacted, pattern :: rest)
  end.

Definition redactSensitiveInfo (text : JsString) (realm : Realm) : JsString * Realm :=
  let '(redacted, ps) := forPatterns (SENSITIVE_PATTERNS realm) text in
  (redacted, with_patterns ps realm).

(** The three options, each of which may be left out, as may the options
    altogether. *)
Record Options := {
  blockSensitiveInput : option bool;
  blockSensitiveOutput : option bool;
  redactInsteadOfBlock : option bool;
}.

Section Interceptor.
Context {Parts Value Others GeminiEventType Unknown Thrown : Type}.
Context `{!EqDecision GeminiEventType}.
(** [GeminiEventType.Content], and [JSON.stringify] on a message that is not
    a string. *)
Context (Content : GeminiEventType) (JSON_stringify : Parts → JsString).

(** A message is a string, or parts; the [value] of an event is a string, or
    something else. *)
Inductive PartListUnion :=
  | StringMessage (s : JsString)
  | PartsMessage (parts : Parts).

Inductive EventValue :=
  | StringValue (s : JsString)
  | OtherValue (v : Value).

Record ServerGeminiStreamEvent := {
  type : GeminiEventType;
  value : EventValue;
  others : Others;
}.

Definition blockReasonText : string :=
  "Your message contains sensitive information (passwords, API keys, etc.). Please remove it and try again.".

(** [messageText], the text [onInput] checks: the message itself when it
    is a string. *)
Definition messageText (message : PartListUnion) : JsString :=
  match message with
  | StringMessage s => s
  | PartsMessage parts => JSON_stringify parts
  end.

(** The handler [onInput] of the registration, with the realm threaded
    through. *)
Definition onInput (options : option Options) (input : InputData PartListUnion)
    (realm : Realm)
    : option (InputInterceptorResult PartListUnion Unknown) * Realm :=
  let blockSensitiveInput := default true (options ≫= blockSensitiveInput) in
  let redactInsteadOfBlock := default false (options ≫= redactInsteadOfBlock) in
  let messageText := messageText (message input) in
  let '(sensitive, realm) := containsSensitiveInfo messageText realm in
  if negb sensitive then (None, realm)
  else if negb blockSensitiveInput then (None, realm)
  else
    match redactInsteadOfBlock, message input with
    | true, StringMessage s =>
        let '(redactedMessage, realm) := redactSensitiveInfo s realm in
        let realm :=
          console_warn "[Content Filter] Redacted sensitive information from input"
            realm in
        (Some {| in_message := Some (StringMessage redactedMessage);
                 in_blocked := None; blockReason := None; in_metadata := None |},
         realm)
    | _, _ =>
        let realm :=
          console_warn
            "[Content Filter] Blocked input containing sensitive information"
            realm in
        (Some {| in_message := None; in_blocked := Some true;
                 blockReason := Some blockReasonText; in_metadata := None |},
         realm)
    end.

(** The handler [onOutput]. *)
Definition onOutput (options : option Options)
    (output : OutputData ServerGeminiStreamEvent) (realm : Realm)
    : option (OutputInterceptorResult ServerGeminiStreamEvent Unknown) * Realm :=
  let blockSensitiveOutput := default false (options ≫= blockSensitiveOutput) in
  let redactInsteadOfBlock := default false (options ≫= redactInsteadOfBlock) in
  if negb blockSensitiveOutput then (None, realm)
  else if negb (bool_decide (type (event output) = Content)) then (None, realm)
  else
    match value (event output) with
    | OtherValue _ => (None, realm)
    | StringValue content =>
        let '(sensitive, realm) := containsSensitiveInfo content realm in
        if negb sensitive then (None, realm)
        else if redactInsteadOfBlock then
          let '(redactedContent, realm) := redactSensitiveInfo content realm in
          let realm :=
            console_warn
              "[Content Filter] Redacted sensitive information from output"
              realm in
          (Some {| out_event :=
                     Some {| type := type (event output);
                             value := StringValue redactedContent;
                             others := others (event output) |};
                   out_blocked := None; out_metadata := None |},
           realm)
        else
          let realm :=
            console_warn
              "[Content Filter] Blocked output containing sensitive information"
              realm in
          (Some {| out_event := None; out_blocked := Some true;
                   out_metadata := None |},
           realm)
    end.

(** The registration [createContentFilterInterceptor(options)] returns.
    Its handlers close over the patterns of the module, which the world of
    the manager does not hold: the registration is given for the realm in
    which its handlers are called, and answers as the handlers of the source
    do there.  The realm a call leaves is the second component of [onInput]
    and [onOutput].  The fields are, in this order: [id], [name],
    [description], [onInput], [onOutput], [enabled] (left out) and
    [priority]. *)
Definition createContentFilterInterceptor (options : option Options)
    (realm : Realm)
    : InterceptorConfig PartListUnion ServerGeminiStreamEvent Unknown Thrown :=
  Build_InterceptorConfig
    "content-filter-interceptor"
    "Content Filter Interceptor"
    (Some "Filters or redacts sensitive information from messages")
    (Some (λ input _,
       {| writes := []; calls := [];
          settled := Normal (onInput options input realm).1 |}))
    (Some (λ output _,
       {| writes := []; calls := [];
          settled := Normal (onOutput options output realm).1 |}))
    None
    (Some 100%num).
End Interceptor.

Arguments PartListUnion : clear implicits.
Arguments EventValue : clear implicits.
Arguments ServerGeminiStreamEvent : clear implicits.
End ContentFilter.

(** ** A scenario of the filter in a manager

    Parts, values that are not strings, the other fields of an event,
    metadata values and thrown values are strings here. *)

Module FilterScenario.
Definition Message := ContentFilter.PartListUnion string.
Definition Event := ContentFilter.ServerGeminiStreamEvent string string string.
Definition Config := InterceptorConfig Message Event string string.
Definition State := World Message Event string string.

(** [createContentFilterInterceptor()], when the module has just been
    loaded. *)
Definition contentFilter : Config :=
  ContentFilter.createContentFilterInterceptor "content" Regex.units None
    ContentFilter.loaded.

(** A handler of priority 1 that returns the message it is given. *)
Definition echo : Config :=
  {| id := "echo"; name := "Echo"; description := None;
     onInput := Some (λ input _,
       {| writes := []; calls := [];
          settled := Normal (Some {| in_message := Some (message input);
                                     in_blocked := None; blockReason := None;
                                     in_metadata := None |}) |});
     onOutput := None; enabled := None; priority := Some 1%num |}.

(** [new InterceptorManager('test-session')], and the manager with [echo]
    and then the filter registered. *)
Definition fresh : State :=
  {| interceptors := JsMap.empty; this_sessionId := "test-session";
     logged := []; clock := λ n, Z.of_nat n; dates := 0%nat;
     arrays := []; spied := [] |}.

Definition filtered : State :=
  (register contentFilter (register echo fresh).2).2.
End FilterScenario.

(** * The logging interceptor of the examples

    [examples/interceptors/logging-interceptor.ts].  Its handlers write to
    the console and return nothing.  A call of [console.log] is recorded
    with its arguments.  [toISOString] on the date of the context and
    [JSON.stringify(value, null, 2)] are parameters, as are the types of
    events named in the [switch]. *)

Module LoggingInterceptor.
Import ContentFilter.

Section Interceptor.
Context {Parts Value Others GeminiEventType Unknown Thrown : Type}.
Context `{!EqDecision GeminiEventType}.
Context (Content Thought ToolCallRequest ToolCallResponse Error Finished
           : GeminiEventType).
Context (toISOString : Z → string).
Context (JSON_stringify_message : Parts → Regex.JsString).
Context (JSON_stringify_event
           : ServerGeminiStreamEvent Value Others GeminiEventType → string).
Local Abbreviation PartListUnion := (PartListUnion Parts).
Local Abbreviation ServerGeminiStreamEvent :=
  (ServerGeminiStreamEvent Value Others GeminiEventType).

(** An argument of [console.log]. *)
Inductive Printed :=
  | PString (s : string)
  | PText (s : Regex.JsString)
  | PBoolean (b : bool)
  | PEventType (t : GeminiEventType)
  | PValue (v : EventValue Value).

(** [c.repeat(n)] *)
Fixpoint repeat (c : string) (n : nat) : string :=
  match n with
  | O => ""
  | S n' => c +:+ repeat c n'
  end.

Definition newline : string := String (Ascii.ascii_of_nat 10) "".

(** [x || 'unknown'] on an optional string: the empty string is falsy. *)
Definition orUnknown (x : option string) : string :=
  match x with
  | Some s => if decide (s = "") then "unknown" else s
  | None => "unknown"
  end.

(** The handler [onInput], with the console threaded through. *)
Definition onInput (input : InputData PartListUnion)
    (context : InterceptorContext Unknown) (console : list (list Printed))
    : option (InputInterceptorResult PartListUnion Unknown)
      * list (list Printed) :=
  let timestamp := toISOString (timestamp context) in
  let message :=
    match message input with
    | StringMessage s => s
    | PartsMessage parts => JSON_stringify_message parts
    end in
  (None,
   (console ++
    [ [PString (newline +:+ repeat "=" 80)];
      [PString ("[" +:+ timestamp +:+ "] USER INPUT")];
      [PString "Session:"; PString (sessionId context)];
      [PString "Model:"; PString (orUnknown (model context))];
      [PString "Is Retry:"; PBoolean (default false (isRetry input))];
      [PString (repeat "-" 80)];
      [PText message];
      [PString (repeat "=" 80 +:+ newline)] ])%list).

(** The [switch] of [onOutput]: the first case the type of the event is
    equal to. *)
Definition eventLine (event : ServerGeminiStreamEvent) : list Printed :=
  if decide (type event = Content) then
    [PString "Content:"; PValue (value event)]
  else if decide (type event = Thought) then
    [PString "Thought:"; PValue (value event)]
  else if decide (type event = ToolCallRequest) then
    [PString "Tool Call Request:"; PValue (value event)]
  else if decide (type event = ToolCallResponse) then
    [PString "Tool Call Response:"; PValue (value event)]
  else if decide (type event = Error) then
    [PString "Error:"; PValue (value event)]
  else if decide (type event = Finished) then
    [PString "Finished:"; PValue (value event)]
  else
    [PString "Event:"; PString (JSON_stringify_event event)].

(** The handler [onOutput]. *)
Definition onOutput (output : OutputData ServerGeminiStreamEvent)
    (context : InterceptorContext Unknown) (console : list (list Printed))
    : option (OutputInterceptorResult ServerGeminiStreamEvent Unknown)
      * list (list Printed) :=
  let timestamp := toISOString (timestamp context) in
  let event := event output in
  (None,
   (console ++
    [ [PString (newline +:+ repeat "=" 80)];
      [PString ("[" +:+ timestamp +:+ "] AGENT OUTPUT")];
      [PString "Session:"; PString (sessionId context)];
      [PString "Model:"; PString (orUnknown (model context))];
      [PString "Event Type:"; PEventType (type event)];
      [PString (repeat "-" 80)];
      eventLine event;
      [PString (repeat "=" 80 +:+ newline)] ])%list).

(** The registration [createLoggingInterceptor()] returns.  What its
    handlers return does not depend on the console; what they write is the
    second component of [onInput] and [onOutput].  The fields are, in this
    order: [id], [name], [description], [onInput], [onOutput], [enabled]
    (left out) and [priority]. *)
Definition createLoggingInterceptor
    : InterceptorConfig PartListUnion ServerGeminiStreamEvent Unknown Thrown :=
  Build_InterceptorConfig
    "logging-interceptor"
    "Logging Interceptor"
    (Some "Logs all input and output for debugging purposes")
    (Some (λ input context,
       {| writes := []; calls := [];
          settled := Normal (onInput input context []).1 |}))
    (Some (λ output context,
       {| writes := []; calls := [];
          settled := Normal (onOutput output context []).1 |}))
    None
    (Some 0%num).
End Interceptor.
End LoggingInterceptor.

(** ** A scenario of the two examples in one manager *)

Module LoggerScenario.
(** [createLoggingInterceptor()]; every date is printed alike here. *)
Definition logger : FilterScenario.Config :=
  LoggingInterceptor.createLoggingInterceptor "content" "thought"
    "tool_call_request" "tool_call_response" "error" "finished"
    (λ _, "2026-01-01T00:00:00.000Z") Regex.units (λ _, "{}").

(** [createContentFilterInterceptor({ redactInsteadOfBlock: true })], when
    the module has just been loaded. *)
Definition redacting : FilterScenario.Config :=
  ContentFilter.createContentFilterInterceptor "content" Regex.units
    (Some {| ContentFilter.blockSensitiveInput := None;
             ContentFilter.blockSensitiveOutput := None;
             ContentFilter.redactInsteadOfBlock := Some true |})
    ContentFilter.loaded.

(** The logging interceptor is registered first. *)
Definition logging : FilterScenario.State :=
  (register redacting (register logger FilterScenario.fresh).2).2.
End LoggerScenario.

(** * Properties *)

(** ** Numbers *)

Section NumberFacts.
Implicit Types (a b c : Number.t).

Lemma Number_positive_minus a b :
  Number.positive (b - a)%num = true ↔ (a < b)%num.
Proof.
  destruct a as [| | |p], b as [| | |q]; simpl; try done.
  rewrite bool_decide_eq_true. unfold Qlt. simpl. lia.
Qed.

Lemma Number_lt_trans a b c : (a < b)%num → (b < c)%num → (a < c)%num.
Proof.
  destruct a as [| | |p], b as [| | |q], c as [| | |r]; simpl; try done.
  apply Qlt_trans.
Qed.



Lemma Number_lt_asym a b : (a < b)%num → ¬ (b < a)%num.
Proof.
  destruct a as [| | |p], b as [| | |q]; simpl; try done; try tauto.
  intros Hpq Hqp. by destruct (Qlt_irrefl p (Qlt_trans _ _ _ Hpq Hqp)).
Qed.




End NumberFacts.

(** ** The sort *)

Section ArraySortFacts.
Context {A : Type} (key : A → Number.t).
Local Abbreviation descending := (λ a b : A, (key b - key a)%num).

(** The comparator [(a, b) => key(b) - key(a)] moves [x] behind [y] when
    the key of [x] is below that of [y], and only then. *)
Lemma Array_insert_cons (x y : A) (l : list A) :
  Array_insert descending x (y :: l)
  = if decide (key x < key y)%num then y :: Array_insert descending x l
    else x :: y :: l.
Proof.
  simpl. unfold SortCompare.
  assert (Number.positive
            match (key y - key x)%num with Number.NaN => 0%num | v => v end
          = Number.positive (key y - key x)%num) as ->
    by (by destruct (key y - key x)%num).
  destruct (decide (key x < key y)%num) as [Hlt|Hlt];
    rewrite <-Number_positive_minus in Hlt.
  - by rewrite Hlt.
  - by destruct (Number.positive _).
Qed.

Lemma Array_insert_perm (x : A) (l : list A) :
  Array_insert descending x l ≡ₚ x :: l.
Proof.
  induction l as [|y l IH]; [done|].
  rewrite Array_insert_cons. case_decide; [|done].
  rewrite IH. apply perm_swap.
Qed.

Lemma Array_sort_perm (l : list A) : Array_sort descending l ≡ₚ l.
Proof.
  induction l as [|x l IH]; simpl; [done|].
  by rewrite Array_insert_perm, IH.
Qed.






Lemma Array_sort_nil_inv (l : list A) : Array_sort descending l = [] → l = [].
Proof.
  intros H. apply Permutation_nil_r. by rewrite <-H, Array_sort_perm.
Qed.
End ArraySortFacts.

(** ** The [Map] *)

Section JsMapFacts.
Context {V : Type}.
Implicit Types (m : JsMap.t V) (k : string) (v : V).

Lemma JsMap_get_set k v m : JsMap.get k (JsMap.set k v m) = Some v.
Proof.
  induction m as [|[k' v'] m IH]; simpl.
  - by rewrite decide_True.
  - destruct (decide (k = k')) as [->|Hne]; simpl.
    + by rewrite decide_True.
    + by rewrite decide_False.
Qed.

Lemma JsMap_keys_set k v m :
  JsMap.keys (JsMap.set k v m)
  = if JsMap.has k m then JsMap.keys m else (JsMap.keys m ++ [k])%list.
Proof.
  unfold JsMap.has, JsMap.keys.
  induction m as [|[k' v'] m IH]; csimpl; [done|].
  destruct (decide (k = k')) as [->|Hne]; csimpl; [done|].
  rewrite IH. by destruct (JsMap.get k m).
Qed.
End JsMapFacts.

(** ** Steps of the manager *)

Section Steps.
Context {PartListUnion ServerGeminiStreamEvent Unknown Thrown : Type}.
Local Abbreviation Config :=
  (InterceptorConfig PartListUnion ServerGeminiStreamEvent Unknown Thrown).
Local Abbreviation State :=
  (World PartListUnion ServerGeminiStreamEvent Unknown Thrown).
Local Abbreviation Call :=
  (HandlerCall PartListUnion ServerGeminiStreamEvent Unknown Thrown).
Local Abbreviation Object :=
  (gmap string (JsValue PartListUnion ServerGeminiStreamEvent)).
Implicit Types (w : State) (i : Config) (c : Call).

Lemma steady_refl w : steady w w.
Proof. repeat split. exists []. by rewrite app_nil_r. Qed.

Lemma steady_trans w1 w2 w3 : steady w1 w2 → steady w2 w3 → steady w1 w3.
Proof.
  intros (?&?&?&?&?&l1&?) (?&?&?&?&?&l2&?).
  repeat split; try congruence.
  exists (l1 ++ l2)%list. rewrite app_assoc. congruence.
Qed.

Lemma debug_steady line w : steady w (debugLogger_debug line w).2.
Proof. repeat split. by eexists. Qed.

Lemma register_run config w :
  ∃ w', register config w = (Normal (), w') ∧
        interceptors w' = JsMap.set (id config) config (interceptors w) ∧
        steady w w'.
Proof.
  unfold register, mbind, Eff_bind, gets; simpl.
  destruct (JsMap.has (id config) (interceptors w)); simpl;
    (eexists; split; [reflexivity|split; [reflexivity|]]).
  - repeat split. simpl. eexists. by rewrite <-app_assoc.
  - repeat split. simpl. by eexists.
Qed.

Lemma unregister_run k w :
  ∃ w', unregister k w = (Normal (JsMap.has k (interceptors w)), w') ∧
        interceptors w' = JsMap.remove k (interceptors w) ∧
        steady w w'.
Proof.
  unfold unregister, mbind, Eff_bind, gets; simpl.
  destruct (JsMap.has k (interceptors w)); simpl;
    (eexists; split; [reflexivity|split; [reflexivity|]]).
  - repeat split. simpl. by eexists.
  - repeat split. simpl. exists []. by rewrite app_nil_r.
Qed.

Lemma clear_run w :
  ∃ w', clear w = (Normal (), w') ∧ interceptors w' = JsMap.empty ∧ steady w w'.
Proof.
  eexists; split; [reflexivity|split; [reflexivity|]].
  repeat split. simpl. by eexists.
Qed.

Lemma get_run k w : get k w = (Normal (JsMap.get k (interceptors w)), w).
Proof. reflexivity. Qed.

Lemma getAll_run w :
  getAll w = (Normal (length (arrays w)),
              with_arrays (arrays w ++ [JsMap.values (interceptors w)]) w).
Proof. reflexivity. Qed.

Lemma perform_run (call : ManagerCall Config) w :
  ∃ w', perform call w = (Normal (), w') ∧
        interceptors w' = effect (interceptors w) call ∧ steady w w'.
Proof.
  destruct call as [config|k|]; simpl.
  - apply register_run.
  - destruct (unregister_run k w) as (w' & Hrun & ? & ?).
    exists w'. unfold mbind, Eff_bind. by rewrite Hrun.
  - apply clear_run.
Qed.

Lemma perform_all_run (cs : list (ManagerCall Config)) w :
  ∃ w', perform_all cs w = (Normal (), w') ∧
        interceptors w' = foldl effect (interceptors w) cs ∧ steady w w'.
Proof.
  revert w. induction cs as [|call cs IH]; intros w; simpl.
  - exists w. split; [done|]. split; [done|]. apply steady_refl.
  - destruct (perform_run call w) as (w1 & Hrun & Hmap & Hsteady).
    destruct (IH w1) as (w2 & Hrun2 & Hmap2 & Hsteady2).
    exists w2. unfold mbind, Eff_bind. rewrite Hrun, Hrun2, Hmap2, Hmap.
    split; [done|]. split; [done|]. by eapply steady_trans.
Qed.

(** Calling a handler never throws by itself: the handler's own completion
    comes out, whatever it is. *)
Lemma await_run {R} (spy : Call) (run : Invocation Thrown Unknown Config R) w :
  ∃ w', await spy run w = (settled run, w') ∧
        interceptors w' = foldl effect (interceptors w) (calls run) ∧
        this_sessionId w' = this_sessionId w ∧ clock w' = clock w ∧
        dates w' = dates w ∧ arrays w' = arrays w ∧
        spied w' = (spied w ++ [spy])%list ∧
        ∃ lines, logged w' = (logged w ++ lines)%list.
Proof.
  unfold await, mbind, Eff_bind, modify, settle.
  destruct (perform_all_run (calls run) (with_spied (spied w ++ [spy]) w))
    as (w' & Hrun & Hmap & Hsid & Hclock & Hdates & Harrays & Hspied & Hlog).
  exists w'. rewrite Hrun. by destruct (settled run).
Qed.
End Steps.

(** ** The loops *)

Section Loops.
Context {PartListUnion ServerGeminiStreamEvent Unknown Thrown : Type}.
Local Abbreviation Config :=
  (InterceptorConfig PartListUnion ServerGeminiStreamEvent Unknown Thrown).
Local Abbreviation State :=
  (World PartListUnion ServerGeminiStreamEvent Unknown Thrown).
Local Abbreviation Call :=
  (HandlerCall PartListUnion ServerGeminiStreamEvent Unknown Thrown).
Local Abbreviation Object :=
  (gmap string (JsValue PartListUnion ServerGeminiStreamEvent)).
Implicit Types (w : State) (i : Config) (c : Call) (new : list Call).

Lemma after_nil w w' :
  steady w w' → interceptors w' = interceptors w → after w [] w'.
Proof.
  intros (?&?&?&?&?&lines&?) ?. unfold after. rewrite app_nil_r.
  repeat split; try done. exists lines. split; [done|].
  intros c e Hc. by apply elem_of_nil in Hc.
Qed.

Lemma after_cons w w1 w' c new :
  spied w1 = (spied w ++ [c])%list →
  interceptors w1 = foldl effect (interceptors w) (performed c) →
  this_sessionId w1 = this_sessionId w → clock w1 = clock w →
  dates w1 = dates w → arrays w1 = arrays w →
  (∃ lines1, logged w1 = (logged w ++ lines1)%list ∧
             ∀ e, thrown c = Some e → errorLine c e ∈ lines1) →
  after w1 new w' → after w (c :: new) w'.
Proof.
  intros Hs Hm ? ? ? ? (lines1 & Hl & He)
    (Hs' & Hm' & ? & ? & ? & ? & lines & Hl' & He').
  unfold after. rewrite Hs', Hs, Hm', Hm, <-app_assoc. csimpl.
  rewrite foldl_app. repeat split; try congruence.
  exists (lines1 ++ lines)%list. rewrite Hl', Hl, <-app_assoc. split; [done|].
  intros c' e [->|Hin]%elem_of_cons Hthrown; apply elem_of_app; eauto.
Qed.

Lemma after_same w : after w [] w.
Proof. apply after_nil; [apply steady_refl|done]. Qed.

(** The loops never throw, and they run as [InputRun] and [OutputRun] say. *)
Lemma forInputInterceptors_run context inputData l cur md w :
  ∃ res w' new,
    forInputInterceptors context inputData l cur md w = (Normal res, w') ∧
    InputRun context inputData l cur md new res ∧ after w new w'.
Proof.
  revert context inputData cur md w.
  induction l as [|i rest IH]; intros context inputData cur md w.
  { eexists _, w, []. split; [reflexivity|]. split; [constructor|].
    apply after_same. }
  simpl. destruct (onInput i) as [h|] eqn:Hh.
  2:{ destruct (IH context inputData cur md w)
        as (res & w' & new & Hrun & Htrace & Hafter).
      exists res, w', new. split; [done|]. split; [|done].
      by apply InputRun_skip. }
  set (c := inputCall context inputData i h cur md).
  unfold mbind, Eff_bind, try_catch, debugLogger_debug, modify. simpl.
  match goal with |- context [await ?spy ?run ?w0] =>
    destruct (await_run spy run w0)
      as (w1 & Hawait & Hmap & Hsid & Hclock & Hdates & Harrays & Hspied
          & lines1 & Hlog); rewrite Hawait
  end.
  simpl in Hmap, Hsid, Hclock, Hdates, Harrays, Hspied, Hlog.
  rewrite <-app_assoc in Hlog.
  fold (inputCall context inputData i h cur md) in Hspied. fold c in Hspied.
  assert (∀ ctx dat m md' w2 res w' new,
            forInputInterceptors ctx dat rest m md' w2 = (Normal res, w') →
            InputRun ctx dat rest m md' new res → after w2 new w' →
            blocks c = false →
            contextAfter context [c] = ctx → inputAfter inputData [c] = dat →
            messageAfter cur [c] = m → metadataAfter md [c] = md' →
            (∃ lines, logged w2 = (logged w ++ lines)%list ∧
                      ∀ e, thrown c = Some e → errorLine c e ∈ lines) →
            interceptors w2 = interceptors w1 ∧
            this_sessionId w2 = this_sessionId w1 ∧ clock w2 = clock w1 ∧
            dates w2 = dates w1 ∧ arrays w2 = arrays w1 ∧
            spied w2 = spied w1 →
            ∃ res w' new,
              forInputInterceptors ctx dat rest m md' w2 = (Normal res, w') ∧
              InputRun context inputData (i :: rest) cur md new res ∧
              after w new w') as Hnext.
  { intros ctx dat m md' w2 res w' new Hrun Htrace Hafter Hb <- <- <- <- Hlines
      (Hmap2 & Hsid2 & Hclock2 & Hdates2 & Harrays2 & Hspied2).
    exists res, w', (c :: new). split; [done|].
    split; [by apply InputRun_next|].
    eapply after_cons; [..|exact Hafter]; try done; try congruence.
    by rewrite Hmap2, Hmap. }
  destruct (settled (h (with_message cur inputData) (with_metadata md context)))
    as [[result|]|e] eqn:Hsettled; simpl.
  - assert (blocks c = truthy (in_blocked result)) as Hb
      by (simpl; by rewrite Hsettled).
    assert (thrown c = None) as Hnot by (simpl; by rewrite Hsettled).
    destruct (truthy (in_blocked result)) eqn:Hblocked; simpl.
    + eexists _, _, [c]. split; [reflexivity|].
      assert (reason c = blockReason result) as <-
        by (simpl; by rewrite Hsettled).
      split; [by apply InputRun_blocked|].
      eapply after_cons; [..|apply after_same]; try done.
      eexists. split; [simpl; by rewrite Hlog, <-!app_assoc|].
      intros ? ?; congruence.
    + destruct (in_message result) as [m|] eqn:Hm; simpl.
      * match goal with
        |- context [forInputInterceptors ?ctx ?dat rest ?m' ?md' ?w2] =>
          destruct (IH ctx dat m' md' w2)
            as (res & w' & new & Hrun & Htrace & Hafter);
          apply (Hnext ctx dat m' md' w2 res w' new); try done
        end.
        -- simpl. by rewrite Hsettled, Hm.
        -- simpl. by rewrite Hsettled.
        -- eexists. split; [simpl; by rewrite Hlog, <-!app_assoc|].
           intros ? ?; congruence.
      * match goal with
        |- context [forInputInterceptors ?ctx ?dat rest ?m' ?md' ?w2] =>
          destruct (IH ctx dat m' md' w2)
            as (res & w' & new & Hrun & Htrace & Hafter);
          apply (Hnext ctx dat m' md' w2 res w' new); try done
        end.
        -- simpl. by rewrite Hsettled, Hm.
        -- simpl. by rewrite Hsettled.
        -- eexists. split; [done|]. intros ? ?; congruence.
  - match goal with
    |- context [forInputInterceptors ?ctx ?dat rest ?m' ?md' ?w2] =>
      destruct (IH ctx dat m' md' w2)
        as (res & w' & new & Hrun & Htrace & Hafter);
      apply (Hnext ctx dat m' md' w2 res w' new); try done
    end.
    + simpl. by rewrite Hsettled.
    + simpl. by rewrite Hsettled.
    + simpl. by rewrite Hsettled.
    + eexists. split; [done|]. simpl. rewrite Hsettled. intros ? ?; congruence.
  - unfold debugLogger_error, modify. simpl.
    match goal with
    |- context [forInputInterceptors ?ctx ?dat rest ?m' ?md' ?w2] =>
      destruct (IH ctx dat m' md' w2)
        as (res & w' & new & Hrun & Htrace & Hafter);
      apply (Hnext ctx dat m' md' w2 res w' new); try done
    end.
    + simpl. by rewrite Hsettled.
    + simpl. by rewrite Hsettled.
    + simpl. by rewrite Hsettled.
    + eexists. split; [simpl; by rewrite Hlog, <-!app_assoc|].
      intros e'. simpl. rewrite Hsettled. intros [= <-].
      apply elem_of_cons. right. apply elem_of_app. right.
      by apply list_elem_of_singleton.
Qed.

Lemma forOutputInterceptors_run context outputData l cur md w :
  ∃ res w' new,
    forOutputInterceptors context outputData l cur md w = (Normal res, w') ∧
    OutputRun context outputData l cur md new res ∧ after w new w'.
Proof.
  revert context outputData cur md w.
  induction l as [|i rest IH]; intros context outputData cur md w.
  { eexists _, w, []. split; [reflexivity|]. split; [constructor|].
    apply after_same. }
  simpl. destruct (onOutput i) as [h|] eqn:Hh.
  2:{ destruct (IH context outputData cur md w)
        as (res & w' & new & Hrun & Htrace & Hafter).
      exists res, w', new. split; [done|]. split; [|done].
      by apply OutputRun_skip. }
  set (c := outputCall context outputData i h cur md).
  unfold mbind, Eff_bind, try_catch, debugLogger_debug, modify. simpl.
  match goal with |- context [await ?spy ?run ?w0] =>
    destruct (await_run spy run w0)
      as (w1 & Hawait & Hmap & Hsid & Hclock & Hdates & Harrays & Hspied
          & lines1 & Hlog); rewrite Hawait
  end.
  simpl in Hmap, Hsid, Hclock, Hdates, Harrays, Hspied, Hlog.
  rewrite <-app_assoc in Hlog.
  fold (outputCall context outputData i h cur md) in Hspied. fold c in Hspied.
  assert (∀ ctx dat m md' w2 res w' new,
            forOutputInterceptors ctx dat rest m md' w2 = (Normal res, w') →
            OutputRun ctx dat rest m md' new res → after w2 new w' →
            blocks c = false →
            contextAfter context [c] = ctx → with_event cur outputData = dat →
            eventAfter cur [c] = m → metadataAfter md [c] = md' →
            (∃ lines, logged w2 = (logged w ++ lines)%list ∧
                      ∀ e, thrown c = Some e → errorLine c e ∈ lines) →
            interceptors w2 = interceptors w1 ∧
            this_sessionId w2 = this_sessionId w1 ∧ clock w2 = clock w1 ∧
            dates w2 = dates w1 ∧ arrays w2 = arrays w1 ∧
            spied w2 = spied w1 →
            ∃ res w' new,
              forOutputInterceptors ctx dat rest m md' w2 = (Normal res, w') ∧
              OutputRun context outputData (i :: rest) cur md new res ∧
              after w new w') as Hnext.
  { intros ctx dat m md' w2 res w' new Hrun Htrace Hafter Hb <- <- <- <- Hlines
      (Hmap2 & Hsid2 & Hclock2 & Hdates2 & Harrays2 & Hspied2).
    exists res, w', (c :: new). split; [done|].
    split; [by apply OutputRun_next|].
    eapply after_cons; [..|exact Hafter]; try done; try congruence.
    by rewrite Hmap2, Hmap. }
  destruct (settled (h (with_event cur outputData) (with_metadata md context)))
    as [[result|]|e] eqn:Hsettled; simpl.
  - assert (blocks c = truthy (out_blocked result)) as Hb
      by (simpl; by rewrite Hsettled).
    assert (thrown c = None) as Hnot by (simpl; by rewrite Hsettled).
    destruct (truthy (out_blocked result)) eqn:Hblocked; simpl.
    + eexists _, _, [c]. split; [reflexivity|].
      split; [by apply OutputRun_blocked|].
      eapply after_cons; [..|apply after_same]; try done.
      eexists. split; [simpl; by rewrite Hlog, <-!app_assoc|].
      intros ? ?; congruence.
    + destruct (out_event result) as [m|] eqn:Hm; simpl.
      * match goal with
        |- context [forOutputInterceptors ?ctx ?dat rest ?m' ?md' ?w2] =>
          destruct (IH ctx dat m' md' w2)
            as (res & w' & new & Hrun & Htrace & Hafter);
          apply (Hnext ctx dat m' md' w2 res w' new); try done
        end.
        -- simpl. by rewrite Hsettled, Hm.
        -- simpl. by rewrite Hsettled.
        -- eexists. split; [simpl; by rewrite Hlog, <-!app_assoc|].
           intros ? ?; congruence.
      * match goal with
        |- context [forOutputInterceptors ?ctx ?dat rest ?m' ?md' ?w2] =>
          destruct (IH ctx dat m' md' w2)
            as (res & w' & new & Hrun & Htrace & Hafter);
          apply (Hnext ctx dat m' md' w2 res w' new); try done
        end.
        -- simpl. by rewrite Hsettled, Hm.
        -- simpl. by rewrite Hsettled.
        -- eexists. split; [done|]. intros ? ?; congruence.
  - match goal with
    |- context [forOutputInterceptors ?ctx ?dat rest ?m' ?md' ?w2] =>
      destruct (IH ctx dat m' md' w2)
        as (res & w' & new & Hrun & Htrace & Hafter);
      apply (Hnext ctx dat m' md' w2 res w' new); try done
    end.
    + simpl. by rewrite Hsettled.
    + simpl. by rewrite Hsettled.
    + simpl. by rewrite Hsettled.
    + eexists. split; [done|]. simpl. rewrite Hsettled. intros ? ?; congruence.
  - unfold debugLogger_error, modify. simpl.
    match goal with
    |- context [forOutputInterceptors ?ctx ?dat rest ?m' ?md' ?w2] =>
      destruct (IH ctx dat m' md' w2)
        as (res & w' & new & Hrun & Htrace & Hafter);
      apply (Hnext ctx dat m' md' w2 res w' new); try done
    end.
    + simpl. by rewrite Hsettled.
    + simpl. by rewrite Hsettled.
    + simpl. by rewrite Hsettled.
    + eexists. split; [simpl; by rewrite Hlog, <-!app_assoc|].
      intros e'. simpl. rewrite Hsettled. intros [= <-].
      apply elem_of_cons. right. apply elem_of_app. right.
      by apply list_elem_of_singleton.
Qed.

End Loops.

(** ** The registry *)

Section Registry.
Context {PartListUnion ServerGeminiStreamEvent Unknown Thrown : Type}.
Local Abbreviation Config :=
  (InterceptorConfig PartListUnion ServerGeminiStreamEvent Unknown Thrown).
Local Abbreviation State :=
  (World PartListUnion ServerGeminiStreamEvent Unknown Thrown).

(** C7. [register(r)] never throws, and [get(r.id)] right after it returns
    [r], whether or not an entry with that id existed: the last value
    registered under an id wins.  Replacing an existing id does no more than
    emit one more debug line: the entry keeps its place in the [Map], and
    nothing but the registry and the log changes. *)
Theorem register_then_get (r : Config) (w : State) :
  ∃ w',
    register r w = (Normal (), w') ∧
    get (id r) w' = (Normal (Some r), w') ∧
    (∀ r2 : Config, id r2 = id r →
       ∃ w'', register r2 w' = (Normal (), w'') ∧
              get (id r) w'' = (Normal (Some r2), w'')) ∧
    logged w' =
      (logged w
       ++ (if JsMap.has (id r) (interceptors w)
           then [{| severity := sev_debug;
                    text := "[InterceptorManager] Replacing existing interceptor: "
                              +:+ id r;
                    detail := None |}]
           else [])
       ++ [{| severity := sev_debug;
              text := "[InterceptorManager] Registered interceptor: "
                        +:+ id r +:+ " (" +:+ name r +:+ ")";
              detail := None |}])%list ∧
    (JsMap.has (id r) (interceptors w) = true →
       JsMap.keys (interceptors w') = JsMap.keys (interceptors w)) ∧
    this_sessionId w' = this_sessionId w ∧ clock w' = clock w ∧
    dates w' = dates w ∧ arrays w' = arrays w ∧ spied w' = spied w.
Proof.
  destruct (register_run r w) as (w' & Hrun & Hmap & ? & ? & ? & ? & ? & _).
  exists w'. split; [done|].
  split; [by rewrite get_run, Hmap, JsMap_get_set|].
  split.
  { intros r2 Hid.
    destruct (register_run r2 w') as (w'' & Hrun2 & Hmap2 & _).
    exists w''. split; [done|].
    by rewrite get_run, Hmap2, <-Hid, JsMap_get_set. }
  split.
  { revert Hrun. unfold register, mbind, Eff_bind, gets; simpl.
    destruct (JsMap.has (id r) (interceptors w)); simpl;
      intros [= <-]; simpl; by rewrite <-?app_assoc. }
  split; [|done].
  intros Hhas. by rewrite Hmap, JsMap_keys_set, Hhas.
Qed.
End Registry.

(** ** What the relations of the loops say *)

Section Traces.
Context {PartListUnion ServerGeminiStreamEvent Unknown Thrown : Type}.
Local Abbreviation Config :=
  (InterceptorConfig PartListUnion ServerGeminiStreamEvent Unknown Thrown).
Local Abbreviation Call :=
  (HandlerCall PartListUnion ServerGeminiStreamEvent Unknown Thrown).
Local Abbreviation Object :=
  (gmap string (JsValue PartListUnion ServerGeminiStreamEvent)).
Implicit Types (i : Config) (c : Call) (new : list Call) (l : list Config).
Implicit Types (md : gmap string Unknown) (res : Object).

Lemma InputRun_callees context inputData l cur md new res :
  InputRun context inputData l cur md new res →
  Forall (λ i, is_Some (onInput i)) l →
  callee <$> new = take (length new) l.
Proof.
  induction 1 as [|context data i rest cur md new res Hnone _ _
                  |context data i h rest cur md Hh Hb
                  |context data i h rest cur md new res Hh Hb _ IH];
    intros Hall; [done|..].
  - apply Forall_cons_1 in Hall as [[h Hsome] _]. congruence.
  - done.
  - apply Forall_cons_1 in Hall as [_ Hrest]. csimpl. by rewrite IH.
Qed.

Lemma InputRun_args context inputData l cur md new res :
  InputRun context inputData l cur md new res →
  ∀ k c, new !! k = Some c →
    ∃ h, onInput (callee c) = Some h ∧
         c = inputCall (contextAfter context (take k new))
               (inputAfter inputData (take k new)) (callee c) h
               (messageAfter cur (take k new)) (metadataAfter md (take k new)).
Proof.
  induction 1 as [|context data i rest cur md new res Hnone _ IH
                  |context data i h rest cur md Hh Hb
                  |context data i h rest cur md new res Hh Hb _ IH];
    intros k c Hk; [done|by apply IH|..].
  - destruct k; [|done]. injection Hk as <-. by exists h.
  - destruct k as [|k]; [injection Hk as <-; by exists h|].
    apply IH in Hk as (h' & ? & ?). by exists h'.
Qed.



Lemma OutputRun_callees context outputData l cur md new res :
  OutputRun context outputData l cur md new res →
  Forall (λ i, is_Some (onOutput i)) l →
  callee <$> new = take (length new) l.
Proof.
  induction 1 as [|context data i rest cur md new res Hnone _ _
                  |context data i h rest cur md Hh Hb
                  |context data i h rest cur md new res Hh Hb _ IH];
    intros Hall; [done|..].
  - apply Forall_cons_1 in Hall as [[h Hsome] _]. congruence.
  - done.
  - apply Forall_cons_1 in Hall as [_ Hrest]. csimpl. by rewrite IH.
Qed.

Lemma OutputRun_args context outputData l cur md new res :
  OutputRun context outputData l cur md new res →
  ∀ k c, new !! k = Some c →
    ∃ h, onOutput (callee c) = Some h ∧
         c = outputCall (contextAfter context (take k new)) outputData
               (callee c) h
               (eventAfter cur (take k new)) (metadataAfter md (take k new)).
Proof.
  induction 1 as [|context data i rest cur md new res Hnone _ IH
                  |context data i h rest cur md Hh Hb
                  |context data i h rest cur md new res Hh Hb _ IH];
    intros k c Hk; [done|by apply IH|..].
  - destruct k; [|done]. injection Hk as <-. by exists h.
  - destruct k as [|k]; [injection Hk as <-; by exists h|].
    apply IH in Hk as (h' & ? & ?). by exists h'.
Qed.



(** The call at place [j] of a run is that of the handler at place [j] of
    the selection. *)
Lemma callee_lookup new l (j : nat) c :
  callee <$> new = take (length new) l → new !! j = Some c →
  l !! j = Some (callee c).
Proof.
  intros Hprefix Hj.
  assert ((callee <$> new) !! j = Some (callee c)) as Hc
    by (by rewrite list_lookup_fmap, Hj).
  rewrite Hprefix in Hc. by apply lookup_take_Some in Hc as [? _].
Qed.









(** The writes of a sequence of writes into the context are, for its
    [metadata], the writes into the metadata object. *)
Lemma metadata_written (context : InterceptorContext Unknown)
    (ws : list (Write Unknown)) :
  metadata (foldl write_context context ws)
  = foldl write_metadata (metadata context) ws.
Proof.
  revert context. induction ws as [|wr ws IH]; intros; [done|apply IH].
Qed.

(** The loops are functions of what they start from. *)
Lemma InputRun_functional context inputData l cur md new res new' res' :
  InputRun context inputData l cur md new res →
  InputRun context inputData l cur md new' res' →
  new = new' ∧ res = res'.
Proof.
  intros Htrace. revert new' res'.
  induction Htrace as [|context data i rest cur md new res Hnone _ IH
                       |context data i h rest cur md Hh Hb
                       |context data i h rest cur md new res Hh Hb _ IH];
    intros new' res' Htrace'; inversion Htrace'; simplify_eq;
    try done; try congruence; try (by apply IH).
  match goal with H : InputRun _ _ rest _ _ _ _ |- _ =>
    apply IH in H as [-> ->] end. done.
Qed.

Lemma OutputRun_functional context outputData l cur md new res new' res' :
  OutputRun context outputData l cur md new res →
  OutputRun context outputData l cur md new' res' →
  new = new' ∧ res = res'.
Proof.
  intros Htrace. revert new' res'.
  induction Htrace as [|context data i rest cur md new res Hnone _ IH
                       |context data i h rest cur md Hh Hb
                       |context data i h rest cur md new res Hh Hb _ IH];
    intros new' res' Htrace'; inversion Htrace'; simplify_eq;
    try done; try congruence; try (by apply IH).
  match goal with H : OutputRun _ _ rest _ _ _ _ |- _ =>
    apply IH in H as [-> ->] end. done.
Qed.


End Traces.

(** ** The two entry points *)

Section Runs.
Context {PartListUnion ServerGeminiStreamEvent Unknown Thrown : Type}.
Local Abbreviation Config :=
  (InterceptorConfig PartListUnion ServerGeminiStreamEvent Unknown Thrown).
Local Abbreviation State :=
  (World PartListUnion ServerGeminiStreamEvent Unknown Thrown).
Local Abbreviation Call :=
  (HandlerCall PartListUnion ServerGeminiStreamEvent Unknown Thrown).
Implicit Types (w : State) (i : Config) (c : Call) (new : list Call).

Lemma getSortedInputInterceptors_run w :
  getSortedInputInterceptors w = (Normal (inputSnapshot w), w).
Proof. reflexivity. Qed.

Lemma getSortedOutputInterceptors_run w :
  getSortedOutputInterceptors w = (Normal (outputSnapshot w), w).
Proof. reflexivity. Qed.

Lemma executeInputInterceptors_run message model isRetry w :
  ∃ res w' new,
    executeInputInterceptors message model isRetry w = (Normal res, w') ∧
    InputRun (contextOf w model) {| message := message; isRetry := isRetry |}
      (inputSnapshot w) message ∅ new res ∧
    after (started (inputSnapshot w) w) new w'.
Proof.
  unfold executeInputInterceptors, mbind, Eff_bind.
  rewrite getSortedInputInterceptors_run.
  destruct (inputSnapshot w) as [|i rest] eqn:Hsnap.
  - eexists _, w, []. split; [reflexivity|]. split; [constructor|].
    apply after_same.
  - cbn -[forInputInterceptors]. apply forInputInterceptors_run.
Qed.

Lemma executeOutputInterceptors_run event model w :
  ∃ res w' new,
    executeOutputInterceptors event model w = (Normal res, w') ∧
    OutputRun (contextOf w model) {| event := event |}
      (outputSnapshot w) event ∅ new res ∧
    after (started (outputSnapshot w) w) new w'.
Proof.
  unfold executeOutputInterceptors, mbind, Eff_bind.
  rewrite getSortedOutputInterceptors_run.
  destruct (outputSnapshot w) as [|i rest] eqn:Hsnap.
  - eexists _, w, []. split; [reflexivity|]. split; [constructor|].
    apply after_same.
  - cbn -[forOutputInterceptors]. apply forOutputInterceptors_run.
Qed.

Lemma inputSnapshot_handlers w :
  Forall (λ i, is_Some (onInput i)) (inputSnapshot w).
Proof.
  unfold inputSnapshot. rewrite (Array_sort_perm (λ i, default 0%num (priority i))).
  apply Forall_forall. intros i [[_ ?] _]%list_elem_of_filter. done.
Qed.

Lemma outputSnapshot_handlers w :
  Forall (λ i, is_Some (onOutput i)) (outputSnapshot w).
Proof.
  unfold outputSnapshot. rewrite (Array_sort_perm (λ i, default 0%num (priority i))).
  apply Forall_forall. intros i [[_ ?] _]%list_elem_of_filter. done.
Qed.
End Runs.

(** ** The pipelines *)

Section Pipelines.
Context {PartListUnion ServerGeminiStreamEvent Unknown Thrown : Type}.
Local Abbreviation Config :=
  (InterceptorConfig PartListUnion ServerGeminiStreamEvent Unknown Thrown).
Local Abbreviation State :=
  (World PartListUnion ServerGeminiStreamEvent Unknown Thrown).
Local Abbreviation Call :=
  (HandlerCall PartListUnion ServerGeminiStreamEvent Unknown Thrown).
Implicit Types (w : State) (i : Config) (c : Call) (new : list Call).

Lemma after_started (snapshot : list Config) w new w' :
  after (started snapshot w) new w' →
  spied w' = (spied w ++ new)%list ∧
  interceptors w' = foldl effect (interceptors w) (new ≫= performed) ∧
  this_sessionId w' = this_sessionId w ∧ clock w' = clock w ∧
  arrays w' = arrays w ∧
  dates w' = (dates w + if snapshot is [] then 0 else 1)%nat ∧
  ∃ lines, logged w' = (logged w ++ lines)%list ∧
           ∀ c e, c ∈ new → thrown c = Some e → errorLine c e ∈ lines.
Proof.
  intros (Hs & Hm & Hi & Hc & Hd & Ha & Hl).
  destruct snapshot; simpl in *; repeat split; try done; lia.
Qed.

(** The calls a run adds to the record are those of its loop. *)
Lemma input_calls message model isRetry w new :
  spied (executeInputInterceptors message model isRetry w).2
    = (spied w ++ new)%list →
  ∃ res,
    executeInputInterceptors message model isRetry w
      = (Normal res, (executeInputInterceptors message model isRetry w).2) ∧
    InputRun (contextOf w model) {| message := message; isRetry := isRetry |}
      (inputSnapshot w) message ∅ new res ∧
    after (started (inputSnapshot w) w) new
      (executeInputInterceptors message model isRetry w).2.
Proof.
  destruct (executeInputInterceptors_run message model isRetry w)
    as (res & w' & new' & Hrun & Htrace & Hafter).
  rewrite Hrun. simpl. intros Hspied. exists res.
  destruct (after_started _ _ _ _ Hafter) as (Hs & _).
  rewrite Hs in Hspied. apply app_inv_head in Hspied as <-. done.
Qed.

Lemma output_calls event model w new :
  spied (executeOutputInterceptors event model w).2 = (spied w ++ new)%list →
  ∃ res,
    executeOutputInterceptors event model w
      = (Normal res, (executeOutputInterceptors event model w).2) ∧
    OutputRun (contextOf w model) {| event := event |}
      (outputSnapshot w) event ∅ new res ∧
    after (started (outputSnapshot w) w) new
      (executeOutputInterceptors event model w).2.
Proof.
  destruct (executeOutputInterceptors_run event model w)
    as (res & w' & new' & Hrun & Htrace & Hafter).
  rewrite Hrun. simpl. intros Hspied. exists res.
  destruct (after_started _ _ _ _ Hafter) as (Hs & _).
  rewrite Hs in Hspied. apply app_inv_head in Hspied as <-. done.
Qed.












Lemma inputSnapshot_nil w :
  inputSnapshot w = [] ↔
  Forall (λ i, enabled i = Some false ∨ onInput i = None)
    (JsMap.values (interceptors w)).
Proof.
  unfold inputSnapshot. split.
  - intros Hnil%(Array_sort_nil_inv (λ i, default 0%num (priority i))).
    apply Forall_forall. intros i Hi.
    destruct (decide (enabled i = Some false)) as [|Hon]; [by left|].
    destruct (onInput i) as [h|] eqn:Hh; [|by right].
    exfalso. apply (filter_nil_not_elem_of _ _ i Hnil); [|done].
    split; [done|]. rewrite Hh. by eexists.
  - intros Hall.
    assert (filter inputEnabled (JsMap.values (interceptors w)) = []) as ->;
      [|done].
    induction Hall as [|i l Hi _ IH]; [done|].
    rewrite filter_cons_False; [done|].
    intros [Hon [h Hh]]. destruct Hi; congruence.
Qed.

Lemma outputSnapshot_nil w :
  outputSnapshot w = [] ↔
  Forall (λ i, enabled i = Some false ∨ onOutput i = None)
    (JsMap.values (interceptors w)).
Proof.
  unfold outputSnapshot. split.
  - intros Hnil%(Array_sort_nil_inv (λ i, default 0%num (priority i))).
    apply Forall_forall. intros i Hi.
    destruct (decide (enabled i = Some false)) as [|Hon]; [by left|].
    destruct (onOutput i) as [h|] eqn:Hh; [|by right].
    exfalso. apply (filter_nil_not_elem_of _ _ i Hnil); [|done].
    split; [done|]. rewrite Hh. by eexists.
  - intros Hall.
    assert (filter outputEnabled (JsMap.values (interceptors w)) = []) as ->;
      [|done].
    induction Hall as [|i l Hi _ IH]; [done|].
    rewrite filter_cons_False; [done|].
    intros [Hon [h Hh]]. destruct Hi; congruence.
Qed.

(** C6. When every registration is disabled ([enabled] false) or has no
    handler for the direction, which is all there is to an empty selection
    and covers the empty registry, the pipeline returns the value it was
    given with [blocked] false, and the world is the one it started in: no
    [Date] was constructed for a context, no handler was called, nothing was
    logged. *)
Theorem nothing_selected_nothing_done :
  (∀ message model isRetry w,
     Forall (λ i, enabled i = Some false ∨ onInput i = None)
       (JsMap.values (interceptors w)) →
     inputSnapshot w = [] ∧
     executeInputInterceptors message model isRetry w
     = (Normal {[ "message" := JPartListUnion message;
                  "blocked" := JBoolean false ]}, w)) ∧
  (∀ event model w,
     Forall (λ i, enabled i = Some false ∨ onOutput i = None)
       (JsMap.values (interceptors w)) →
     outputSnapshot w = [] ∧
     executeOutputInterceptors event model w
     = (Normal {[ "event" := JEvent event; "blocked" := JBoolean false ]}, w)).
Proof.
  split.
  - intros message model isRetry w Hnil%inputSnapshot_nil. split; [done|].
    unfold executeInputInterceptors, mbind, Eff_bind.
    by rewrite getSortedInputInterceptors_run, Hnil.
  - intros event model w Hnil%outputSnapshot_nil. split; [done|].
    unfold executeOutputInterceptors, mbind, Eff_bind.
    by rewrite getSortedOutputInterceptors_run, Hnil.
Qed.


(** Two worlds with the same registry, session and clock run the pipelines
    alike: same object returned, same calls. *)
Lemma input_run_alike message model isRetry w1 w2 :
  interceptors w2 = interceptors w1 → this_sessionId w2 = this_sessionId w1 →
  clock w2 = clock w1 → dates w2 = dates w1 →
  (executeInputInterceptors message model isRetry w2).1
  = (executeInputInterceptors message model isRetry w1).1 ∧
  ∃ new,
    spied (executeInputInterceptors message model isRetry w2).2
      = (spied w2 ++ new)%list ∧
    spied (executeInputInterceptors message model isRetry w1).2
      = (spied w1 ++ new)%list.
Proof.
  intros Hmap Hsid Hclock Hdates.
  destruct (executeInputInterceptors_run message model isRetry w1)
    as (res1 & w1' & new1 & -> & Htrace1 & Hafter1).
  destruct (executeInputInterceptors_run message model isRetry w2)
    as (res2 & w2' & new2 & -> & Htrace2 & Hafter2).
  destruct (after_started _ _ _ _ Hafter1) as (Hspied1 & _).
  destruct (after_started _ _ _ _ Hafter2) as (Hspied2 & _).
  unfold inputSnapshot, contextOf in Htrace2.
  rewrite Hmap, Hsid, Hclock, Hdates in Htrace2.
  destruct (InputRun_functional _ _ _ _ _ _ _ _ _ Htrace1 Htrace2) as [-> ->].
  split; [done|]. by exists new2.
Qed.

Lemma output_run_alike event model w1 w2 :
  interceptors w2 = interceptors w1 → this_sessionId w2 = this_sessionId w1 →
  clock w2 = clock w1 → dates w2 = dates w1 →
  (executeOutputInterceptors event model w2).1
  = (executeOutputInterceptors event model w1).1 ∧
  ∃ new,
    spied (executeOutputInterceptors event model w2).2
      = (spied w2 ++ new)%list ∧
    spied (executeOutputInterceptors event model w1).2
      = (spied w1 ++ new)%list.
Proof.
  intros Hmap Hsid Hclock Hdates.
  destruct (executeOutputInterceptors_run event model w1)
    as (res1 & w1' & new1 & -> & Htrace1 & Hafter1).
  destruct (executeOutputInterceptors_run event model w2)
    as (res2 & w2' & new2 & -> & Htrace2 & Hafter2).
  destruct (after_started _ _ _ _ Hafter1) as (Hspied1 & _).
  destruct (after_started _ _ _ _ Hafter2) as (Hspied2 & _).
  unfold outputSnapshot, contextOf in Htrace2.
  rewrite Hmap, Hsid, Hclock, Hdates in Htrace2.
  destruct (OutputRun_functional _ _ _ _ _ _ _ _ _ Htrace1 Htrace2) as [-> ->].
  split; [done|]. by exists new2.
Qed.

(** C9. [getAll()] returns a new array that holds the registrations of the
    registry, in the order of the [Map].  Whatever is then done to that
    array in place (here: any function [f] of its contents, which covers
    adding, removing and reordering elements) changes the array and leaves
    the registry as it was: [get], [getAll] and both pipelines answer as
    they did before. *)
Theorem getAll_returns_a_copy (w : State) :
  ∃ a,
    (getAll w).1 = Normal a ∧
    arrays w !! a = None ∧
    arrays (getAll w).2 !! a = Some (JsMap.values (interceptors w)) ∧
    interceptors (getAll w).2 = interceptors w ∧
    ∀ f,
      let w2 := (Array_mutate a f (getAll w).2).2 in
      arrays w2 !! a = Some (f (JsMap.values (interceptors w))) ∧
      interceptors w2 = interceptors w ∧
      (∀ k, (get k w2).1 = (get k w).1) ∧
      (∃ a', (getAll w2).1 = Normal a' ∧
             arrays (getAll w2).2 !! a'
             = Some (JsMap.values (interceptors w))) ∧
      (∀ message model isRetry,
         (executeInputInterceptors message model isRetry w2).1
         = (executeInputInterceptors message model isRetry w).1 ∧
         ∃ new,
           spied (executeInputInterceptors message model isRetry w2).2
             = (spied w2 ++ new)%list ∧
           spied (executeInputInterceptors message model isRetry w).2
             = (spied w ++ new)%list) ∧
      (∀ event model,
         (executeOutputInterceptors event model w2).1
         = (executeOutputInterceptors event model w).1 ∧
         ∃ new,
           spied (executeOutputInterceptors event model w2).2
             = (spied w2 ++ new)%list ∧
           spied (executeOutputInterceptors event model w).2
             = (spied w ++ new)%list).
Proof.
  exists (length (arrays w)). rewrite getAll_run. simpl.
  split; [done|].
  split; [by apply lookup_ge_None_2|].
  split; [by rewrite lookup_app_r, Nat.sub_diag|].
  split; [done|].
  intros f. split.
  { by rewrite list_lookup_alter_eq, lookup_app_r, Nat.sub_diag. }
  split; [done|]. split; [done|]. split.
  { eexists. split; [done|].
    by rewrite lookup_app_r, length_alter, Nat.sub_diag. }
  split.
  - intros message model isRetry.
    match goal with |- (executeInputInterceptors _ _ _ ?w2).1 = _ ∧ _ =>
      destruct (input_run_alike message model isRetry w w2)
        as [Heq (new & Hnew2 & Hnew)]; [done..|]
    end.
    split; [done|]. by exists new.
  - intros event model.
    match goal with |- (executeOutputInterceptors _ _ ?w2).1 = _ ∧ _ =>
      destruct (output_run_alike event model w w2)
        as [Heq (new & Hnew2 & Hnew)]; [done..|]
    end.
    split; [done|]. by exists new.
Qed.
End Pipelines.

(** ** Order of the calls, and the scenarios *)


(** C5. With handler A (priority 10, [onInput] returns
    [{message: "A:" + input.message}]) and handler B (priority 1, [onInput]
    returns [{message: "B:" + input.message}]) in the registry, in either
    order of registration, the input pipeline on a string [s] returns
    [{message: "B:A:" + s, blocked: false}]: B is called with the message A
    returned.  On ["hi"] this is ["B:A:hi"]. *)
Theorem chained_prefixes (s : string) (model : option string)
    (isRetry : option bool) (w : Scenario.State) :
  interceptors w = [("A", Scenario.handlerA); ("B", Scenario.handlerB)] ∨
  interceptors w = [("B", Scenario.handlerB); ("A", Scenario.handlerA)] →
  (executeInputInterceptors s model isRetry w).1
  = Normal {[ "message" := JPartListUnion ("B:A:" +:+ s);
              "blocked" := JBoolean false ]} ∧
  spied (executeInputInterceptors s model isRetry w).2
  = (spied w
     ++ [inputCall (contextOf w model) {| message := s; isRetry := isRetry |}
           Scenario.handlerA (Scenario.prefixing "A:") s ∅;
         inputCall (contextOf w model) {| message := s; isRetry := isRetry |}
           Scenario.handlerB (Scenario.prefixing "B:") ("A:" +:+ s) ∅])%list.
Proof.
  destruct w as [m sid lg ck dt ar sp]. intros Hmap. simpl in Hmap.
  destruct Hmap as [-> | ->]; (split; [reflexivity|]);
    (etransitivity; [|symmetry; apply (app_assoc sp [_] [_])]); reflexivity.
Qed.

(** The scenario as the specification words it: A, then B, on ["hi"]. *)
Lemma chained_prefixes_witness :
  (executeInputInterceptors "hi" None None
     (Scenario.registered [Scenario.handlerA; Scenario.handlerB])).1
  = Normal {[ "message" := JPartListUnion "B:A:hi";
              "blocked" := JBoolean false ]}.
Proof.
  apply (chained_prefixes "hi" None None
           (Scenario.registered [Scenario.handlerA; Scenario.handlerB])).
  left. reflexivity.
Defined.


(** ** The claims at work on the scenarios *)




(** The test [should skip disabled interceptors]. *)
Lemma nothing_selected_nothing_done_witness :
  executeInputInterceptors "test message" None None
    (Scenario.registered [Scenario.disabled])
  = (Normal {[ "message" := JPartListUnion "test message";
               "blocked" := JBoolean false ]},
     Scenario.registered [Scenario.disabled]).
Proof.
  apply (proj1 nothing_selected_nothing_done).
  repeat constructor.
Defined.




(** The same on the output side: the first handler throws, the second
    blocks and proposes an event, the third is not called; the event given
    comes back, and the object has no [blockReason]. *)
Example output_throw_then_block :
  let out := executeOutputInterceptors "original output" None
               Scenario.blockedOutputWorld in
  out.1 = Normal {[ "event" := JEvent "original output";
                    "blocked" := JBoolean true ]} ∧
  id ∘ callee <$> spied out.2 = ["error-interceptor"; "blocker"] ∧
  severity <$> logged out.2
  = [sev_debug; sev_debug; sev_debug; sev_debug; sev_error; sev_debug; sev_debug].
Proof. split; [reflexivity|]. split; reflexivity. Qed.

(** * More of the registry *)

Section JsMapMore.
Context {V : Type}.
Implicit Types (m : JsMap.t V) (k : string) (v : V).

Lemma JsMap_get_None k m : JsMap.get k m = None ↔ k ∉ JsMap.keys m.
Proof.
  unfold JsMap.keys. induction m as [|[k' v'] m IH]; csimpl.
  - split; [intros _; apply not_elem_of_nil|done].
  - rewrite not_elem_of_cons. destruct (decide (k = k')) as [->|Hne].
    + split; [done|]. by intros [? _].
    + rewrite IH. split; [by intros ?|by intros [_ ?]].
Qed.

Lemma JsMap_get_Some_elem k v m : JsMap.get k m = Some v → (k, v) ∈ m.
Proof.
  induction m as [|[k' v'] m IH]; simpl; [done|].
  destruct (decide (k = k')) as [->|Hne].
  - intros [= ->]. apply elem_of_cons. by left.
  - intros Hget. apply elem_of_cons. right. by apply IH.
Qed.

Lemma JsMap_has_get k m :
  JsMap.has k m = true ↔ is_Some (JsMap.get k m).
Proof.
  unfold JsMap.has. destruct (JsMap.get k m).
  - split; [by eexists|done].
  - split; [done|by intros [? ?]].
Qed.

Lemma JsMap_set_new k v m :
  JsMap.get k m = None → JsMap.set k v m = (m ++ [(k, v)])%list.
Proof.
  induction m as [|[k' v'] m IH]; simpl; [done|].
  destruct (decide (k = k')) as [->|Hne]; [done|].
  intros Hget. by rewrite IH.
Qed.

Lemma JsMap_get_set_ne k k' v m :
  k ≠ k' → JsMap.get k' (JsMap.set k v m) = JsMap.get k' m.
Proof.
  intros Hne. induction m as [|[k0 v0] m IH]; simpl.
  - by rewrite decide_False.
  - destruct (decide (k = k0)) as [->|Hne0]; simpl.
    + by rewrite !decide_False.
    + by rewrite IH.
Qed.

Lemma JsMap_get_remove_ne k k' m :
  k ≠ k' → JsMap.get k' (JsMap.remove k m) = JsMap.get k' m.
Proof.
  intros Hne. induction m as [|[k0 v0] m IH]; simpl; [done|].
  destruct (decide (k = k0)) as [->|Hne0]; simpl.
  - by rewrite decide_False.
  - by rewrite IH.
Qed.

Lemma JsMap_remove_absent k m : JsMap.get k m = None → JsMap.remove k m = m.
Proof.
  induction m as [|[k' v'] m IH]; simpl; [done|].
  destruct (decide (k = k')) as [->|Hne]; [done|].
  intros Hget. by rewrite IH.
Qed.

Lemma JsMap_get_remove k m :
  NoDup (JsMap.keys m) → JsMap.get k (JsMap.remove k m) = None.
Proof.
  unfold JsMap.keys. induction m as [|[k' v'] m IH]; csimpl; [done|].
  rewrite NoDup_cons. intros [Hk' Hm].
  destruct (decide (k = k')) as [->|Hne]; csimpl.
  - by apply JsMap_get_None.
  - rewrite decide_False by done. auto.
Qed.

Lemma JsMap_remove_sublist k m : JsMap.remove k m `sublist_of` m.
Proof.
  induction m as [|[k' v'] m IH]; simpl; [done|].
  destruct (decide (k = k')); [by apply sublist_cons|by apply sublist_skip].
Qed.

Lemma JsMap_remove_filter k (l : list (string * V)) :
  NoDup (JsMap.keys l) → JsMap.remove k l = filter (λ kv, kv.1 ≠ k) l.
Proof.
  unfold JsMap.keys. induction l as [|[k' v'] l IH]; [done|].
  rewrite fmap_cons, NoDup_cons. cbn [JsMap.remove fst]. intros [Hk' Hl].
  destruct (decide (k = k')) as [->|Hne].
  - rewrite filter_cons_False by (simpl; by intros ?).
    clear IH Hl. induction l as [|[k0 v0] l IH]; [done|].
    rewrite fmap_cons in Hk'. apply not_elem_of_cons in Hk' as [? ?].
    rewrite filter_cons_True by (simpl in *; congruence). by rewrite <-IH.
  - rewrite filter_cons_True by (simpl; congruence). by rewrite IH.
Qed.
Lemma JsMap_length_set k v m :
  length (JsMap.set k v m)
  = (length m + if JsMap.has k m then 0 else 1)%nat.
Proof.
  unfold JsMap.has. induction m as [|[k' v'] m IH]; simpl; [done|].
  destruct (decide (k = k')); simpl; [lia|].
  rewrite IH. by destruct (JsMap.get k m).
Qed.
End JsMapMore.

Section InvariantFacts.
Context {PartListUnion ServerGeminiStreamEvent Unknown Thrown : Type}.
Local Abbreviation Config :=
  (InterceptorConfig PartListUnion ServerGeminiStreamEvent Unknown Thrown).
Local Abbreviation State :=
  (World PartListUnion ServerGeminiStreamEvent Unknown Thrown).
Implicit Types (m : JsMap.t Config) (w : State) (r : Config).

Lemma wellKeyed_empty : wellKeyed (JsMap.empty : JsMap.t Config).
Proof. split; [apply NoDup_nil_2|apply Forall_nil_2]. Qed.

Lemma wellKeyed_set r m : wellKeyed m → wellKeyed (JsMap.set (id r) r m).
Proof.
  intros [Hkeys Hids]. split.
  - rewrite JsMap_keys_set. unfold JsMap.has.
    destruct (JsMap.get (id r) m) eqn:Hget; [done|].
    apply NoDup_app. split; [done|]. split; [|apply NoDup_singleton].
    intros k Hk ->%list_elem_of_singleton. by apply JsMap_get_None in Hget.
  - clear Hkeys. induction Hids as [|[k v] m Hkv Hm IH]; simpl.
    + by repeat constructor.
    + destruct (decide (id r = k)); constructor; done.
Qed.

Lemma wellKeyed_remove k m : wellKeyed m → wellKeyed (JsMap.remove k m).
Proof.
  intros [Hkeys Hids]. split.
  - eapply sublist_NoDup; [done|].
    apply (fmap_sublist fst), JsMap_remove_sublist.
  - rewrite Forall_forall in *. intros kv Hkv. apply Hids.
    by eapply (sublist_subseteq _ _ (JsMap_remove_sublist k m)).
Qed.
End InvariantFacts.

Section RegistryMore.
Context {PartListUnion ServerGeminiStreamEvent Unknown Thrown : Type}.
Local Abbreviation Config :=
  (InterceptorConfig PartListUnion ServerGeminiStreamEvent Unknown Thrown).
Local Abbreviation State :=
  (World PartListUnion ServerGeminiStreamEvent Unknown Thrown).
Local Abbreviation Call :=
  (HandlerCall PartListUnion ServerGeminiStreamEvent Unknown Thrown).
Implicit Types (m : JsMap.t Config) (w : State) (r : Config) (k : string).

Lemma wellKeyed_effect m (call : ManagerCall Config) :
  wellKeyed m → wellKeyed (effect m call).
Proof.
  destruct call as [r|k|]; simpl.
  - apply wellKeyed_set.
  - apply wellKeyed_remove.
  - intros _. apply wellKeyed_empty.
Qed.

Lemma wellKeyed_effects m (calls : list (ManagerCall Config)) :
  wellKeyed m → wellKeyed (foldl effect m calls).
Proof.
  revert m. induction calls as [|call calls IH]; intros m Hm; [done|].
  simpl. by apply IH, wellKeyed_effect.
Qed.

Lemma wellKeyed_ids m :
  wellKeyed m → id <$> JsMap.values m = JsMap.keys m.
Proof.
  intros [_ Hids]. unfold JsMap.values, JsMap.keys.
  induction Hids as [|[k r] m Hkr _ IH]; [done|].
  csimpl in *. by rewrite IH, Hkr.
Qed.

Lemma wellKeyed_values_remove m k :
  wellKeyed m →
  JsMap.values (JsMap.remove k m) = filter (λ r, id r ≠ k) (JsMap.values m).
Proof.
  intros Hm. rewrite JsMap_remove_filter by apply Hm. destruct Hm as [_ Hids].
  unfold JsMap.values. induction Hids as [|[k' r] m Hkr _ IH]; [done|].
  rewrite fmap_cons, !filter_cons. simpl in *. rewrite Hkr.
  destruct (decide (k' ≠ k)); by rewrite ?fmap_cons, IH.
Qed.

(** X1. The registry of a new manager is well keyed, and every method keeps
    it so, the pipelines included, whatever the handlers do to the
    registry meanwhile.  In a well-keyed registry [get(k)] can only return a
    registration whose id is [k], and the registrations [getAll] returns
    have distinct ids. *)
Theorem registry_stays_well_keyed :
  wellKeyed (JsMap.empty : JsMap.t Config) ∧
  ∀ w, wellKeyed (interceptors w) →
    (∀ r, wellKeyed (interceptors (register r w).2)) ∧
    (∀ k, wellKeyed (interceptors (unregister k w).2)) ∧
    wellKeyed (interceptors (clear w).2) ∧
    wellKeyed (interceptors (getAll w).2) ∧
    (∀ k, wellKeyed (interceptors (get k w).2)) ∧
    (∀ message model isRetry,
       wellKeyed
         (interceptors (executeInputInterceptors message model isRetry w).2)) ∧
    (∀ event model,
       wellKeyed (interceptors (executeOutputInterceptors event model w).2)) ∧
    (∀ k r, (get k w).1 = Normal (Some r) →
       id r = k ∧ r ∈ JsMap.values (interceptors w)) ∧
    NoDup (id <$> JsMap.values (interceptors w)).
Proof.
  split; [apply wellKeyed_empty|]. intros w Hw.
  split.
  { intros r. destruct (register_run r w) as (w' & -> & Hmap & _).
    simpl. rewrite Hmap. by apply wellKeyed_set. }
  split.
  { intros k. destruct (unregister_run k w) as (w' & -> & Hmap & _).
    simpl. rewrite Hmap. by apply wellKeyed_remove. }
  split; [apply wellKeyed_empty|]. split; [done|]. split; [done|].
  split.
  { intros message model isRetry.
    destruct (executeInputInterceptors_run message model isRetry w)
      as (res & w' & new & -> & _ & Hafter).
    destruct (after_started _ _ _ _ Hafter) as (_ & Hmap & _).
    simpl. rewrite Hmap. by apply wellKeyed_effects. }
  split.
  { intros event model.
    destruct (executeOutputInterceptors_run event model w)
      as (res & w' & new & -> & _ & Hafter).
    destruct (after_started _ _ _ _ Hafter) as (_ & Hmap & _).
    simpl. rewrite Hmap. by apply wellKeyed_effects. }
  split.
  { intros k r. rewrite get_run. intros [= Hget].
    apply JsMap_get_Some_elem in Hget. destruct Hw as [_ Hids].
    rewrite Forall_forall in Hids. split; [apply (Hids _ Hget)|].
    apply list_elem_of_fmap. by exists (k, r). }
  rewrite wellKeyed_ids by done. apply Hw.
Qed.

(** X2. [unregister(k)] returns whether [k] was registered.  In a
    well-keyed registry [get(k)] then finds nothing, the other registrations
    are all there, in the order they had, and a debug line is logged exactly
    when something was removed.  A second [unregister(k)] returns false and
    changes nothing at all. *)
Theorem unregister_removes_one k w :
  wellKeyed (interceptors w) →
  let out := unregister k w in
  out.1 = Normal (bool_decide (is_Some (JsMap.get k (interceptors w)))) ∧
  (get k out.2).1 = Normal None ∧
  (∀ k', k' ≠ k → (get k' out.2).1 = (get k' w).1) ∧
  JsMap.values (interceptors out.2)
  = filter (λ r, id r ≠ k) (JsMap.values (interceptors w)) ∧
  logged out.2
  = (logged w
     ++ if bool_decide (is_Some (JsMap.get k (interceptors w)))
        then [{| severity := sev_debug;
                 text := "[InterceptorManager] Unregistered interceptor: " +:+ k;
                 detail := None |}]
        else [])%list ∧
  this_sessionId out.2 = this_sessionId w ∧ clock out.2 = clock w ∧
  dates out.2 = dates w ∧ arrays out.2 = arrays w ∧ spied out.2 = spied w ∧
  unregister k out.2 = (Normal false, out.2).
Proof.
  intros Hw out. subst out.
  assert (JsMap.has k (interceptors w)
          = bool_decide (is_Some (JsMap.get k (interceptors w)))) as Hhas.
  { unfold JsMap.has. destruct (JsMap.get k (interceptors w)); [|done].
    symmetry. apply bool_decide_eq_true. by eexists. }
  assert (JsMap.get k (JsMap.remove k (interceptors w)) = None) as Hgone
    by (apply JsMap_get_remove, Hw).
  unfold unregister, mbind, Eff_bind, gets. simpl. rewrite <-Hhas.
  split; [by destruct (JsMap.has k (interceptors w))|].
  split; [by destruct (JsMap.has k (interceptors w)); simpl; rewrite Hgone|].
  split.
  { intros k' Hne.
    destruct (JsMap.has k (interceptors w)); simpl;
      by rewrite JsMap_get_remove_ne. }
  split.
  { pose proof (wellKeyed_values_remove _ k Hw) as Hvalues.
    by destruct (JsMap.has k (interceptors w)). }
  split.
  { destruct (JsMap.has k (interceptors w)); simpl; [done|].
    by rewrite app_nil_r. }
  destruct w as [m sid lg ck dt ar sp]. simpl in *.
  destruct (JsMap.has k m); simpl; repeat (split; [done|]);
    unfold JsMap.has; simpl; rewrite Hgone; simpl;
    by rewrite (JsMap_remove_absent _ _ Hgone).
Qed.

(** X3. After [clear()] nothing is registered: [get] finds nothing,
    [getAll] returns an empty array, [unregister] returns false, and both
    pipelines return what they are given, unblocked, without calling a
    handler.  [clear] logs one debug line and changes nothing else. *)
Theorem clear_empties_the_registry w :
  let out := clear w in
  out.1 = Normal () ∧
  (∀ k, (get k out.2).1 = Normal None) ∧
  (∀ k, (unregister k out.2).1 = Normal false) ∧
  (∃ a, (getAll out.2).1 = Normal a ∧ arrays (getAll out.2).2 !! a = Some []) ∧
  (∀ message model isRetry,
     executeInputInterceptors message model isRetry out.2
     = (Normal {[ "message" := JPartListUnion message;
                  "blocked" := JBoolean false ]}, out.2)) ∧
  (∀ event model,
     executeOutputInterceptors event model out.2
     = (Normal {[ "event" := JEvent event; "blocked" := JBoolean false ]},
        out.2)) ∧
  logged out.2
  = (logged w ++ [{| severity := sev_debug;
                     text := "[InterceptorManager] Cleared all interceptors";
                     detail := None |}])%list ∧
  this_sessionId out.2 = this_sessionId w ∧ clock out.2 = clock w ∧
  dates out.2 = dates w ∧ arrays out.2 = arrays w ∧ spied out.2 = spied w.
Proof.
  intros out. subst out. simpl.
  split; [done|]. split; [done|]. split; [done|]. split.
  { eexists. split; [done|]. simpl.
    by rewrite lookup_app_r, Nat.sub_diag. }
  repeat (split; [done|]). done.
Qed.

(** X4. [register(r)] leaves the registration of every other id as it was,
    and puts a new id last in the order of the [Map], which is the order in
    which handlers of equal priority run. *)
Theorem register_keeps_the_rest r w :
  let out := register r w in
  (∀ k, k ≠ id r → (get k out.2).1 = (get k w).1) ∧
  (JsMap.get (id r) (interceptors w) = None →
     interceptors out.2 = (interceptors w ++ [(id r, r)])%list ∧
     JsMap.values (interceptors out.2)
     = (JsMap.values (interceptors w) ++ [r])%list) ∧
  length (JsMap.values (interceptors out.2))
  = (length (JsMap.values (interceptors w))
     + if JsMap.has (id r) (interceptors w) then 0 else 1)%nat.
Proof.
  intros out. subst out.
  destruct (register_run r w) as (w' & -> & Hmap & _). simpl.
  rewrite Hmap. split.
  { intros k Hne. by rewrite JsMap_get_set_ne. }
  split.
  { intros Hnew. rewrite (JsMap_set_new _ _ _ Hnew). split; [done|].
    unfold JsMap.values. by rewrite fmap_app. }
  unfold JsMap.values. rewrite !length_fmap. apply JsMap_length_set.
Qed.

(** X5. Registering under an id that is not registered and unregistering
    that id again gives the registry back as it was; [unregister] returns
    true. *)
Theorem register_unregister_round_trip r w :
  JsMap.get (id r) (interceptors w) = None →
  let out := unregister (id r) (register r w).2 in
  out.1 = Normal true ∧ interceptors out.2 = interceptors w.
Proof.
  intros Hnew out. subst out.
  destruct (register_run r w) as (w' & -> & Hmap & _). simpl.
  destruct (unregister_run (id r) w') as (w'' & -> & Hmap' & _). simpl.
  rewrite Hmap', Hmap. unfold JsMap.has. rewrite JsMap_get_set.
  split; [done|]. rewrite (JsMap_set_new _ _ _ Hnew).
  clear -Hnew. induction (interceptors w) as [|[k v] m IH]; simpl in *.
  - by rewrite decide_True.
  - destruct (decide (id r = k)); [done|]. by rewrite IH.
Qed.
End RegistryMore.

(** * More of the pipelines *)

Lemma filter_all {A} (P : A → Prop) `{!∀ x, Decision (P x)} (l : list A) :
  Forall P l → filter P l = l.
Proof.
  induction 1 as [|x l Hx _ IH]; [done|].
  by rewrite filter_cons_True, IH.
Qed.

Section ArraySortMore.
Context {A : Type} (key : A → Number.t).
Local Abbreviation descending := (λ a b : A, (key b - key a)%num).

Lemma Array_insert_front (x : A) (l : list A) :
  Forall (λ z, ¬ (key x < key z)%num) l → Array_insert descending x l = x :: l.
Proof.
  destruct 1 as [|z l Hz _]; [done|].
  rewrite Array_insert_cons. by rewrite decide_False.
Qed.

(** Inserting into a list in which [r] stands before elements of lower
    keys only: [r] keeps that, and the others go where they go without
    [r].  No key needs to be a number. *)
Lemma Array_insert_around (Q : A → Prop) (x r : A) (pre post : list A) :
  Q x → Forall Q post → Forall (λ b, (key b < key r)%num) post →
  ∃ pre' post',
    Array_insert descending x (pre ++ r :: post) = (pre' ++ r :: post')%list ∧
    Array_insert descending x (pre ++ post) = (pre' ++ post')%list ∧
    (Forall Q pre → Forall Q pre') ∧
    Forall Q post' ∧ Forall (λ b, (key b < key r)%num) post'.
Proof.
  intros Hx HQ Hpost. induction pre as [|a pre IH].
  - rewrite !app_nil_l, Array_insert_cons.
    destruct (decide (key x < key r)%num) as [Hxr|Hxr].
    + exists [], (Array_insert descending x post).
      split; [done|]. split; [done|]. split; [done|].
      split; rewrite Array_insert_perm; by constructor.
    + exists [x], post. split; [done|].
      split; [|repeat split; try done; by repeat constructor].
      apply Array_insert_front.
      eapply Forall_impl; [exact Hpost|]. simpl. intros b Hb Hxb.
      apply Hxr. by eapply Number_lt_trans.
  - destruct IH as (pre' & post' & Hwith & Hwithout & Hpre & HQ' & Hpost').
    rewrite <-!app_comm_cons, !Array_insert_cons.
    destruct (decide (key x < key a)%num).
    + exists (a :: pre'), post'. rewrite Hwith, Hwithout.
      repeat split; try done.
      intros [? ?]%Forall_cons_1. constructor; auto.
    + exists (x :: a :: pre), post.
      repeat split; try done. intros ?. by constructor.
Qed.

(** An element whose key is above the keys of all the others comes
    first. *)
Lemma Array_sort_head (f : A) (l : list A) :
  f ∈ l → Forall (λ r, r = f ∨ (key r < key f)%num) l →
  ∃ rest, Array_sort descending l = f :: rest.
Proof.
  intros Hin Hall.
  enough ((∃ rest, Array_sort descending l = f :: rest) ∨
          Forall (λ r, (key r < key f)%num) l) as [?|Hlow].
  { done. }
  { rewrite Forall_forall in Hlow.
    destruct (Number_lt_asym _ _ (Hlow f Hin) (Hlow f Hin)). }
  clear Hin. induction Hall as [|x l Hx _ IH]; [by right|]. simpl.
  destruct IH as [[rest ->]|Hlow].
  - left. rewrite Array_insert_cons. destruct Hx as [->|Hx].
    + rewrite decide_False; [by eexists|].
      intros Hff. by destruct (Number_lt_asym _ _ Hff).
    + rewrite decide_True by done. by eexists.
  - destruct Hx as [->|Hx]; [left|right; by constructor].
    rewrite Array_insert_front; [by eexists|].
    rewrite Array_sort_perm. eapply Forall_impl; [exact Hlow|].
    simpl. intros z Hz. by apply Number_lt_asym.
Qed.

(** Sorting with one more element at the end and dropping it again gives
    what sorting without it gives. *)
Lemma Array_sort_without_last (Q : A → Prop) `{!∀ a, Decision (Q a)}
    (l : list A) (r : A) :
  Forall Q l → ¬ Q r →
  filter Q (Array_sort descending (l ++ [r])) = Array_sort descending l.
Proof.
  intros Hl Hr.
  enough (∃ pre post,
            Array_sort descending (l ++ [r]) = (pre ++ r :: post)%list ∧
            Array_sort descending l = (pre ++ post)%list ∧
            Forall Q pre ∧ Forall Q post ∧
            Forall (λ b, (key b < key r)%num) post)
    as (pre & post & -> & -> & Hpre & Hpost & _).
  { rewrite filter_app, filter_cons_False by done.
    rewrite <-filter_app. apply filter_all. by apply Forall_app. }
  induction Hl as [|x l Hx Hl IH]; simpl.
  - by exists [], [].
  - destruct IH as (pre & post & -> & -> & Hpre & Hpost & Hlow).
    destruct (Array_insert_around Q x r pre post Hx Hpost Hlow)
      as (pre' & post' & -> & -> & Hpre' & Hpost' & Hlow').
    exists pre', post'. auto.
Qed.
End ArraySortMore.

Section PipelinesMore.
Context {PartListUnion ServerGeminiStreamEvent Unknown Thrown : Type}.
Local Abbreviation Config :=
  (InterceptorConfig PartListUnion ServerGeminiStreamEvent Unknown Thrown).
Local Abbreviation State :=
  (World PartListUnion ServerGeminiStreamEvent Unknown Thrown).
Local Abbreviation Call :=
  (HandlerCall PartListUnion ServerGeminiStreamEvent Unknown Thrown).
Implicit Types (w : State) (i : Config) (c : Call) (new : list Call).






Lemma wellKeyed_get_value (m : JsMap.t Config) (r : Config) :
  wellKeyed m → r ∈ JsMap.values m → JsMap.get (id r) m = Some r.
Proof.
  intros [Hkeys Hids]. unfold JsMap.values, JsMap.keys in *.
  induction Hids as [|[k r'] m Hkr Hm IH]; csimpl in *.
  - by intros ?%elem_of_nil.
  - apply NoDup_cons in Hkeys as [Hk Hkeys].
    intros [->|Hin]%elem_of_cons.
    + by rewrite Hkr, decide_True.
    + destruct (decide (id r = k)) as [<-|Hne]; [|by apply IH].
      exfalso. apply Hk.
      apply list_elem_of_fmap in Hin as ([k' r''] & -> & Hin).
      apply list_elem_of_fmap. exists (k', r''). split; [|done]. simpl.
      rewrite Forall_forall in Hm. exact (Hm (k', r'') Hin).
Qed.

Lemma snapshot_ids_NoDup (m : JsMap.t Config) (P : Config → Prop)
    `{!∀ i, Decision (P i)} (n : nat) :
  wellKeyed m →
  NoDup (id <$> take n (Array_sort byPriority (filter P (JsMap.values m)))).
Proof.
  intros Hm. eapply sublist_NoDup; [|apply fmap_sublist, sublist_take].
  unfold byPriority. rewrite (Array_sort_perm (λ i, default 0%num (priority i))).
  eapply sublist_NoDup; [|apply fmap_sublist, sublist_filter].
  rewrite wellKeyed_ids by done. apply Hm.
Qed.

Lemma snapshot_registered (m : JsMap.t Config) (P : Config → Prop)
    `{!∀ i, Decision (P i)} (i : Config) :
  wellKeyed m → i ∈ Array_sort byPriority (filter P (JsMap.values m)) →
  P i ∧ JsMap.get (id i) m = Some i.
Proof.
  intros Hm. unfold byPriority.
  rewrite (Array_sort_perm (λ i, default 0%num (priority i))).
  intros [HP Hin]%list_elem_of_filter. split; [done|].
  by apply wellKeyed_get_value.
Qed.

(** X7. In a well-keyed registry a run of the input pipeline calls no
    registration twice, and calls nothing but the [onInput] of
    registrations that are in the registry when the run starts and are not
    disabled; the output pipeline likewise calls nothing but the [onOutput]
    of such registrations.  So neither pipeline ever calls the handler of
    the other direction. *)
Theorem only_selected_handlers_are_called :
  (∀ message model isRetry w new,
     wellKeyed (interceptors w) →
     spied (executeInputInterceptors message model isRetry w).2
       = (spied w ++ new)%list →
     NoDup (id ∘ callee <$> new) ∧
     ∀ c, c ∈ new →
       ∃ input context h,
         c = InputCall (callee c) input context (h input context) ∧
         onInput (callee c) = Some h ∧ enabled (callee c) ≠ Some false ∧
         JsMap.get (id (callee c)) (interceptors w) = Some (callee c)) ∧
  (∀ event model w new,
     wellKeyed (interceptors w) →
     spied (executeOutputInterceptors event model w).2
       = (spied w ++ new)%list →
     NoDup (id ∘ callee <$> new) ∧
     ∀ c, c ∈ new →
       ∃ output context h,
         c = OutputCall (callee c) output context (h output context) ∧
         onOutput (callee c) = Some h ∧ enabled (callee c) ≠ Some false ∧
         JsMap.get (id (callee c)) (interceptors w) = Some (callee c)).
Proof.
  split.
  - intros message model isRetry w new Hw Hspied.
    destruct (input_calls _ _ _ _ _ Hspied) as (res & _ & Htrace & _).
    pose proof (InputRun_callees _ _ _ _ _ _ _ Htrace
                  (inputSnapshot_handlers w)) as Hprefix.
    split.
    { rewrite list_fmap_compose, Hprefix. by apply snapshot_ids_NoDup. }
    intros c [k Hk]%list_elem_of_lookup.
    destruct (InputRun_args _ _ _ _ _ _ _ Htrace k c Hk) as (h & Hh & Hc).
    pose proof (callee_lookup _ _ _ _ Hprefix Hk) as Hsel.
    apply list_elem_of_lookup_2 in Hsel.
    apply snapshot_registered in Hsel as [[Hon _] Hget]; [|done].
    eexists _, _, h. split; [exact Hc|]. done.
  - intros event model w new Hw Hspied.
    destruct (output_calls _ _ _ _ Hspied) as (res & _ & Htrace & _).
    pose proof (OutputRun_callees _ _ _ _ _ _ _ Htrace
                  (outputSnapshot_handlers w)) as Hprefix.
    split.
    { rewrite list_fmap_compose, Hprefix. by apply snapshot_ids_NoDup. }
    intros c [k Hk]%list_elem_of_lookup.
    destruct (OutputRun_args _ _ _ _ _ _ _ Htrace k c Hk) as (h & Hh & Hc).
    pose proof (callee_lookup _ _ _ _ Hprefix Hk) as Hsel.
    apply list_elem_of_lookup_2 in Hsel.
    apply snapshot_registered in Hsel as [[Hon _] Hget]; [|done].
    eexists _, _, h. split; [exact Hc|]. done.
Qed.



Lemma filter_agree_on {A} (P1 P2 : A → Prop)
    `{!∀ x, Decision (P1 x), !∀ x, Decision (P2 x)} (l : list A) :
  (∀ x, x ∈ l → P1 x ↔ P2 x) → filter P1 l = filter P2 l.
Proof.
  induction l as [|a l IH]; [done|]. intros Hiff.
  rewrite !filter_cons, IH.
  - apply decide_ext, Hiff, elem_of_cons. by left.
  - intros x Hx. apply Hiff, elem_of_cons. by right.
Qed.

Lemma same_selection_same_input_run message model isRetry w1 w2 :
  inputSnapshot w2 = inputSnapshot w1 → this_sessionId w2 = this_sessionId w1 →
  clock w2 = clock w1 → dates w2 = dates w1 →
  (executeInputInterceptors message model isRetry w2).1
  = (executeInputInterceptors message model isRetry w1).1 ∧
  ∃ new,
    spied (executeInputInterceptors message model isRetry w2).2
      = (spied w2 ++ new)%list ∧
    spied (executeInputInterceptors message model isRetry w1).2
      = (spied w1 ++ new)%list.
Proof.
  intros Hsel Hsid Hclock Hdates.
  destruct (executeInputInterceptors_run message model isRetry w1)
    as (res1 & w1' & new1 & -> & Htrace1 & Hafter1).
  destruct (executeInputInterceptors_run message model isRetry w2)
    as (res2 & w2' & new2 & -> & Htrace2 & Hafter2).
  destruct (after_started _ _ _ _ Hafter1) as (Hspied1 & _).
  destruct (after_started _ _ _ _ Hafter2) as (Hspied2 & _).
  unfold contextOf in Htrace2.
  rewrite Hsel, Hsid, Hclock, Hdates in Htrace2.
  destruct (InputRun_functional _ _ _ _ _ _ _ _ _ Htrace1 Htrace2) as [-> ->].
  split; [done|]. by exists new2.
Qed.

Lemma same_selection_same_output_run event model w1 w2 :
  outputSnapshot w2 = outputSnapshot w1 → this_sessionId w2 = this_sessionId w1 →
  clock w2 = clock w1 → dates w2 = dates w1 →
  (executeOutputInterceptors event model w2).1
  = (executeOutputInterceptors event model w1).1 ∧
  ∃ new,
    spied (executeOutputInterceptors event model w2).2
      = (spied w2 ++ new)%list ∧
    spied (executeOutputInterceptors event model w1).2
      = (spied w1 ++ new)%list.
Proof.
  intros Hsel Hsid Hclock Hdates.
  destruct (executeOutputInterceptors_run event model w1)
    as (res1 & w1' & new1 & -> & Htrace1 & Hafter1).
  destruct (executeOutputInterceptors_run event model w2)
    as (res2 & w2' & new2 & -> & Htrace2 & Hafter2).
  destruct (after_started _ _ _ _ Hafter1) as (Hspied1 & _).
  destruct (after_started _ _ _ _ Hafter2) as (Hspied2 & _).
  unfold contextOf in Htrace2.
  rewrite Hsel, Hsid, Hclock, Hdates in Htrace2.
  destruct (OutputRun_functional _ _ _ _ _ _ _ _ _ Htrace1 Htrace2) as [-> ->].
  split; [done|]. by exists new2.
Qed.

Lemma registered_world r w :
  interceptors (register r w).2 = JsMap.set (id r) r (interceptors w) ∧
  this_sessionId (register r w).2 = this_sessionId w ∧
  clock (register r w).2 = clock w ∧ dates (register r w).2 = dates w ∧
  spied (register r w).2 = spied w.
Proof. by destruct (register_run r w) as (w' & -> & ? & ? & ? & ? & ? & ? & _). Qed.

Lemma unregistered_world k w :
  interceptors (unregister k w).2 = JsMap.remove k (interceptors w) ∧
  this_sessionId (unregister k w).2 = this_sessionId w ∧
  clock (unregister k w).2 = clock w ∧ dates (unregister k w).2 = dates w ∧
  spied (unregister k w).2 = spied w.
Proof. by destruct (unregister_run k w) as (w' & -> & ? & ? & ? & ? & ? & ? & _). Qed.

(** X9. A registration that is disabled, or has no handler for a
    direction, does not exist for the pipeline of that direction:
    registering it under a new id, or unregistering it from a well-keyed
    registry, changes neither the object a run returns nor the calls the run
    makes. *)
Theorem unselected_registration_is_invisible :
  (∀ r w message model isRetry,
     enabled r = Some false ∨ onInput r = None →
     (JsMap.get (id r) (interceptors w) = None →
      (executeInputInterceptors message model isRetry (register r w).2).1
      = (executeInputInterceptors message model isRetry w).1 ∧
      ∃ new,
        spied (executeInputInterceptors message model isRetry (register r w).2).2
          = (spied w ++ new)%list ∧
        spied (executeInputInterceptors message model isRetry w).2
          = (spied w ++ new)%list) ∧
     (wellKeyed (interceptors w) →
      JsMap.get (id r) (interceptors w) = Some r →
      (executeInputInterceptors message model isRetry (unregister (id r) w).2).1
      = (executeInputInterceptors message model isRetry w).1 ∧
      ∃ new,
        spied (executeInputInterceptors message model isRetry
                 (unregister (id r) w).2).2
          = (spied w ++ new)%list ∧
        spied (executeInputInterceptors message model isRetry w).2
          = (spied w ++ new)%list)) ∧
  (∀ r w event model,
     enabled r = Some false ∨ onOutput r = None →
     (JsMap.get (id r) (interceptors w) = None →
      (executeOutputInterceptors event model (register r w).2).1
      = (executeOutputInterceptors event model w).1 ∧
      ∃ new,
        spied (executeOutputInterceptors event model (register r w).2).2
          = (spied w ++ new)%list ∧
        spied (executeOutputInterceptors event model w).2
          = (spied w ++ new)%list) ∧
     (wellKeyed (interceptors w) →
      JsMap.get (id r) (interceptors w) = Some r →
      (executeOutputInterceptors event model (unregister (id r) w).2).1
      = (executeOutputInterceptors event model w).1 ∧
      ∃ new,
        spied (executeOutputInterceptors event model (unregister (id r) w).2).2
          = (spied w ++ new)%list ∧
        spied (executeOutputInterceptors event model w).2
          = (spied w ++ new)%list)).
Proof.
  split.
  - intros r w message model isRetry Hoff.
    assert (¬ inputEnabled r) as Hr.
    { intros [Hon [h Hh]]. destruct Hoff; congruence. }
    split.
    + intros Hnew.
      destruct (registered_world r w) as (Hmap & Hsid & Hclock & Hdates & Hsp).
      destruct (same_selection_same_input_run message model isRetry w
                  (register r w).2) as [Heq (new & Hnew2 & Hnew1)]; [|done..|].
      { unfold inputSnapshot. rewrite Hmap, (JsMap_set_new _ _ _ Hnew).
        unfold JsMap.values. rewrite fmap_app, filter_app. csimpl.
        by rewrite filter_cons_False, filter_nil, app_nil_r. }
      split; [done|]. exists new. rewrite Hsp in Hnew2. done.
    + intros Hw Hget.
      destruct (unregistered_world (id r) w)
        as (Hmap & Hsid & Hclock & Hdates & Hsp).
      destruct (same_selection_same_input_run message model isRetry w
                  (unregister (id r) w).2) as [Heq (new & Hnew2 & Hnew1)];
        [|done..|].
      { unfold inputSnapshot. rewrite Hmap, wellKeyed_values_remove by done.
        f_equal. rewrite list_filter_filter. apply filter_agree_on.
        intros i Hi. split; [by intros [? _]|]. intros Hon. split; [done|].
        intros Hid. apply Hr.
        pose proof (wellKeyed_get_value _ _ Hw Hi) as Hgeti.
        rewrite Hid, Hget in Hgeti. by injection Hgeti as ->. }
      split; [done|]. exists new. rewrite Hsp in Hnew2. done.
  - intros r w event model Hoff.
    assert (¬ outputEnabled r) as Hr.
    { intros [Hon [h Hh]]. destruct Hoff; congruence. }
    split.
    + intros Hnew.
      destruct (registered_world r w) as (Hmap & Hsid & Hclock & Hdates & Hsp).
      destruct (same_selection_same_output_run event model w
                  (register r w).2) as [Heq (new & Hnew2 & Hnew1)]; [|done..|].
      { unfold outputSnapshot. rewrite Hmap, (JsMap_set_new _ _ _ Hnew).
        unfold JsMap.values. rewrite fmap_app, filter_app. csimpl.
        by rewrite filter_cons_False, filter_nil, app_nil_r. }
      split; [done|]. exists new. rewrite Hsp in Hnew2. done.
    + intros Hw Hget.
      destruct (unregistered_world (id r) w)
        as (Hmap & Hsid & Hclock & Hdates & Hsp).
      destruct (same_selection_same_output_run event model w
                  (unregister (id r) w).2) as [Heq (new & Hnew2 & Hnew1)];
        [|done..|].
      { unfold outputSnapshot. rewrite Hmap, wellKeyed_values_remove by done.
        f_equal. rewrite list_filter_filter. apply filter_agree_on.
        intros i Hi. split; [by intros [? _]|]. intros Hon. split; [done|].
        intros Hid. apply Hr.
        pose proof (wellKeyed_get_value _ _ Hw Hi) as Hgeti.
        rewrite Hid, Hget in Hgeti. by injection Hgeti as ->. }
      split; [done|]. exists new. rewrite Hsp in Hnew2. done.
Qed.
(** The loop assigns [context.metadata] and [inputData.message] (or
    [outputData.event]) at every turn: what they held when the loop
    started plays no part. *)
Lemma InputRun_assigned x y context inputData l cur md new res :
  InputRun (with_metadata x context) (with_message y inputData) l cur md
    new res →
  InputRun context inputData l cur md new res.
Proof.
  revert new res. induction l as [|i rest IH]; intros new res Htrace;
    inversion Htrace as [|? ? ? ? ? ? ? ? Hnone Hrest
                         |? ? ? h ? ? ? Hh Hb
                         |? ? ? h ? ? ? new' ? Hh Hb Hrest]; subst.
  - constructor.
  - apply InputRun_skip; [done|]. by apply IH.
  - exact (InputRun_blocked context inputData i h rest cur md Hh Hb).
  - exact (InputRun_next context inputData i h rest cur md new' res
             Hh Hb Hrest).
Qed.

Lemma OutputRun_assigned x y context outputData l cur md new res :
  OutputRun (with_metadata x context) y l cur md new res →
  OutputRun context outputData l cur md new res.
Proof.
  revert new res. induction l as [|i rest IH]; intros new res Htrace;
    inversion Htrace as [|? ? ? ? ? ? ? ? Hnone Hrest
                         |? ? ? h ? ? ? Hh Hb
                         |? ? ? h ? ? ? new' ? Hh Hb Hrest]; subst.
  - constructor.
  - apply OutputRun_skip; [done|]. by apply IH.
  - exact (OutputRun_blocked context outputData i h rest cur md Hh Hb).
  - exact (OutputRun_next context outputData i h rest cur md new' res
             Hh Hb Hrest).
Qed.

(** Handlers that never return a result and write nothing can be left out
    of a loop: the other handlers are called as before, and the same object
    comes back. *)
Lemma InputRun_without (k : string) context inputData l cur md new res :
  InputRun context inputData l cur md new res →
  (∀ i h input ctx,
     i ∈ l → id i = k → onInput i = Some h →
     writes (h input ctx) = [] ∧
     ∀ result, settled (h input ctx) ≠ Normal (Some result)) →
  InputRun context inputData (filter (λ i, id i ≠ k) l) cur md
    (filter (λ c, id (callee c) ≠ k) new) res.
Proof.
  induction 1 as [|context data i rest cur md new res Hnone _ IH
                  |context data i h rest cur md Hh Hb
                  |context data i h rest cur md new res Hh Hb _ IH];
    intros Hinert.
  - constructor.
  - rewrite filter_cons.
    assert (InputRun context data (filter (λ i, id i ≠ k) rest) cur md
              (filter (λ c, id (callee c) ≠ k) new) res) as Hrest.
    { apply IH. intros i' h' ? ? Hin. apply Hinert, elem_of_cons. by right. }
    destruct (decide (id i ≠ k)); [by apply InputRun_skip|done].
  - assert (id i ≠ k) as Hi.
    { intros Hid. revert Hb. unfold inputCall, blocks. simpl.
      destruct (settled _) as [[result|]|e] eqn:Hsettled; try done.
      exfalso. eapply (Hinert i h); [apply elem_of_cons; by left|done..]. }
    rewrite filter_cons_True by done.
    rewrite filter_cons_True, filter_nil by done.
    by apply InputRun_blocked.
  - assert (InputRun
              (contextAfter context [inputCall context data i h cur md])
              (inputAfter data [inputCall context data i h cur md])
              (filter (λ i, id i ≠ k) rest)
              (messageAfter cur [inputCall context data i h cur md])
              (metadataAfter md [inputCall context data i h cur md])
              (filter (λ c, id (callee c) ≠ k) new) res) as Hrest.
    { apply IH. intros i' h' ? ? Hin. apply Hinert, elem_of_cons. by right. }
    rewrite !filter_cons. simpl.
    destruct (decide (id i ≠ k)) as [Hi|Hi]; [by apply InputRun_next|].
    apply dec_stable in Hi.
    destruct (Hinert i h (with_message cur data) (with_metadata md context))
      as [Hwrites Hsettled]; [apply elem_of_cons; by left|done..|].
    revert Hrest.
    unfold inputCall, contextAfter, contextLeft, inputAfter. simpl.
    rewrite Hwrites. simpl.
    destruct (settled _) as [[result|]|e]; [by destruct (Hsettled result)|..];
      apply InputRun_assigned.
Qed.

Lemma OutputRun_without (k : string) context outputData l cur md new res :
  OutputRun context outputData l cur md new res →
  (∀ i h output ctx,
     i ∈ l → id i = k → onOutput i = Some h →
     writes (h output ctx) = [] ∧
     ∀ result, settled (h output ctx) ≠ Normal (Some result)) →
  OutputRun context outputData (filter (λ i, id i ≠ k) l) cur md
    (filter (λ c, id (callee c) ≠ k) new) res.
Proof.
  induction 1 as [|context data i rest cur md new res Hnone _ IH
                  |context data i h rest cur md Hh Hb
                  |context data i h rest cur md new res Hh Hb _ IH];
    intros Hinert.
  - constructor.
  - rewrite filter_cons.
    assert (OutputRun context data (filter (λ i, id i ≠ k) rest) cur md
              (filter (λ c, id (callee c) ≠ k) new) res) as Hrest.
    { apply IH. intros i' h' ? ? Hin. apply Hinert, elem_of_cons. by right. }
    destruct (decide (id i ≠ k)); [by apply OutputRun_skip|done].
  - assert (id i ≠ k) as Hi.
    { intros Hid. revert Hb. unfold outputCall, blocks. simpl.
      destruct (settled _) as [[result|]|e] eqn:Hsettled; try done.
      exfalso. eapply (Hinert i h); [apply elem_of_cons; by left|done..]. }
    rewrite filter_cons_True by done.
    rewrite filter_cons_True, filter_nil by done.
    by apply OutputRun_blocked.
  - assert (OutputRun
              (contextAfter context [outputCall context data i h cur md])
              (with_event cur data)
              (filter (λ i, id i ≠ k) rest)
              (eventAfter cur [outputCall context data i h cur md])
              (metadataAfter md [outputCall context data i h cur md])
              (filter (λ c, id (callee c) ≠ k) new) res) as Hrest.
    { apply IH. intros i' h' ? ? Hin. apply Hinert, elem_of_cons. by right. }
    rewrite !filter_cons. simpl.
    destruct (decide (id i ≠ k)) as [Hi|Hi]; [by apply OutputRun_next|].
    apply dec_stable in Hi.
    destruct (Hinert i h (with_event cur data) (with_metadata md context))
      as [Hwrites Hsettled]; [apply elem_of_cons; by left|done..|].
    revert Hrest.
    unfold outputCall, contextAfter, contextLeft. simpl.
    rewrite Hwrites. simpl.
    destruct (settled _) as [[result|]|e]; [by destruct (Hsettled result)|..];
      apply OutputRun_assigned.
Qed.

Lemma fresh_id_values (m : JsMap.t Config) (r : Config) :
  wellKeyed m → JsMap.get (id r) m = None →
  Forall (λ i, id i ≠ id r) (JsMap.values m).
Proof.
  intros Hm Hnew. apply Forall_forall. intros i Hi Hid.
  pose proof (wellKeyed_get_value _ _ Hm Hi) as Hget. congruence.
Qed.

Lemma selection_without_new (P : Config → Prop) `{!∀ i, Decision (P i)}
    (m : JsMap.t Config) (r : Config) :
  wellKeyed m → JsMap.get (id r) m = None →
  filter (λ i, id i ≠ id r)
    (Array_sort byPriority (filter P (JsMap.values (JsMap.set (id r) r m))))
  = Array_sort byPriority (filter P (JsMap.values m)).
Proof.
  intros Hm Hnew. unfold byPriority.
  assert (Forall (λ i, id i ≠ id r) (filter P (JsMap.values m))) as Hfresh.
  { apply Forall_forall. intros i [_ Hi]%list_elem_of_filter.
    pose proof (fresh_id_values _ _ Hm Hnew) as Hfresh.
    rewrite Forall_forall in Hfresh. by apply Hfresh. }
  rewrite (JsMap_set_new _ _ _ Hnew). unfold JsMap.values.
  rewrite fmap_app, filter_app. csimpl.
  rewrite (filter_cons P), filter_nil. destruct (decide (P r)).
  - apply (Array_sort_without_last (λ i, default 0%num (priority i)));
      [done|by intros ?].
  - rewrite app_nil_r. apply filter_all.
    by rewrite (Array_sort_perm (λ i, default 0%num (priority i))).
Qed.

End PipelinesMore.

(** * The log of a run *)

Section LogFacts.
Context {PartListUnion ServerGeminiStreamEvent Unknown Thrown : Type}.
Local Abbreviation Config :=
  (InterceptorConfig PartListUnion ServerGeminiStreamEvent Unknown Thrown).
Local Abbreviation State :=
  (World PartListUnion ServerGeminiStreamEvent Unknown Thrown).
Local Abbreviation Call :=
  (HandlerCall PartListUnion ServerGeminiStreamEvent Unknown Thrown).
Implicit Types (w : State) (i : Config) (c : Call) (new : list Call).













End LogFacts.

(** * Scenarios of the further properties *)

(** A handler empties the registry and registers [handlerA] while the input
    pipeline runs: the registry is well keyed before and after. *)
Lemma registry_stays_well_keyed_witness :
  let w := Scenario.meddledWorld in
  let out := executeInputInterceptors "hi" None None w in
  wellKeyed (interceptors w) ∧
  JsMap.keys (interceptors out.2) = ["A"] ∧
  wellKeyed (interceptors out.2).
Proof.
  intros w out.
  assert (wellKeyed (interceptors w)) as Hw.
  { split; [apply (bool_decide_unpack _); reflexivity|repeat constructor]. }
  split; [exact Hw|]. split; [reflexivity|].
  destruct (proj2 registry_stays_well_keyed w Hw) as (_ & _ & _ & _ & _ & Hin & _).
  exact (Hin "hi" None None).
Defined.

(** The test [should unregister an interceptor], with two more
    registrations. *)
Lemma unregister_removes_one_witness :
  let w := Scenario.blockedWorld in
  let out := unregister "A" w in
  wellKeyed (interceptors w) ∧
  out.1 = Normal true ∧
  (get "A" out.2).1 = Normal None ∧
  id <$> JsMap.values (interceptors out.2) = ["normal-interceptor"; "blocker"] ∧
  unregister "A" out.2 = (Normal false, out.2).
Proof.
  intros w out.
  assert (wellKeyed (interceptors w)) as Hw.
  { split; [apply (bool_decide_unpack _); reflexivity|repeat constructor]. }
  split; [exact Hw|].
  destruct (unregister_removes_one "A" w Hw)
    as (Hret & Hget & _ & _ & _ & _ & _ & _ & _ & _ & Hagain).
  split; [exact Hret|]. split; [exact Hget|]. split; [reflexivity|exact Hagain].
Defined.

Lemma register_unregister_round_trip_witness :
  let w := Scenario.registered [Scenario.bystander] in
  let out := unregister "A" (register Scenario.handlerA w).2 in
  JsMap.get "A" (interceptors w) = None ∧
  out.1 = Normal true ∧ interceptors out.2 = interceptors w.
Proof.
  intros w out. split; [reflexivity|].
  apply (register_unregister_round_trip Scenario.handlerA w). reflexivity.
Defined.

(** Of a disabled registration, one for the output only and [handlerA], the
    input pipeline calls [handlerA] alone. *)
Lemma only_selected_handlers_are_called_witness :
  let w := Scenario.registered
             [Scenario.disabled; Scenario.outputBystander; Scenario.handlerA] in
  let out := executeInputInterceptors "hi" None None w in
  wellKeyed (interceptors w) ∧
  id ∘ callee <$> spied out.2 = ["A"] ∧
  NoDup (id ∘ callee <$> spied out.2).
Proof.
  intros w out.
  assert (wellKeyed (interceptors w)) as Hw.
  { split; [apply (bool_decide_unpack _); reflexivity|repeat constructor]. }
  split; [exact Hw|]. split; [reflexivity|].
  apply (proj1 only_selected_handlers_are_called "hi" None None w (spied out.2) Hw).
  reflexivity.
Defined.

(** The test [should skip disabled interceptors], beside another handler. *)
Lemma unselected_registration_is_invisible_witness :
  let w := Scenario.registered [Scenario.handlerA] in
  enabled Scenario.disabled = Some false ∧
  JsMap.get "disabled-interceptor" (interceptors w) = None ∧
  (executeInputInterceptors "hi" None None (register Scenario.disabled w).2).1
  = (executeInputInterceptors "hi" None None w).1.
Proof.
  intros w. split; [reflexivity|]. split; [reflexivity|].
  destruct (proj1 unselected_registration_is_invisible Scenario.disabled w
              "hi" None None (or_introl eq_refl)) as [Hnew _].
  exact (proj1 (Hnew eq_refl)).
Defined.




(** * The content filter *)

(** ** The matcher *)

Section RegexFacts.
Import Regex.
Implicit Types (p : Pattern) (x y S : JsString) (c : JsString → option JsString).

Lemma RepeatMatcher_eq a min max c x :
  RepeatMatcher a min max c x =
  match max with
  | Some 0%nat => c x
  | _ =>
      let z :=
        match x with
        | ch :: y =>
            if CharacterSetMatcher a ch
            then RepeatMatcher a (pred min) (pred <$> max) c y
            else None
        | [] => None
        end in
      match min with
      | S _ => z
      | 0%nat => match z with Some r => Some r | None => c x end
      end
  end.
Proof. by destruct x. Qed.

Lemma RepeatMatcher_Some a min max c x r :
  RepeatMatcher a min max c x = Some r →
  ∃ m y, x = (m ++ y)%list ∧ c y = Some r ∧
         ((∀ k, max = Some k → min ≤ k)%nat → (min ≤ length m)%nat).
Proof.
  revert min max. induction x as [|ch x IH]; intros min max.
  - rewrite RepeatMatcher_eq.
    destruct max as [[|k]|], min as [|n]; simpl; try done;
      try (intros Hc; exists [], []; (split; [done|]); split; [done|simpl; lia]).
    intros Hc. exists [], []. split; [done|]. split; [done|].
    intros Hwf. specialize (Hwf _ eq_refl). lia.
  - rewrite RepeatMatcher_eq.
    assert (∀ min' max',
              (if CharacterSetMatcher a ch
               then RepeatMatcher a min' max' c x else None) = Some r →
              ∃ m y, ch :: x = (m ++ y)%list ∧ c y = Some r
                     ∧ ((∀ k, max' = Some k → min' ≤ k)%nat →
                        (S min' ≤ length m)%nat)) as Hstep.
    { intros min' max'. destruct (CharacterSetMatcher a ch); [|done].
      intros (m & y & -> & Hc & Hlen)%IH.
      exists (ch :: m), y. simpl. split; [done|]. split; [done|].
      intros Hwf. specialize (Hlen Hwf). lia. }
    assert ((∀ k, max = Some k → min ≤ k)%nat →
            ∀ k, pred <$> max = Some k → (pred min ≤ k)%nat) as Hwf'.
    { intros Hwf k. destruct max as [k'|]; [|done]. intros [= <-].
      specialize (Hwf _ eq_refl). lia. }
    destruct max as [[|k]|], min as [|n]; simpl.
    + intros Hc. exists [], (ch :: x). split; [done|]. split; [done|simpl; lia].
    + intros Hc. exists [], (ch :: x). split; [done|]. split; [done|].
      intros Hwf. specialize (Hwf _ eq_refl). lia.
    + destruct (if CharacterSetMatcher a ch then _ else _) as [r'|] eqn:Hz.
      * intros [= ->]. destruct (Hstep _ _ Hz) as (m & y & ? & ? & ?).
        exists m, y. split; [done|]. split; [done|lia].
      * intros Hc. exists [], (ch :: x). split; [done|]. split; [done|simpl; lia].
    + intros Hz. destruct (Hstep _ _ Hz) as (m & y & ? & ? & Hlen).
      exists m, y. split; [done|]. split; [done|].
      intros Hwf. specialize (Hlen (Hwf' Hwf)). simpl in *. lia.
    + destruct (if CharacterSetMatcher a ch then _ else _) as [r'|] eqn:Hz.
      * intros [= ->]. destruct (Hstep _ _ Hz) as (m & y & ? & ? & ?).
        exists m, y. split; [done|]. split; [done|lia].
      * intros Hc. exists [], (ch :: x). split; [done|]. split; [done|simpl; lia].
    + intros Hz. destruct (Hstep _ _ Hz) as (m & y & ? & ? & Hlen).
      exists m, y. split; [done|]. split; [done|].
      intros Hwf. specialize (Hlen (Hwf' Hwf)). simpl in *. lia.
Qed.

Lemma Matcher_Some p c x r :
  Matcher p c x = Some r →
  ∃ m y, x = (m ++ y)%list ∧ c y = Some r ∧
         (wellFormed p → (minLength p ≤ length m)%nat).
Proof.
  revert x. induction p as [|t p IH]; intros x; simpl.
  - intros Hc. exists [], x. split; [done|]. split; [done|]. unfold minLength. simpl. lia.
  - intros (m1 & y1 & -> & (m2 & y & -> & Hc & Hlen2)%IH & Hlen1)%RepeatMatcher_Some.
    exists (m1 ++ m2)%list, y. rewrite <-app_assoc. split; [done|]. split; [done|].
    intros [Ht Hwf]%Forall_cons. specialize (Hlen1 Ht). specialize (Hlen2 Hwf).
    unfold minLength in *. csimpl. rewrite length_app. lia.
Qed.

Lemma scan_Some p x i j y :
  scan p x i = Some (j, y) →
  ∃ k, j = (i + k)%nat ∧ (k ≤ length x)%nat ∧
       Matcher p Some (drop k x) = Some y ∧
       ∀ k', (k' < k)%nat → Matcher p Some (drop k' x) = None.
Proof.
  revert i. induction x as [|ch x IH]; intros i; simpl.
  - destruct (Matcher p Some []) as [y'|] eqn:Hm; [|done].
    intros [= <- <-]. exists 0%nat. split; [lia|]. split; [simpl; lia|].
    split; [done|]. intros; lia.
  - destruct (Matcher p Some (ch :: x)) as [y'|] eqn:Hm.
    + intros [= <- <-]. exists 0%nat. split; [lia|]. split; [lia|].
      split; [done|]. intros; lia.
    + intros (k & -> & Hk & Hmatch & Hfirst)%IH.
      exists (S k). split; [lia|]. split; [simpl; lia|]. split; [done|].
      intros [|k'] ?; [done|]. apply Hfirst. lia.
Qed.

Lemma scan_None p x i :
  scan p x i = None →
  ∀ k, (k ≤ length x)%nat → Matcher p Some (drop k x) = None.
Proof.
  revert i. induction x as [|ch x IH]; intros i; simpl.
  - destruct (Matcher p Some []) as [y'|] eqn:Hm; [done|].
    intros _ [|k] ?; [done|]. simpl in *. lia.
  - destruct (Matcher p Some (ch :: x)) as [y'|] eqn:Hm; [done|].
    intros Hscan [|k] ?; [done|]. simpl. eapply IH; [done|]. simpl in *; lia.
Qed.

Lemma RepeatMatcher_sound a min max c x r :
  (∀ k, max = Some k → min ≤ k)%nat →
  RepeatMatcher a min max c x = Some r →
  ∃ m y, x = (m ++ y)%list ∧ c y = Some r ∧
         repeats {| atom := a; q_min := min; q_max := max |} m.
Proof.
  unfold repeats. simpl.
  revert min max r. induction x as [|ch x IH]; intros min max r Hwf;
    rewrite RepeatMatcher_eq.
  - destruct max as [[|k]|], min as [|n]; simpl; try done; intros Hc;
      exists [], []; (split; [done|]); (split; [done|]);
      (split; [constructor|]); simpl; (split; [|intros ? [= <-]; lia || done]);
      try lia.
    specialize (Hwf _ eq_refl). lia.
  - assert (∀ min' max' r',
              (∀ k, max' = Some k → min' ≤ k)%nat →
              (if CharacterSetMatcher a ch
               then RepeatMatcher a min' max' c x else None) = Some r' →
              ∃ m y, ch :: x = (m ++ y)%list ∧ c y = Some r' ∧
                     Forall (λ ch, CharacterSetMatcher a ch = true) m ∧
                     (S min' ≤ length m)%nat ∧
                     ∀ k, max' = Some k → (length m ≤ S k)%nat) as Hstep.
    { intros min' max' r' Hwf'.
      destruct (CharacterSetMatcher a ch) eqn:Hch; [|done].
      intros (m & y & -> & Hc & Hall & Hmin & Hmax)%IH; [|done].
      exists (ch :: m), y. simpl. split; [done|]. split; [done|].
      split; [by constructor|]. split; [lia|].
      intros k Hk. specialize (Hmax k Hk). lia. }
    assert (∀ k, pred <$> max = Some k → (pred min ≤ k)%nat) as Hwf'.
    { intros k. destruct max as [k'|]; [|done]. intros [= <-].
      specialize (Hwf _ eq_refl). lia. }
    assert (∀ r', c (ch :: x) = Some r' → min = 0%nat →
              ∃ m y, ch :: x = (m ++ y)%list ∧ c y = Some r' ∧
                     Forall (λ ch, CharacterSetMatcher a ch = true) m ∧
                     (min ≤ length m)%nat ∧
                     ∀ k, max = Some k → (length m ≤ k)%nat) as Hstop.
    { intros r' Hc ->. exists [], (ch :: x). split; [done|]. split; [done|].
      split; [constructor|]. simpl. split; [lia|]. intros; lia. }
    destruct max as [[|k]|], min as [|n]; simpl.
    + intros Hc. by apply Hstop.
    + specialize (Hwf _ eq_refl). lia.
    + destruct (if CharacterSetMatcher a ch then _ else _) as [r'|] eqn:Hz.
      * intros [= ->]. destruct (Hstep _ _ _ Hwf' Hz) as (m & y & ? & ? & ? & ? & Hmax).
        exists m, y. split; [done|]. split; [done|]. split; [done|].
        split; [lia|]. intros ? [= <-]. by apply (Hmax k).
      * intros Hc. by apply Hstop.
    + intros Hz. destruct (Hstep _ _ _ Hwf' Hz) as (m & y & ? & ? & ? & ? & Hmax).
      exists m, y. split; [done|]. split; [done|]. split; [done|].
      split; [simpl in *; lia|]. intros ? [= <-]. by apply (Hmax k).
    + destruct (if CharacterSetMatcher a ch then _ else _) as [r'|] eqn:Hz.
      * intros [= ->]. destruct (Hstep _ _ _ Hwf' Hz) as (m & y & ? & ? & ? & ? & Hmax).
        exists m, y. split; [done|]. split; [done|]. split; [done|].
        split; [lia|]. done.
      * intros Hc. by apply Hstop.
    + intros Hz. destruct (Hstep _ _ _ Hwf' Hz) as (m & y & ? & ? & ? & ? & Hmax).
      exists m, y. split; [done|]. split; [done|]. split; [done|].
      split; [simpl in *; lia|]. done.
Qed.

Lemma RepeatMatcher_complete a min max c m y :
  repeats {| atom := a; q_min := min; q_max := max |} m →
  is_Some (c y) →
  is_Some (RepeatMatcher a min max c (m ++ y)%list).
Proof.
  unfold repeats. simpl. intros (Hall & Hmin & Hmax) Hc.
  revert min max Hmin Hmax.
  induction Hall as [|ch m Hch _ IH]; intros min max Hmin Hmax;
    rewrite RepeatMatcher_eq.
  - simpl in Hmin. assert (min = 0%nat) as -> by lia. simpl.
    destruct max as [[|k]|]; [done| |].
    + by destruct (match y with [] => _ | _ => _ end).
    + by destruct (match y with [] => _ | _ => _ end).
  - simpl in *. rewrite Hch.
    assert (is_Some (RepeatMatcher a (pred min) (pred <$> max) c (m ++ y)%list))
      as [r Hr].
    { apply IH; [lia|]. intros k. destruct max as [k'|]; [|done].
      intros [= <-]. specialize (Hmax _ eq_refl). lia. }
    rewrite Hr.
    destruct max as [[|k]|]; [specialize (Hmax _ eq_refl); lia|..];
      by destruct min.
Qed.

Lemma Matcher_sound p c x r :
  wellFormed p →
  Matcher p c x = Some r →
  ∃ m y, x = (m ++ y)%list ∧ c y = Some r ∧ generates p m.
Proof.
  intros Hwf. revert x. induction Hwf as [|t p Ht _ IH]; intros x; simpl.
  - intros Hc. by exists [], x.
  - intros (m1 & y1 & -> & (m2 & y & -> & Hc & Hgen)%IH & Hrep)%RepeatMatcher_sound;
      [|done].
    exists (m1 ++ m2)%list, y. rewrite <-app_assoc. split; [done|]. split; [done|].
    exists m1, m2. split; [done|]. split; [|done]. by destruct t.
Qed.

Lemma Matcher_complete p c m y :
  generates p m → is_Some (c y) → is_Some (Matcher p c (m ++ y)%list).
Proof.
  revert m. induction p as [|t p IH]; intros m; simpl.
  - by intros ->.
  - intros (m1 & m2 & -> & Hrep & Hgen) Hc. rewrite <-app_assoc.
    apply RepeatMatcher_complete; [by destruct t|]. by apply IH.
Qed.

(** A pattern has a match in a text from index 0 on exactly when the text
    contains a text the pattern stands for. *)
Lemma occurs_generates p S :
  wellFormed p →
  occursFrom p S 0 ↔
  ∃ pre m post, S = (pre ++ m ++ post)%list ∧ generates p m.
Proof.
  intros Hwf. split.
  - intros (j & Hj & [y (m & y' & Hdrop & [= ->] & Hgen)%Matcher_sound]); [|done].
    exists (take j S), m, y. split; [|done].
    by rewrite <-Hdrop, take_drop.
  - intros (pre & m & post & -> & Hgen). exists (length pre). split.
    + rewrite !length_app. lia.
    + rewrite drop_app_length. by apply Matcher_complete.
Qed.

Lemma Matcher_shorter p x y :
  wellFormed p → (0 < minLength p)%nat →
  Matcher p Some x = Some y → (length y < length x)%nat.
Proof.
  intros Hwf Hmin (m & y' & -> & [= ->] & Hlen)%Matcher_Some.
  specialize (Hlen Hwf). rewrite length_app. lia.
Qed.

Lemma occursFrom_scan p S i :
  (i ≤ length S)%nat →
  occursFrom p S i ↔ is_Some (scan p (drop i S) i).
Proof.
  intros Hi. split.
  - intros (j & Hj & Hm). destruct (scan p (drop i S) i) as [r|] eqn:Hscan; [done|].
    pose proof (scan_None _ _ _ Hscan (j - i)%nat) as Hnone.
    rewrite length_drop, drop_drop in Hnone.
    replace (i + (j - i))%nat with j in Hnone by lia.
    rewrite Hnone in Hm by lia. by destruct Hm.
  - intros [[j y] (k & -> & Hk & Hm & _)%scan_Some].
    rewrite length_drop in Hk. rewrite drop_drop in Hm.
    exists (i + k)%nat. split; [lia|]. by rewrite Hm.
Qed.

Lemma occursFrom_beyond p S i :
  (length S < i)%nat → ¬ occursFrom p S i.
Proof. intros Hi (j & Hj & _). lia. Qed.

#[export] Instance occursFrom_dec p S i : Decision (occursFrom p S i).
Proof.
  destruct (decide (i ≤ length S)%nat) as [Hi|Hi].
  - destruct (scan p (drop i S) i) as [r|] eqn:Hscan.
    + left. apply occursFrom_scan; [done|]. by rewrite Hscan.
    + right. intros Hocc%occursFrom_scan; [|done]. rewrite Hscan in Hocc.
      by destruct Hocc.
  - right. apply occursFrom_beyond. lia.
Defined.

Lemma drop_suffix {A} (l u v : list A) (k : nat) :
  drop k l = (u ++ v)%list → (k ≤ length l)%nat →
  v = drop (length l - length v) l ∧ (k + length u + length v = length l)%nat.
Proof.
  intros Hdrop Hk.
  assert (length (drop k l) = length (u ++ v)%list) as Hlen by by rewrite Hdrop.
  rewrite length_drop, length_app in Hlen. split; [|lia].
  replace (length l - length v)%nat with (k + length u)%nat by lia.
  rewrite <-drop_drop, Hdrop. by rewrite drop_app_length.
Qed.

Lemma exec_Some R S i e R' :
  RegExpBuiltinExec R S = (Some (i, e), R') →
  (lastIndex R ≤ i ≤ e)%nat ∧ (e ≤ length S)%nat ∧ R' = with_lastIndex e R ∧
  Matcher (source R) Some (drop i S) = Some (drop e S) ∧
  (∀ j, (lastIndex R ≤ j < i)%nat → Matcher (source R) Some (drop j S) = None) ∧
  (wellFormed (source R) → (i + minLength (source R) ≤ e)%nat).
Proof.
  unfold RegExpBuiltinExec.
  destruct (decide (length S < lastIndex R)%nat) as [|Hle]; [done|].
  destruct (scan _ _ _) as [[j y]|] eqn:Hscan; [|done].
  intros [= <- <- <-].
  apply scan_Some in Hscan as (k & -> & Hk & Hm & Hfirst).
  rewrite length_drop in Hk. rewrite drop_drop in Hm.
  pose proof Hm as (m & y' & Hdrop & [= ->] & Hlen)%Matcher_Some.
  destruct (drop_suffix _ _ _ _ Hdrop) as [Hy Hsum]; [lia|].
  split; [lia|]. split; [lia|]. split; [done|]. split; [by rewrite <-Hy|].
  split.
  - intros j Hj. specialize (Hfirst (j - lastIndex R)%nat).
    rewrite drop_drop in Hfirst.
    replace (lastIndex R + (j - lastIndex R))%nat with j in Hfirst by lia.
    apply Hfirst. lia.
  - intros Hwf. specialize (Hlen Hwf). lia.
Qed.

Lemma exec_None R S R' :
  RegExpBuiltinExec R S = (None, R') →
  R' = with_lastIndex 0 R ∧ ¬ occursFrom (source R) S (lastIndex R).
Proof.
  unfold RegExpBuiltinExec.
  destruct (decide (length S < lastIndex R)%nat) as [Hlt|Hle].
  - intros [= <-]. split; [done|]. by apply occursFrom_beyond.
  - destruct (scan _ _ _) as [[j y]|] eqn:Hscan; [done|].
    intros [= <-]. split; [done|].
    intros Hocc%occursFrom_scan; [|lia]. rewrite Hscan in Hocc. by destruct Hocc.
Qed.

(** [test] says whether the pattern has a match at or after [lastIndex],
    and leaves [lastIndex] at the end of the first such match, or at 0. *)
Lemma test_spec R S :
  ((test R S).1 = true ↔ occursFrom (source R) S (lastIndex R)) ∧
  source (test R S).2 = source R ∧
  ((test R S).1 = false → (test R S).2 = with_lastIndex 0 R).
Proof.
  unfold test. destruct (RegExpBuiltinExec R S) as [[[i e]|] R'] eqn:Hexec; simpl.
  - apply exec_Some in Hexec as (Hi & He & -> & Hm & _).
    split; [|done]. split; [|done]. intros _. exists i. split; [lia|].
    by rewrite Hm.
  - apply exec_None in Hexec as [-> Hnone]. split; [|done]. split; [done|].
    intros. by exfalso.
Qed.
End RegexFacts.

(** ** The patterns of the filter *)

Section FilterFacts.
Import Regex ContentFilter.
Implicit Types (p : Pattern) (x y S text : JsString) (R : RegExp)
  (array before after : list RegExp) (realm : Realm).

Lemma test_found R S i e R' :
  RegExpBuiltinExec R S = (Some (i, e), R') → test R S = (true, with_lastIndex e R).
Proof.
  intros Hexec. unfold test. rewrite Hexec.
  by apply exec_Some in Hexec as (_ & _ & -> & _).
Qed.

Lemma test_not_found R S :
  ¬ occursFrom (source R) S (lastIndex R) → test R S = (false, with_lastIndex 0 R).
Proof.
  intros Hnone. destruct (test_spec R S) as (Hiff & _ & Hfalse).
  destruct (test R S) as [[] R'] eqn:Htest; simpl in *.
  - destruct Hnone. by apply Hiff.
  - by rewrite Hfalse.
Qed.

Lemma some_test_spec array S :
  ((some_test array S).1 = true
   ↔ Exists (λ R, occursFrom (source R) S (lastIndex R)) array) ∧
  source <$> (some_test array S).2 = source <$> array ∧
  ((some_test array S).1 = false
   → (some_test array S).2 = with_lastIndex 0 <$> array).
Proof.
  induction array as [|R array (IHiff & IHsrc & IHfalse)].
  - split; [|done]. split; [done|]. by intros ?%Exists_nil.
  - destruct (test_spec R S) as (Hiff & Hsrc & Hfalse).
    cbn [some_test]. destruct (test R S) as [[] R'] eqn:Htest.
    + cbn [fst snd] in *. split; [|split; [by rewrite !fmap_cons, Hsrc|done]].
      split; [|done]. intros _. apply Exists_cons_hd. by apply Hiff.
    + destruct (some_test array S) as [found array'] eqn:Hsome.
      cbn [fst snd] in *. split; [|split].
      * rewrite Exists_cons, IHiff. split; [by right|].
        intros [Hocc|?]; [|done]. apply Hiff in Hocc. done.
      * by rewrite !fmap_cons, Hsrc, IHsrc.
      * intros Hfound. by rewrite fmap_cons, Hfalse, IHfalse.
Qed.

Lemma some_test_first before R after S i e R' :
  Forall (λ R0, ¬ occursFrom (source R0) S (lastIndex R0)) before →
  RegExpBuiltinExec R S = (Some (i, e), R') →
  some_test (before ++ R :: after) S
  = (true, (with_lastIndex 0 <$> before) ++ with_lastIndex e R :: after)%list.
Proof.
  intros Hbefore Hexec. induction Hbefore as [|R0 before Hnone _ IH]; simpl.
  - by rewrite (test_found _ _ _ _ _ Hexec).
  - rewrite (test_not_found _ _ Hnone). by rewrite IH.
Qed.

Lemma some_test_found array S :
  (some_test array S).1 = true →
  ∃ before R after i e,
    array = (before ++ R :: after)%list ∧
    Forall (λ R0, ¬ occursFrom (source R0) S (lastIndex R0)) before ∧
    RegExpBuiltinExec R S = (Some (i, e), with_lastIndex e R) ∧
    (some_test array S).2
    = ((with_lastIndex 0 <$> before) ++ with_lastIndex e R :: after)%list.
Proof.
  induction array as [|R array IH]; simpl; [done|].
  destruct (test R S) as [[] R'] eqn:Htest; simpl.
  - intros _. unfold test in Htest.
    destruct (RegExpBuiltinExec R S) as [[[i e]|] R''] eqn:Hexec; [|done].
    injection Htest as <-.
    pose proof Hexec as (_ & _ & -> & _)%exec_Some.
    by exists [], R, array, i, e.
  - destruct (some_test array S) as [found array'] eqn:Hsome; simpl in *.
    intros (before & R0 & after & i & e & -> & Hbefore & Hexec & ->)%IH.
    destruct (test_spec R S) as (Hiff & _ & Hfalse). rewrite Htest in *.
    simpl in *. rewrite Hfalse by done.
    exists (R :: before), R0, after, i, e. split; [done|].
    split; [|done]. constructor; [|done]. intros Hocc%Hiff. done.
Qed.

Lemma atRest_fmap array : atRest array → with_lastIndex 0 <$> array = array.
Proof.
  induction 1 as [|[p i] array Hi _ IH]; [done|]. csimpl. rewrite IH.
  simpl in Hi. by subst i.
Qed.

Lemma atRest_with array : atRest (with_lastIndex 0 <$> array).
Proof. apply Forall_fmap, Forall_true. done. Qed.

Lemma replaceFrom_none p (replacement : JsString) x :
  (∀ k, (k ≤ length x)%nat → Matcher p Some (drop k x) = None) →
  replaceFrom p replacement x 0 = x.
Proof.
  induction x as [|ch x IH]; intros Hnone.
  - pose proof (Hnone 0%nat (Nat.le_refl _)) as H0. simpl in *. by rewrite H0.
  - pose proof (Hnone 0%nat (Nat.le_0_l _)) as H0. simpl in *. rewrite H0.
    rewrite IH; [done|].
    intros k Hk. apply (Hnone (S k)). lia.
Qed.

Lemma replace_none R (replacement : JsString) S :
  ¬ occursFrom (source R) S 0 →
  replace R replacement S = (S, with_lastIndex 0 R).
Proof.
  intros Hnone. unfold replace. rewrite replaceFrom_none; [done|].
  intros k Hk. destruct (Matcher _ _ _) eqn:Hm; [|done].
  destruct Hnone. exists k. split; [lia|]. by rewrite Hm.
Qed.

Lemma forPatterns_spec array x :
  (forPatterns array x).2 = with_lastIndex 0 <$> array ∧
  (Forall (λ R, ¬ occursFrom (source R) x 0) array → (forPatterns array x).1 = x).
Proof.
  revert x. induction array as [|R array IH]; intros x; simpl; [done|].
  destruct (IH (replaceFrom (source R) (units "[REDACTED]") x 0)) as [IH2 IH1].
  destruct (forPatterns array _) as [redacted rest] eqn:Hfor. simpl in *.
  split; [by rewrite IH2|].
  intros [Hnone Hrest]%Forall_cons.
  pose proof (replace_none R (units "[REDACTED]") x Hnone) as [= Hx].
  rewrite Hx in Hfor. specialize (IH x) as [_ IHx]. rewrite Hfor in IHx.
  by apply IHx.
Qed.

Lemma scan_first p x i k y :
  (k ≤ length x)%nat →
  Matcher p Some (drop k x) = Some y →
  (∀ k', (k' < k)%nat → Matcher p Some (drop k' x) = None) →
  scan p x i = Some ((i + k)%nat, y).
Proof.
  revert x i. induction k as [|k IH]; intros x i Hk Hm Hfirst.
  - rewrite drop_0 in Hm. destruct x; simpl; rewrite Hm; do 2 f_equal; lia.
  - destruct x as [|ch x]; [simpl in Hk; lia|].
    pose proof (Hfirst 0%nat (Nat.lt_0_succ _)) as H0. rewrite drop_0 in H0.
    simpl. rewrite H0. rewrite (IH x (S i)).
    + do 2 f_equal. lia.
    + simpl in Hk. lia.
    + done.
    + intros k' Hk'. apply (Hfirst (S k')). lia.
Qed.

Lemma exec_first R S i y :
  (lastIndex R ≤ i ≤ length S)%nat →
  Matcher (source R) Some (drop i S) = Some y →
  (∀ j, (lastIndex R ≤ j < i)%nat → Matcher (source R) Some (drop j S) = None) →
  RegExpBuiltinExec R S
  = (Some (i, (length S - length y)%nat),
     with_lastIndex (length S - length y) R).
Proof.
  intros Hi Hm Hfirst. unfold RegExpBuiltinExec.
  rewrite decide_False by lia.
  rewrite (scan_first _ _ _ (i - lastIndex R) y).
  - by replace (lastIndex R + (i - lastIndex R))%nat with i by lia.
  - rewrite length_drop. lia.
  - rewrite drop_drop. by replace (lastIndex R + (i - lastIndex R))%nat with i by lia.
  - intros k' Hk'. rewrite drop_drop. apply Hfirst. lia.
Qed.

Lemma sources_wellFormed :
  Forall (λ p, wellFormed p ∧ (0 < minLength p)%nat) sources.
Proof.
  unfold sources, wellFormed.
  repeat (apply Forall_cons; split; [split; [|vm_compute; lia]|]);
    [..|apply Forall_nil_2];
    apply Forall_forall; intros t Ht k Hk; vm_compute in Ht;
    repeat (apply elem_of_cons in Ht as [->|Ht]; [simpl in *; simplify_eq; lia|]);
    by apply elem_of_nil in Ht.
Qed.

Lemma no_match_at_the_end p S :
  wellFormed p → (0 < minLength p)%nat → ¬ occursFrom p S (length S).
Proof.
  intros Hwf Hmin (j & Hj & [y Hm]).
  apply Matcher_shorter in Hm; [|done..].
  rewrite length_drop in Hm. lia.
Qed.

Lemma some_test_none array S :
  Forall (λ R, ¬ occursFrom (source R) S (lastIndex R)) array →
  some_test array S = (false, with_lastIndex 0 <$> array).
Proof.
  intros Hnone. destruct (some_test_spec array S) as (Hiff & _ & Hfalse).
  destruct (some_test array S) as [[] array'] eqn:Hsome; simpl in *.
  - destruct Hiff as [Hex _]. specialize (Hex eq_refl).
    apply Exists_exists in Hex as (R & HR & Hocc).
    rewrite Forall_forall in Hnone. by destruct (Hnone R HR).
  - by rewrite Hfalse.
Qed.

(** A text in which one pattern alone has a match, the first of which ends
    where the text ends: it is found when the patterns are at rest, and is
    not found the next time. *)
Lemma some_test_twice text (before : list Pattern) p (after : list Pattern) i :
  sources = (before ++ p :: after)%list →
  Forall (λ q, ¬ occursFrom q text 0) before →
  Forall (λ q, ¬ occursFrom q text 0) after →
  Matcher p Some (drop i text) = Some [] →
  (∀ j, (j < i)%nat → Matcher p Some (drop j text) = None) →
  let moved := ((RegExpLiteral <$> before)
                ++ {| source := p; lastIndex := length text |}
                :: (RegExpLiteral <$> after))%list in
  some_test (RegExpLiteral <$> sources) text = (true, moved) ∧
  some_test moved text = (false, RegExpLiteral <$> sources).
Proof.
  intros Hsources Hbefore Hafter Hm Hfirst moved.
  pose proof sources_wellFormed as Hwf. rewrite Hsources in Hwf.
  apply Forall_app in Hwf as [_ [[Hwfp Hminp] _]%Forall_cons].
  assert (i ≤ length text)%nat as Hi.
  { destruct (decide (i ≤ length text)%nat); [done|].
    rewrite drop_ge in Hm by lia.
    apply Matcher_shorter in Hm; [|done..]. simpl in Hm. lia. }
  assert (∀ l : list Pattern, with_lastIndex 0 <$> (RegExpLiteral <$> l)
                             = RegExpLiteral <$> l) as Hrest.
  { intros l. rewrite <-list_fmap_compose. by apply list_fmap_ext. }
  assert (∀ l : list Pattern, Forall (λ q, ¬ occursFrom q text 0) l →
            Forall (λ R, ¬ occursFrom (source R) text (lastIndex R))
              (RegExpLiteral <$> l)) as Hnone.
  { intros l Hl. by apply Forall_fmap. }
  split.
  - rewrite Hsources, fmap_app, fmap_cons.
    erewrite some_test_first; [| by apply Hnone |].
    2:{ apply (exec_first (RegExpLiteral p) text i []); [simpl; lia|done|].
        intros j Hj. apply Hfirst. lia. }
    simpl. by rewrite Hrest, Nat.sub_0_r.
  - rewrite some_test_none.
    + subst moved. rewrite fmap_app, fmap_cons, !Hrest.
      by rewrite Hsources, fmap_app, fmap_cons.
    + subst moved. apply Forall_app. split; [by apply Hnone|].
      constructor; [|by apply Hnone]. simpl.
      by apply no_match_at_the_end.
Qed.

Lemma replaceFrom_skip p (replacement : JsString) x (n : nat) :
  (n ≤ length x)%nat →
  replaceFrom p replacement x n = replaceFrom p replacement (drop n x) 0.
Proof.
  revert n. induction x as [|ch x IH]; intros [|n] Hn; simpl in *; try done.
  - lia.
  - apply IH. lia.
Qed.

Lemma replaceFrom_first p (replacement : JsString) x (k : nat) y :
  Matcher p Some (drop k x) = Some y →
  (length y < length (drop k x))%nat →
  (∀ k', (k' < k)%nat → Matcher p Some (drop k' x) = None) →
  replaceFrom p replacement x 0
  = (take k x ++ replacement ++ replaceFrom p replacement y 0)%list.
Proof.
  revert x. induction k as [|k IH]; intros x Hm Hlen Hfirst.
  - rewrite drop_0 in Hm, Hlen. simpl.
    destruct x as [|ch x]; [simpl in Hlen; lia|].
    pose proof Hm as (m & y' & Hx & [= ->] & _)%Matcher_Some.
    simpl. rewrite Hm.
    assert (length (ch :: x) = length (m ++ y)%list) as Hlength by by rewrite Hx.
    rewrite length_app in Hlength. simpl in *.
    destruct (S (length x) - length y)%nat as [|j] eqn:Hj; [lia|].
    rewrite replaceFrom_skip by lia. do 2 f_equal.
    destruct m as [|ch' m]; [simpl in *; lia|].
    injection Hx as -> ->. simpl in *.
    replace j with (length m) by lia. by rewrite drop_app_length.
  - destruct x as [|ch x]; [simpl in Hlen; lia|].
    pose proof (Hfirst 0%nat (Nat.lt_0_succ _)) as H0. rewrite drop_0 in H0.
    simpl in *. rewrite H0. f_equal. apply IH; [done..|].
    intros k' Hk'. apply (Hfirst (S k')). lia.
Qed.

Lemma forPatterns_sources array array' x :
  source <$> array = source <$> array' →
  (forPatterns array x).1 = (forPatterns array' x).1.
Proof.
  revert array' x. induction array as [|R array IH]; intros [|R' array'] x;
    try done.
  csimpl. intros [= HR Hrest]. rewrite HR.
  specialize (IH array' (replaceFrom (source R') (units "[REDACTED]") x 0) Hrest).
  destruct (forPatterns array _), (forPatterns array' _). simpl in *. done.
Qed.
End FilterFacts.

(** ** The handlers of the filter *)

Section FilterProperties.
Import Regex ContentFilter.
Context {Parts Value Others GeminiEventType Unknown Thrown : Type}.
Context `{!EqDecision GeminiEventType}.
Context (Content : GeminiEventType) (JSON_stringify : Parts → JsString).
Implicit Types (text : JsString) (realm : Realm) (options : option Options).
Local Abbreviation PLU := (PartListUnion Parts).
Local Abbreviation Event := (ServerGeminiStreamEvent Value Others GeminiEventType).

Lemma containsSensitiveInfo_unfold text realm :
  containsSensitiveInfo text realm
  = ((some_test (SENSITIVE_PATTERNS realm) text).1,
     with_patterns (some_test (SENSITIVE_PATTERNS realm) text).2 realm).
Proof. unfold containsSensitiveInfo. by destruct (some_test _ _). Qed.

Lemma redactSensitiveInfo_unfold text realm :
  redactSensitiveInfo text realm
  = ((forPatterns (SENSITIVE_PATTERNS realm) text).1,
     with_patterns (forPatterns (SENSITIVE_PATTERNS realm) text).2 realm).
Proof. unfold redactSensitiveInfo. by destruct (forPatterns _ _). Qed.

(** X12. [containsSensitiveInfo] does not say whether a pattern has a match
    in the text: it says whether some pattern has a match that starts at
    or after the [lastIndex] of that pattern.  The patterns tried without
    success are left with [lastIndex] 0, the one that matched with the
    index at which its match ends, and the ones after it as they were.  Only
    when all patterns are at rest is the answer that of the text alone. *)
Theorem detection_follows_lastIndex text realm :
  let out := containsSensitiveInfo text realm in
  (out.1 = true ↔
   ∃ R, R ∈ SENSITIVE_PATTERNS realm ∧ occursFrom (source R) text (lastIndex R)) ∧
  (atRest (SENSITIVE_PATTERNS realm) →
   (out.1 = true ↔
    ∃ R, R ∈ SENSITIVE_PATTERNS realm ∧ occursFrom (source R) text 0)) ∧
  source <$> SENSITIVE_PATTERNS out.2 = source <$> SENSITIVE_PATTERNS realm ∧
  console out.2 = console realm ∧
  (out.1 = false →
   SENSITIVE_PATTERNS out.2 = with_lastIndex 0 <$> SENSITIVE_PATTERNS realm) ∧
  (out.1 = true →
   ∃ before R after i e,
     SENSITIVE_PATTERNS realm = (before ++ R :: after)%list ∧
     Forall (λ R0, ¬ occursFrom (source R0) text (lastIndex R0)) before ∧
     (lastIndex R ≤ i)%nat ∧
     (∀ j, (lastIndex R ≤ j < i)%nat →
           Matcher (source R) Some (drop j text) = None) ∧
     Matcher (source R) Some (drop i text) = Some (drop e text) ∧
     SENSITIVE_PATTERNS out.2
     = ((with_lastIndex 0 <$> before) ++ with_lastIndex e R :: after)%list).
Proof.
  intros out. subst out. rewrite containsSensitiveInfo_unfold. simpl.
  destruct (some_test_spec (SENSITIVE_PATTERNS realm) text) as (Hiff & Hsrc & Hfalse).
  assert ((some_test (SENSITIVE_PATTERNS realm) text).1 = true ↔
          ∃ R, R ∈ SENSITIVE_PATTERNS realm
               ∧ occursFrom (source R) text (lastIndex R)) as Hiff'.
  { by rewrite Hiff, Exists_exists. }
  split; [done|]. split.
  { intros Hrest. rewrite Hiff'. unfold atRest in Hrest.
    rewrite Forall_forall in Hrest.
    split; intros (R & HR & Hocc); exists R; (split; [done|]).
    - by rewrite <-(Hrest _ HR).
    - by rewrite (Hrest _ HR). }
  split; [done|]. split; [done|]. split; [done|].
  intros (before & R & after & i & e & Harray & Hbefore & Hexec & Hout)%some_test_found.
  exists before, R, after, i, e.
  apply exec_Some in Hexec as (Hi & He & _ & Hm & Hfirst & _).
  split; [done|]. split; [done|]. split; [lia|]. done.
Qed.

Lemma at_rest_detection text realm :
  atRest (SENSITIVE_PATTERNS realm) →
  ((some_test (SENSITIVE_PATTERNS realm) text).1 = true ↔
   ∃ R, R ∈ SENSITIVE_PATTERNS realm ∧ occursFrom (source R) text 0) ∧
  ((some_test (SENSITIVE_PATTERNS realm) text).1 = false →
   (some_test (SENSITIVE_PATTERNS realm) text).2 = SENSITIVE_PATTERNS realm).
Proof.
  intros Hrest.
  destruct (some_test_spec (SENSITIVE_PATTERNS realm) text) as (Hiff & _ & Hfalse).
  split.
  - rewrite Hiff, Exists_exists. unfold atRest in Hrest.
    rewrite Forall_forall in Hrest.
    split; intros (R & HR & Hocc); exists R; (split; [done|]).
    + by rewrite <-(Hrest _ HR).
    + by rewrite (Hrest _ HR).
  - intros Hnot. by rewrite (Hfalse Hnot), (atRest_fmap _ Hrest).
Qed.

Lemma with_patterns_same realm :
  with_patterns (SENSITIVE_PATTERNS realm) realm = realm.
Proof. by destruct realm. Qed.

Lemma redacted_at_rest text realm realm' :
  atRest (SENSITIVE_PATTERNS realm) →
  source <$> SENSITIVE_PATTERNS realm' = source <$> SENSITIVE_PATTERNS realm →
  (redactSensitiveInfo text realm').1 = (redactSensitiveInfo text realm).1 ∧
  SENSITIVE_PATTERNS (redactSensitiveInfo text realm').2 = SENSITIVE_PATTERNS realm ∧
  console (redactSensitiveInfo text realm').2 = console realm'.
Proof.
  intros Hrest Hsrc. rewrite !redactSensitiveInfo_unfold. simpl.
  split; [by apply forPatterns_sources|]. split; [|done].
  rewrite (proj1 (forPatterns_spec _ _)).
  rewrite <-(atRest_fmap _ Hrest).
  clear Hrest. revert Hsrc. generalize (SENSITIVE_PATTERNS realm').
  induction (SENSITIVE_PATTERNS realm) as [|R array IH]; intros [|R' array'];
    try done.
  rewrite !fmap_cons. intros [= HR Harray]. rewrite (IH _ Harray).
  unfold with_lastIndex. by rewrite HR.
Qed.

(** The answer of [onInput] when the filter redacts and the message is a
    string. *)
Lemma onInput_redacts :
  ∀ options s retry realm,
     default true (options ≫= blockSensitiveInput) = true →
     default false (options ≫= redactInsteadOfBlock) = true →
     atRest (SENSITIVE_PATTERNS realm) →
     let out := onInput (Unknown := Unknown) JSON_stringify options
                  {| message := StringMessage s; isRetry := retry |} realm in
     SENSITIVE_PATTERNS out.2 = SENSITIVE_PATTERNS realm ∧
     ((∃ R, R ∈ SENSITIVE_PATTERNS realm ∧ occursFrom (source R) s 0) →
      out.1 = Some {| in_message :=
                        Some (StringMessage (redactSensitiveInfo s realm).1);
                      in_blocked := None; blockReason := None;
                      in_metadata := None |} ∧
      console out.2
      = (console realm
         ++ ["[Content Filter] Redacted sensitive information from input"])%list) ∧
     (¬ (∃ R, R ∈ SENSITIVE_PATTERNS realm ∧ occursFrom (source R) s 0) →
      out = (None, realm) ∧ (redactSensitiveInfo s realm).1 = s).
Proof.
  intros options s retry realm Hblock Hredact Hrest out. subst out.
  unfold onInput. rewrite Hblock, Hredact. simpl.
  rewrite containsSensitiveInfo_unfold.
  destruct (at_rest_detection s realm Hrest) as [Hiff Hsame].
  destruct ((some_test (SENSITIVE_PATTERNS realm) s).1) eqn:Hfound; simpl.
  - rewrite redactSensitiveInfo_unfold. simpl.
    destruct (redacted_at_rest s realm
                (with_patterns (some_test (SENSITIVE_PATTERNS realm) s).2 realm)
                Hrest) as (Htext & Hps & Hconsole).
    { apply (some_test_spec (SENSITIVE_PATTERNS realm) s). }
    rewrite redactSensitiveInfo_unfold in Htext, Hps. simpl in Htext, Hps.
    split; [done|]. split.
    + intros _. by rewrite Htext.
    + intros Hnone. destruct Hnone. by apply Hiff.
  - rewrite (Hsame eq_refl), with_patterns_same. split; [done|]. split.
    + intros Hocc%Hiff. done.
    + intros Hnone. split; [done|]. rewrite redactSensitiveInfo_unfold. simpl.
      apply forPatterns_spec. apply Forall_forall. intros R HR Hocc.
      destruct Hnone. by exists R.
Qed.

(** X13. When the filter redacts, its answer is that of the text alone.
    Called with patterns at rest on a message that is a string, [onInput]
    leaves them at rest: it returns nothing and changes nothing when no
    pattern has a match in the message, and otherwise returns the redacted
    message, and nothing else, and warns once.  A text in which no pattern
    has a match is redacted to itself.  The same holds for [onOutput] on a
    content event whose value is a string, of which only the value is
    replaced. *)
Theorem redaction_leaves_the_patterns_at_rest :
  (∀ options s retry realm,
     default true (options ≫= blockSensitiveInput) = true →
     default false (options ≫= redactInsteadOfBlock) = true →
     atRest (SENSITIVE_PATTERNS realm) →
     let out := onInput (Unknown := Unknown) JSON_stringify options
                  {| message := StringMessage s; isRetry := retry |} realm in
     SENSITIVE_PATTERNS out.2 = SENSITIVE_PATTERNS realm ∧
     ((∃ R, R ∈ SENSITIVE_PATTERNS realm ∧ occursFrom (source R) s 0) →
      out.1 = Some {| in_message :=
                        Some (StringMessage (redactSensitiveInfo s realm).1);
                      in_blocked := None; blockReason := None;
                      in_metadata := None |} ∧
      console out.2
      = (console realm
         ++ ["[Content Filter] Redacted sensitive information from input"])%list) ∧
     (¬ (∃ R, R ∈ SENSITIVE_PATTERNS realm ∧ occursFrom (source R) s 0) →
      out = (None, realm) ∧ (redactSensitiveInfo s realm).1 = s)) ∧
  (∀ options (output : OutputData Event) s realm,
     default false (options ≫= blockSensitiveOutput) = true →
     default false (options ≫= redactInsteadOfBlock) = true →
     atRest (SENSITIVE_PATTERNS realm) →
     type (event output) = Content → value (event output) = StringValue s →
     let out := onOutput (Unknown := Unknown) Content options output realm in
     SENSITIVE_PATTERNS out.2 = SENSITIVE_PATTERNS realm ∧
     ((∃ R, R ∈ SENSITIVE_PATTERNS realm ∧ occursFrom (source R) s 0) →
      out.1 = Some {| out_event :=
                        Some {| type := type (event output);
                                value := StringValue (redactSensitiveInfo s realm).1;
                                others := others (event output) |};
                      out_blocked := None; out_metadata := None |} ∧
      console out.2
      = (console realm
         ++ ["[Content Filter] Redacted sensitive information from output"])%list) ∧
     (¬ (∃ R, R ∈ SENSITIVE_PATTERNS realm ∧ occursFrom (source R) s 0) →
      out = (None, realm))).
Proof.
  split; [exact onInput_redacts|].
  intros options output s realm Hblock Hredact Hrest Htype Hvalue out. subst out.
  unfold onOutput. rewrite Hblock, Hredact, Htype, Hvalue. simpl.
  rewrite bool_decide_true by done. simpl.
  rewrite containsSensitiveInfo_unfold.
  destruct (at_rest_detection s realm Hrest) as [Hiff Hsame].
  destruct ((some_test (SENSITIVE_PATTERNS realm) s).1) eqn:Hfound; simpl.
  + rewrite redactSensitiveInfo_unfold. simpl.
    destruct (redacted_at_rest s realm
                (with_patterns (some_test (SENSITIVE_PATTERNS realm) s).2 realm)
                Hrest) as (Htext & Hps & Hconsole).
    { apply (some_test_spec (SENSITIVE_PATTERNS realm) s). }
    rewrite redactSensitiveInfo_unfold in Htext, Hps. simpl in Htext, Hps.
    split; [done|]. split.
    * intros _. by rewrite Htext.
    * intros Hnone. destruct Hnone. by apply Hiff.
  + rewrite (Hsame eq_refl), with_patterns_same. split; [done|]. split.
    * intros Hocc%Hiff. done.
    * done.
Qed.

(** X14. When the filter blocks, its answer is not that of the text alone.
    Take a text in which one pattern alone has a match, the first of which
    ends where the text ends, as in a message that ends with the secret.
    With the patterns as they are when the module is loaded, [onInput]
    blocks the message, warns, and leaves the [lastIndex] of that pattern
    at the end of the text.  Called again with the same message it returns
    nothing: the message is let through, and the patterns are as they were
    when the module was loaded.  [onOutput] too returns nothing for a content
    event with this text when it is called after the first call. *)
Theorem blocked_once_then_let_through options (input : InputData PLU) text
    (before : list Pattern) p (after : list Pattern) i realm :
  default true (options ≫= blockSensitiveInput) = true →
  (default false (options ≫= redactInsteadOfBlock) = true →
   ∃ parts, message input = PartsMessage parts) →
  messageText JSON_stringify (message input) = text →
  SENSITIVE_PATTERNS realm = SENSITIVE_PATTERNS loaded →
  sources = (before ++ p :: after)%list →
  Forall (λ q, ¬ occursFrom q text 0) before →
  Forall (λ q, ¬ occursFrom q text 0) after →
  Matcher p Some (drop i text) = Some [] →
  (∀ j, (j < i)%nat → Matcher p Some (drop j text) = None) →
  let first := onInput (Unknown := Unknown) JSON_stringify options input realm in
  let second :=
    onInput (Unknown := Unknown) JSON_stringify options input first.2 in
  first.1 = Some {| in_message := None; in_blocked := Some true;
                    blockReason := Some blockReasonText;
                    in_metadata := None |} ∧
  lastIndex <$> SENSITIVE_PATTERNS first.2
  = (replicate (length before) 0%nat ++ length text
       :: replicate (length after) 0%nat)%list ∧
  second.1 = None ∧
  SENSITIVE_PATTERNS second.2 = SENSITIVE_PATTERNS loaded ∧
  console second.2
  = (console realm
     ++ ["[Content Filter] Blocked input containing sensitive information"])%list ∧
  ∀ options' (output : OutputData Event),
    type (event output) = Content → value (event output) = StringValue text →
    (onOutput (Unknown := Unknown) Content options' output first.2).1 = None.
Proof.
  intros Hblock Hredact Htext Hloaded Hsources Hbefore Hafter Hm Hfirst.
  destruct (some_test_twice text before p after i Hsources Hbefore Hafter Hm Hfirst)
    as [Hone Htwo].
  change (RegExpLiteral <$> sources) with (SENSITIVE_PATTERNS loaded) in Hone, Htwo.
  set (moved := ((RegExpLiteral <$> before)
                 ++ {| source := p; lastIndex := length text |}
                 :: (RegExpLiteral <$> after))%list) in *.
  set (warned := console_warn
                   "[Content Filter] Blocked input containing sensitive information"
                   (with_patterns moved realm)).
  assert (onInput (Unknown := Unknown) JSON_stringify options input realm
          = (Some {| in_message := None; in_blocked := Some true;
                     blockReason := Some blockReasonText;
                     in_metadata := None |}, warned)) as Hcall1.
  { unfold onInput. rewrite Htext, containsSensitiveInfo_unfold, Hloaded.
    rewrite Hone, Hblock. simpl.
    destruct (default false (options ≫= redactInsteadOfBlock)) eqn:Hr; [|done].
    destruct (Hredact eq_refl) as [parts ->]. done. }
  assert (containsSensitiveInfo text warned
          = (false, with_patterns (SENSITIVE_PATTERNS loaded) warned)) as Hdetect.
  { rewrite containsSensitiveInfo_unfold.
    change (SENSITIVE_PATTERNS warned) with moved. by rewrite Htwo. }
  intros first second. subst first second. rewrite Hcall1. simpl.
  split; [done|]. split.
  { subst moved. rewrite fmap_app, fmap_cons. simpl.
    rewrite <-!list_fmap_compose.
    assert (∀ l : list Pattern, lastIndex ∘ RegExpLiteral <$> l
                               = replicate (length l) 0%nat) as Hzero.
    { induction l as [|q l IH]; [done|]. csimpl. by rewrite IH. }
    by rewrite !Hzero. }
  assert (onInput (Unknown := Unknown) JSON_stringify options input warned
          = (None, with_patterns (SENSITIVE_PATTERNS loaded) warned)) as Hcall2.
  { unfold onInput. rewrite Htext, Hdetect. done. }
  rewrite Hcall2. simpl. split; [done|]. split; [done|]. split; [done|].
  intros options' output Htype Hvalue. unfold onOutput.
  destruct (default false (options' ≫= blockSensitiveOutput)); [|done]. simpl.
  rewrite Htype, bool_decide_true by done. simpl.
  rewrite Hvalue, Hdetect. done.
Qed.

Lemma loaded_detection text realm :
  SENSITIVE_PATTERNS realm = SENSITIVE_PATTERNS loaded →
  (containsSensitiveInfo text realm).1 = true ↔
  ∃ p, p ∈ sources ∧ occursFrom p text 0.
Proof.
  intros Hloaded. rewrite containsSensitiveInfo_unfold. simpl.
  assert (atRest (SENSITIVE_PATTERNS realm)) as Hrest.
  { rewrite Hloaded. apply Forall_fmap, Forall_true. done. }
  rewrite (proj1 (at_rest_detection text realm Hrest)).
  rewrite Hloaded. split.
  - intros (R & (p & -> & Hp)%list_elem_of_fmap & Hocc). by exists p.
  - intros (p & Hp & Hocc). exists (RegExpLiteral p). split; [|done].
    apply list_elem_of_fmap. by exists p.
Qed.

Lemma loaded_containment text realm :
  SENSITIVE_PATTERNS realm = SENSITIVE_PATTERNS loaded →
  (containsSensitiveInfo text realm).1 = true ↔
  ∃ p pre m post,
    p ∈ sources ∧ text = (pre ++ m ++ post)%list ∧ generates p m.
Proof.
  intros Hloaded. rewrite (loaded_detection _ _ Hloaded).
  pose proof sources_wellFormed as Hwf. rewrite Forall_forall in Hwf.
  split.
  - intros (p & Hp & Hocc). destruct (Hwf p Hp) as [Hwfp _].
    apply occurs_generates in Hocc as (pre & m & post & -> & Hgen); [|done].
    by exists p, pre, m, post.
  - intros (p & pre & m & post & Hp & -> & Hgen). exists p. split; [done|].
    destruct (Hwf p Hp) as [Hwfp _]. apply occurs_generates; [done|].
    by exists pre, m, post.
Qed.

(** X15. The matcher finds what the pattern stands for: a pattern matches
    at the start of a text exactly when the text starts with a text the
    pattern generates, whatever the order in which the greedy quantifiers
    try their repetitions.  So, when the patterns are as they were loaded,
    [containsSensitiveInfo] says exactly whether the text contains a text
    that one of the seven patterns generates. *)
Theorem detection_at_rest_is_containment :
  (∀ p x, wellFormed p →
     (is_Some (Matcher p Some x) ↔
      ∃ m y, x = (m ++ y)%list ∧ generates p m)) ∧
  (∀ text realm,
     SENSITIVE_PATTERNS realm = SENSITIVE_PATTERNS loaded →
     ((containsSensitiveInfo text realm).1 = true ↔
      ∃ p pre m post,
        p ∈ sources ∧ text = (pre ++ m ++ post)%list ∧ generates p m)).
Proof.
  split.
  - intros p x Hwf. split.
    + intros [y (m & y' & -> & _ & Hgen)%Matcher_sound]; [|done]. by exists m, y'.
    + intros (m & y & -> & Hgen). by apply Matcher_complete.
  - apply loaded_containment.
Qed.

(** X16. [replace] is [exec] iterated: with a pattern of the filter, the
    text is returned as it is when the pattern has no match in it;
    otherwise the text before the first match is kept, the match is
    replaced, and the text after the match is treated in the same way.  So
    the matches replaced are those [test] finds from index 0 on, one after
    the other, and what lies between them is kept. *)
Theorem replace_follows_exec R (replacement S : JsString) :
  source R ∈ sources →
  (replace R replacement S).1
  = match (RegExpBuiltinExec (with_lastIndex 0 R) S).1 with
    | None => S
    | Some (i, e) =>
        (take i S ++ replacement ++ (replace R replacement (drop e S)).1)%list
    end.
Proof.
  intros Hp. pose proof sources_wellFormed as Hwf.
  rewrite Forall_forall in Hwf. destruct (Hwf _ Hp) as [Hwfp Hmin].
  destruct (RegExpBuiltinExec (with_lastIndex 0 R) S) as [[[i e]|] R'] eqn:Hexec;
    simpl.
  - apply exec_Some in Hexec as (Hi & He & _ & Hm & Hfirst & Hlen). simpl in *.
    specialize (Hlen Hwfp).
    apply replaceFrom_first; [done| |].
    + rewrite !length_drop. lia.
    + intros k' Hk'. apply Hfirst. lia.
  - apply exec_None in Hexec as [_ Hnone]. simpl in Hnone.
    exact (f_equal fst (replace_none R replacement S Hnone)).
Qed.

Lemma generates_app p q m n :
  generates p m → generates q n → generates (p ++ q)%list (m ++ n)%list.
Proof.
  revert m. induction p as [|t p IH]; intros m; simpl.
  - by intros ->.
  - intros (m1 & m2 & -> & Hrep & Hgen) Hq. exists m1, (m2 ++ n)%list.
    rewrite <-app_assoc. split; [done|]. split; [done|]. by apply IH.
Qed.

Lemma generates_literal (keyword : string) (word : JsString) :
  Canonicalize <$> word = Canonicalize <$> units keyword →
  generates (literal keyword) word.
Proof.
  unfold literal, units.
  revert word. induction (String.list_ascii_of_string keyword) as [|c l IH];
    intros [|ch word]; csimpl; try done.
  intros [= Hch Hword]. exists [ch], word. split; [done|]. split; [|by apply IH].
  split; [|simpl; split; [lia|intros ? [= <-]; lia]].
  constructor; [|constructor]. simpl. by apply bool_decide_eq_true.
Qed.

Lemma generates_assigned (ws1 : JsString) (sep : N) (ws2 secret : JsString) :
  Forall (λ ch, WhiteSpace ch = true) ws1 → sep ∈ units ":=" →
  Forall (λ ch, WhiteSpace ch = true) ws2 →
  secret ≠ [] → Forall (λ ch, WhiteSpace ch = false) secret →
  generates assigned (ws1 ++ sep :: ws2 ++ secret)%list.
Proof.
  intros Hws1 Hsep Hws2 Hne Hsecret.
  exists ws1, (sep :: ws2 ++ secret)%list. split; [done|]. split.
  { split; [done|]. simpl. split; [lia|done]. }
  exists [sep], (ws2 ++ secret)%list. split; [done|]. split.
  { split; [|simpl; split; [lia|intros ? [= <-]; lia]].
    constructor; [|constructor].
    apply elem_of_cons in Hsep as [->|[->|[]%elem_of_nil]%elem_of_cons];
      by vm_compute. }
  exists ws2, secret. split; [done|]. split.
  { split; [done|]. simpl. split; [lia|done]. }
  exists secret, []. rewrite app_nil_r. split; [done|]. split; [|done].
  split.
  { eapply Forall_impl; [done|]. simpl. by intros ch ->. }
  simpl. split; [|done]. destruct secret; [done|simpl; lia].
Qed.

Lemma generates_api_key (w1 mid w2 rest : JsString) :
  Canonicalize <$> w1 = Canonicalize <$> units "api" →
  mid = [] ∨ (∃ u, mid = [u] ∧ Canonicalize u ∈ [95; 45]%N) →
  Canonicalize <$> w2 = Canonicalize <$> units "key" →
  generates assigned rest →
  generates (literal "api"
               ++ [zeroOrOne (CharacterClass [("_", "_"); ("-", "-")]%char)]
               ++ literal "key" ++ assigned)%list
    (w1 ++ mid ++ w2 ++ rest)%list.
Proof.
  intros Hw1 Hmid Hw2 Hrest.
  apply generates_app; [by apply generates_literal|].
  apply (generates_app [_]); [|apply generates_app; [by apply generates_literal|done]].
  exists mid, []. rewrite app_nil_r. split; [done|]. split; [|done].
  destruct Hmid as [->|(u & -> & Hu)].
  - split; [constructor|]. simpl. split; [lia|intros ? [= <-]; lia].
  - split; [|simpl; split; [lia|intros ? [= <-]; lia]].
    constructor; [|constructor]. simpl. by apply bool_decide_eq_true.
Qed.

Lemma split_word (word : JsString) (n : nat) :
  word = (take n word ++ drop n word)%list.
Proof. by rewrite take_drop. Qed.

(** X17. With the patterns as they were loaded, a text is found sensitive
    when it contains one of the words [password], [apikey], [api_key],
    [api-key], [secret] and [token], in any case of its letters, then any
    white space, a colon or an equals sign, any white space, and at least
    one code unit that is not white space. *)
Theorem assigned_secrets_are_detected realm (keyword : string)
    (pre word ws1 : JsString) (sep : N) (ws2 secret post : JsString) :
  SENSITIVE_PATTERNS realm = SENSITIVE_PATTERNS loaded →
  keyword ∈ ["password"; "apikey"; "api_key"; "api-key"; "secret"; "token"] →
  Canonicalize <$> word = Canonicalize <$> units keyword →
  Forall (λ ch, WhiteSpace ch = true) ws1 → sep ∈ units ":=" →
  Forall (λ ch, WhiteSpace ch = true) ws2 →
  secret ≠ [] → Forall (λ ch, WhiteSpace ch = false) secret →
  (containsSensitiveInfo
     (pre ++ word ++ ws1 ++ sep :: ws2 ++ secret ++ post)%list realm).1 = true.
Proof.
  intros Hloaded Hkeyword Hword Hws1 Hsep Hws2 Hne Hsecret.
  apply (loaded_containment _ _ Hloaded).
  pose proof (generates_assigned ws1 sep ws2 secret Hws1 Hsep Hws2 Hne Hsecret)
    as Htail.
  assert (∃ p, p ∈ sources ∧ generates p (word ++ ws1 ++ sep :: ws2 ++ secret)%list)
    as (p & Hp & Hgen).
  { repeat (apply elem_of_cons in Hkeyword as [->|Hkeyword]);
      [..|by apply elem_of_nil in Hkeyword].
    - eexists. split; [by apply (list_elem_of_lookup_2 _ 0%nat)|].
      apply generates_app; [by apply generates_literal|done].
    - eexists. split; [by apply (list_elem_of_lookup_2 _ 1%nat)|].
      rewrite (split_word word 3), <-app_assoc.
      apply (generates_api_key (take 3 word) [] (drop 3 word)); [..|done].
      + by rewrite fmap_take, Hword.
      + by left.
      + by rewrite fmap_drop, Hword.
    - eexists. split; [by apply (list_elem_of_lookup_2 _ 1%nat)|].
      rewrite (split_word word 3), (split_word (drop 3 word) 1), <-!app_assoc.
      apply (generates_api_key (take 3 word) (take 1 (drop 3 word))
               (drop 1 (drop 3 word))); [..|done].
      + by rewrite fmap_take, Hword.
      + right. destruct word as [|c1 [|c2 [|c3 [|u word]]]]; try done.
        exists u. split; [done|]. injection Hword as _ _ _ -> _.
        by apply (bool_decide_unpack _).
      + by rewrite !fmap_drop, Hword.
    - eexists. split; [by apply (list_elem_of_lookup_2 _ 1%nat)|].
      rewrite (split_word word 3), (split_word (drop 3 word) 1), <-!app_assoc.
      apply (generates_api_key (take 3 word) (take 1 (drop 3 word))
               (drop 1 (drop 3 word))); [..|done].
      + by rewrite fmap_take, Hword.
      + right. destruct word as [|c1 [|c2 [|c3 [|u word]]]]; try done.
        exists u. split; [done|]. injection Hword as _ _ _ -> _.
        by apply (bool_decide_unpack _).
      + by rewrite !fmap_drop, Hword.
    - eexists. split; [by apply (list_elem_of_lookup_2 _ 2%nat)|].
      apply generates_app; [by apply generates_literal|done].
    - eexists. split; [by apply (list_elem_of_lookup_2 _ 3%nat)|].
      apply generates_app; [by apply generates_literal|done]. }
  exists p, pre, (word ++ ws1 ++ sep :: ws2 ++ secret)%list, post.
  split; [done|]. split; [|done].
  repeat (rewrite <-app_assoc || rewrite <-app_comm_cons). done.
Qed.
End FilterProperties.

(** ** The filter in the input pipeline *)

Section Heads.
Context {PartListUnion ServerGeminiStreamEvent Unknown Thrown : Type}.
Local Abbreviation Config :=
  (InterceptorConfig PartListUnion ServerGeminiStreamEvent Unknown Thrown).

Lemma InputRun_head (context : InterceptorContext Unknown)
    (inputData : InputData PartListUnion) (i : Config) h rest cur md new res :
  InputRun context inputData (i :: rest) cur md new res →
  onInput i = Some h →
  (blocks (inputCall context inputData i h cur md) = true ∧
   new = [inputCall context inputData i h cur md] ∧
   res = {[ "message" := JPartListUnion cur; "blocked" := JBoolean true;
            "blockReason" :=
              optional (reason (inputCall context inputData i h cur md)) ]}) ∨
  (blocks (inputCall context inputData i h cur md) = false ∧
   ∃ new', new = inputCall context inputData i h cur md :: new' ∧
           InputRun
             (contextAfter context [inputCall context inputData i h cur md])
             (inputAfter inputData [inputCall context inputData i h cur md])
             rest
             (messageAfter cur [inputCall context inputData i h cur md])
             (metadataAfter md [inputCall context inputData i h cur md])
             new' res).
Proof.
  intros Htrace Hh. inversion Htrace; simplify_eq.
  - by left.
  - right. split; [done|]. by eexists.
Qed.

(** Registering a registration whose handlers return no result and write
    nothing, under a new id, changes neither what a pipeline returns nor the
    calls made to the other handlers. *)
Lemma observer_input (r : Config)
    (w : World PartListUnion ServerGeminiStreamEvent Unknown Thrown)
    message model isRetry :
  wellKeyed (interceptors w) → JsMap.get (id r) (interceptors w) = None →
  (∀ h input context,
     onInput r = Some h →
     writes (h input context) = [] ∧
     ∀ result, settled (h input context) ≠ Normal (Some result)) →
  (executeInputInterceptors message model isRetry (register r w).2).1
  = (executeInputInterceptors message model isRetry w).1 ∧
  ∃ new,
    spied (executeInputInterceptors message model isRetry (register r w).2).2
      = (spied w ++ new)%list ∧
    spied (executeInputInterceptors message model isRetry w).2
      = (spied w ++ filter (λ c, id (callee c) ≠ id r) new)%list.
Proof.
  intros Hw Hnew Hinert.
  destruct (registered_world r w) as (Hmap & Hsid & Hclock & Hdates & Hsp).
  destruct (executeInputInterceptors_run message model isRetry w)
    as (res1 & w1' & new1 & -> & Htrace1 & Hafter1).
  destruct (executeInputInterceptors_run message model isRetry (register r w).2)
    as (res2 & w2' & new2 & -> & Htrace2 & Hafter2).
  destruct (after_started _ _ _ _ Hafter1) as (Hspied1 & _).
  destruct (after_started _ _ _ _ Hafter2) as (Hspied2 & _).
  apply (InputRun_without (id r)) in Htrace2.
  - unfold contextOf, inputSnapshot in Htrace2.
    rewrite Hmap, Hsid, Hclock, Hdates, selection_without_new in Htrace2
      by done.
    destruct (InputRun_functional _ _ _ _ _ _ _ _ _ Htrace1 Htrace2)
      as [-> ->].
    split; [done|]. exists new2. simpl. rewrite Hsp in Hspied2. done.
  - intros i h input ctx Hi Hid Hh.
    assert (i = r) as ->; [|by apply Hinert].
    revert Hi. unfold inputSnapshot, byPriority.
    rewrite (Array_sort_perm (λ i, default 0%num (priority i))), Hmap,
      (JsMap_set_new _ _ _ Hnew).
    unfold JsMap.values. rewrite fmap_app.
    intros [_ [Hi|Hi%list_elem_of_singleton]%elem_of_app]%list_elem_of_filter;
      [|done].
    pose proof (fresh_id_values _ _ Hw Hnew) as Hfresh.
    rewrite Forall_forall in Hfresh. by destruct (Hfresh i Hi).
Qed.

Lemma observer_output (r : Config)
    (w : World PartListUnion ServerGeminiStreamEvent Unknown Thrown)
    event model :
  wellKeyed (interceptors w) → JsMap.get (id r) (interceptors w) = None →
  (∀ h output context,
     onOutput r = Some h →
     writes (h output context) = [] ∧
     ∀ result, settled (h output context) ≠ Normal (Some result)) →
  (executeOutputInterceptors event model (register r w).2).1
  = (executeOutputInterceptors event model w).1 ∧
  ∃ new,
    spied (executeOutputInterceptors event model (register r w).2).2
      = (spied w ++ new)%list ∧
    spied (executeOutputInterceptors event model w).2
      = (spied w ++ filter (λ c, id (callee c) ≠ id r) new)%list.
Proof.
  intros Hw Hnew Hinert.
  destruct (registered_world r w) as (Hmap & Hsid & Hclock & Hdates & Hsp).
  destruct (executeOutputInterceptors_run event model w)
    as (res1 & w1' & new1 & -> & Htrace1 & Hafter1).
  destruct (executeOutputInterceptors_run event model (register r w).2)
    as (res2 & w2' & new2 & -> & Htrace2 & Hafter2).
  destruct (after_started _ _ _ _ Hafter1) as (Hspied1 & _).
  destruct (after_started _ _ _ _ Hafter2) as (Hspied2 & _).
  apply (OutputRun_without (id r)) in Htrace2.
  - unfold contextOf, outputSnapshot in Htrace2.
    rewrite Hmap, Hsid, Hclock, Hdates, selection_without_new in Htrace2
      by done.
    destruct (OutputRun_functional _ _ _ _ _ _ _ _ _ Htrace1 Htrace2)
      as [-> ->].
    split; [done|]. exists new2. simpl. rewrite Hsp in Hspied2. done.
  - intros i h output ctx Hi Hid Hh.
    assert (i = r) as ->; [|by apply Hinert].
    revert Hi. unfold outputSnapshot, byPriority.
    rewrite (Array_sort_perm (λ i, default 0%num (priority i))), Hmap,
      (JsMap_set_new _ _ _ Hnew).
    unfold JsMap.values. rewrite fmap_app.
    intros [_ [Hi|Hi%list_elem_of_singleton]%elem_of_app]%list_elem_of_filter;
      [|done].
    pose proof (fresh_id_values _ _ Hw Hnew) as Hfresh.
    rewrite Forall_forall in Hfresh. by destruct (Hfresh i Hi).
Qed.

(** A registration whose priority is above that of every other one is
    the first one selected. *)
Lemma highest_priority_first (P : Config → Prop) `{!∀ i, Decision (P i)}
    (m : JsMap.t Config) (f : Config) :
  wellKeyed m → JsMap.get (id f) m = Some f → P f →
  (∀ r, r ∈ JsMap.values m → id r ≠ id f →
        (default 0 (priority r) < default 0 (priority f))%num) →
  ∃ rest, Array_sort byPriority (filter P (JsMap.values m)) = f :: rest.
Proof.
  intros Hm Hf HPf Hothers. unfold byPriority.
  apply (Array_sort_head (λ i : Config, default 0%num (priority i))).
  - apply list_elem_of_filter. split; [done|].
    apply list_elem_of_fmap. exists (id f, f). split; [done|].
    by apply JsMap_get_Some_elem.
  - apply Forall_forall. intros r [_ Hr]%list_elem_of_filter.
    destruct (decide (id r = id f)) as [Hid|Hid]; [left|right; by apply Hothers].
    pose proof (wellKeyed_get_value _ _ Hm Hr) as Hget.
    rewrite Hid, Hf in Hget. by injection Hget.
Qed.

End Heads.

Section FilterInPipeline.
Import Regex ContentFilter.
Context {Parts Value Others GeminiEventType Unknown Thrown : Type}.
Context `{!EqDecision GeminiEventType}.
Context (Content : GeminiEventType) (JSON_stringify : Parts → JsString).
Local Abbreviation PLU := (PartListUnion Parts).
Local Abbreviation Event := (ServerGeminiStreamEvent Value Others GeminiEventType).
Local Abbreviation State := (World PLU Event Unknown Thrown).
Local Abbreviation Config := (InterceptorConfig PLU Event Unknown Thrown).
Local Abbreviation theFilter :=
  (createContentFilterInterceptor (Thrown := Thrown) (Unknown := Unknown)
     (Value := Value) (Others := Others) Content JSON_stringify).

(** X18. The filter goes first.  In a registry in which every other
    registration has a priority below 100, the input pipeline calls the
    filter before any other handler, with the message it was given.  When
    the patterns are at rest, the filter is set to block, and some pattern
    has a match in the text of the message, no other handler is called and
    the pipeline returns the message blocked, with the reason the filter
    gives. *)
Theorem sensitive_input_stops_at_the_filter options realm (w : State)
    (message : PLU) (mo : option string) (retry : option bool) :
  wellKeyed (interceptors w) →
  JsMap.get "content-filter-interceptor" (interceptors w)
  = Some (theFilter options realm) →
  (∀ r, r ∈ JsMap.values (interceptors w) →
        id r ≠ "content-filter-interceptor" →
        (default 0 (priority r) < 100)%num) →
  let out := executeInputInterceptors message mo retry w in
  let input := {| message := message; isRetry := retry |} in
  let call :=
    InputCall (theFilter options realm) input (contextOf w mo)
      {| writes := []; calls := [];
         settled := Normal (onInput JSON_stringify options input realm).1 |} in
  (∃ new, spied out.2 = (spied w ++ call :: new)%list) ∧
  (atRest (SENSITIVE_PATTERNS realm) →
   default true (options ≫= blockSensitiveInput) = true →
   (default false (options ≫= redactInsteadOfBlock) = true →
    ∃ parts, message = PartsMessage parts) →
   (∃ R, R ∈ SENSITIVE_PATTERNS realm
         ∧ occursFrom (source R) (messageText JSON_stringify message) 0) →
   spied out.2 = (spied w ++ [call])%list ∧
   out.1 = Normal {[ "message" := JPartListUnion message;
                     "blocked" := JBoolean true;
                     "blockReason" := JString blockReasonText ]}).
Proof.
  intros Hw Hget Hothers out input call.
  destruct (executeInputInterceptors_run message mo retry w)
    as (res & w' & new & Hrun & Htrace & Hafter).
  apply after_started in Hafter as (Hspied & _).
  subst out. rewrite Hrun. simpl.
  destruct (highest_priority_first inputEnabled (interceptors w)
              (theFilter options realm) Hw Hget) as [rest Hsnap].
  { split; [done|]. by eexists. }
  { intros r Hr Hid. simpl. by apply Hothers. }
  unfold inputSnapshot in Htrace. rewrite Hsnap in Htrace.
  eapply InputRun_head in Htrace; [|reflexivity].
  change (inputCall _ _ _ _ _ _) with call in Htrace.
  split.
  - destruct Htrace as [(_ & -> & _)|(_ & new' & -> & _)]; rewrite Hspied;
      by eexists.
  - intros Hrest Hblock Hredact Hocc.
    assert ((onInput (Unknown := Unknown) JSON_stringify options input realm).1
            = Some {| in_message := None; in_blocked := Some true;
                      blockReason := Some blockReasonText;
                      in_metadata := None |}) as Hanswer.
    { unfold onInput. rewrite containsSensitiveInfo_unfold. simpl.
      destruct (at_rest_detection (messageText JSON_stringify message) realm Hrest)
        as [Hiff _].
      rewrite (proj2 Hiff Hocc), Hblock. simpl.
      destruct (default false (options ≫= redactInsteadOfBlock)) eqn:Hr; [|done].
      destruct (Hredact eq_refl) as [parts ->]. done. }
    assert (blocks call = true ∧ reason call = Some blockReasonText) as [Hb Hreason].
    { subst call. simpl. by rewrite Hanswer. }
    destruct Htrace as [(_ & -> & ->)|(Hnb & _)]; [|congruence].
    rewrite Hspied, Hreason. done.
Qed.
End FilterInPipeline.

(** * The logging interceptor *)

Section LoggerProperties.
Import Regex ContentFilter.
Context {Parts Value Others GeminiEventType Unknown Thrown : Type}.
Context `{!EqDecision GeminiEventType}.
Context (Content Thought ToolCallRequest ToolCallResponse Error Finished
           : GeminiEventType).
Context (toISOString : Z → string).
Context (JSON_stringify : Parts → JsString).
Context (JSON_stringify_message : Parts → JsString).
Context (JSON_stringify_event
           : ServerGeminiStreamEvent Value Others GeminiEventType → string).
Local Abbreviation PLU := (PartListUnion Parts).
Local Abbreviation Event := (ServerGeminiStreamEvent Value Others GeminiEventType).
Local Abbreviation State := (World PLU Event Unknown Thrown).
Local Abbreviation Config := (InterceptorConfig PLU Event Unknown Thrown).
Local Abbreviation theFilter :=
  (createContentFilterInterceptor (Thrown := Thrown) (Unknown := Unknown)
     (Value := Value) (Others := Others) Content JSON_stringify).
Local Abbreviation theLogger :=
  (LoggingInterceptor.createLoggingInterceptor (Thrown := Thrown)
     (Unknown := Unknown) Content Thought ToolCallRequest ToolCallResponse
     Error Finished toISOString JSON_stringify_message JSON_stringify_event).
Local Abbreviation logInput :=
  (LoggingInterceptor.onInput (Unknown := Unknown) (Value := Value)
     (GeminiEventType := GeminiEventType) toISOString JSON_stringify_message).

(** X19. The logging interceptor only observes.  Registering it in a
    registry that has no registration of its id changes neither what the
    two pipelines return nor the calls made to the other handlers: they are
    called in the same order with the same arguments. *)
Theorem the_logger_only_observes (w : State) :
  wellKeyed (interceptors w) →
  JsMap.get "logging-interceptor" (interceptors w) = None →
  let logged := (register theLogger w).2 in
  (∀ message mo retry,
     (executeInputInterceptors message mo retry logged).1
     = (executeInputInterceptors message mo retry w).1 ∧
     ∃ new,
       spied (executeInputInterceptors message mo retry logged).2
         = (spied w ++ new)%list ∧
       spied (executeInputInterceptors message mo retry w).2
         = (spied w
            ++ filter (λ c, id (callee c) ≠ "logging-interceptor") new)%list) ∧
  (∀ event mo,
     (executeOutputInterceptors event mo logged).1
     = (executeOutputInterceptors event mo w).1 ∧
     ∃ new,
       spied (executeOutputInterceptors event mo logged).2
         = (spied w ++ new)%list ∧
       spied (executeOutputInterceptors event mo w).2
         = (spied w
            ++ filter (λ c, id (callee c) ≠ "logging-interceptor") new)%list).
Proof.
  intros Hw Hnew logged. subst logged. split.
  - intros message mo retry.
    apply (observer_input theLogger w message mo retry Hw Hnew).
    by intros h input context [= <-].
  - intros event mo.
    apply (observer_output theLogger w event mo Hw Hnew).
    by intros h output context [= <-].
Qed.

Lemma two_selected (w : State) (f l : Config) :
  wellKeyed (interceptors w) →
  JsMap.get (id f) (interceptors w) = Some f →
  JsMap.get (id l) (interceptors w) = Some l →
  (∀ r, r ∈ JsMap.values (interceptors w) → id r = id f ∨ id r = id l) →
  inputEnabled f → inputEnabled l →
  (default 0 (priority l) < default 0 (priority f))%num →
  inputSnapshot w = [f; l].
Proof.
  intros Hw Hf Hl Honly Hef Hel Hlt.
  assert (id l ≠ id f) as Hne.
  { intros Hid. rewrite Hid, Hf in Hl. injection Hl as ->.
    by destruct (Number_lt_asym _ _ Hlt Hlt). }
  destruct (highest_priority_first inputEnabled (interceptors w) f Hw Hf Hef)
    as [rest Hsnap].
  { intros r Hr Hid. destruct (Honly r Hr) as [?|Hidl]; [done|].
    pose proof (wellKeyed_get_value _ _ Hw Hr) as Hget.
    rewrite Hidl, Hl in Hget. by injection Hget as <-. }
  unfold inputSnapshot. rewrite Hsnap. f_equal.
  pose proof (snapshot_ids_NoDup (interceptors w) inputEnabled
                (S (length rest)) Hw) as Hnodup.
  rewrite Hsnap in Hnodup. rewrite take_ge in Hnodup by (simpl; lia).
  rewrite fmap_cons in Hnodup. apply NoDup_cons in Hnodup as [Hfrest Hnodup].
  assert (∀ r, r ∈ rest → r = l) as Hall.
  { intros r Hr.
    assert (r ∈ Array_sort byPriority
                  (filter inputEnabled (JsMap.values (interceptors w)))) as Hin.
    { rewrite Hsnap. apply elem_of_cons. by right. }
    apply (snapshot_registered _ _ _ Hw) in Hin as [_ Hget].
    assert (r ∈ JsMap.values (interceptors w)) as Hrv.
    { apply list_elem_of_fmap. exists (id r, r). split; [done|].
      by apply JsMap_get_Some_elem. }
    destruct (Honly r Hrv) as [Hid|Hid].
    - destruct Hfrest. rewrite <-Hid. apply list_elem_of_fmap. by exists r.
    - rewrite Hid, Hl in Hget. by injection Hget. }
  assert (l ∈ rest) as Hlrest.
  { assert (l ∈ f :: rest) as Hin.
    { rewrite <-Hsnap. unfold byPriority.
      rewrite (Array_sort_perm (λ i : Config, default 0%num (priority i))).
      apply list_elem_of_filter. split; [done|].
      apply list_elem_of_fmap. exists (id l, l). split; [done|].
      by apply JsMap_get_Some_elem. }
    apply elem_of_cons in Hin as [->|?]; [|done].
    by destruct (Number_lt_asym _ _ Hlt Hlt). }
  destruct rest as [|r1 [|r2 rest]].
  - by apply elem_of_nil in Hlrest.
  - f_equal. apply Hall. apply elem_of_cons. by left.
  - exfalso. rewrite !fmap_cons in Hnodup.
    apply NoDup_cons in Hnodup as [Hr1 _]. apply Hr1.
    rewrite (Hall r1), (Hall r2).
    + apply elem_of_cons. by left.
    + apply elem_of_cons. right. apply elem_of_cons. by left.
    + apply elem_of_cons. by left.
Qed.

(** X20. What is logged is what was redacted.  Take a manager in which
    the content filter, set to redact, and the logging interceptor are the
    two registrations, and a message that is a string, with the patterns of
    the filter at rest.  The filter is called first and the logging
    interceptor second, with the redacted message: that is the text it
    writes to the console, and the message the pipeline returns. *)
Theorem the_logger_sees_the_redacted_message options realm (w : State)
    (s : JsString) (mo : option string) (retry : option bool) :
  wellKeyed (interceptors w) →
  JsMap.get "content-filter-interceptor" (interceptors w)
  = Some (theFilter options realm) →
  JsMap.get "logging-interceptor" (interceptors w) = Some theLogger →
  (∀ r, r ∈ JsMap.values (interceptors w) →
        id r = "content-filter-interceptor" ∨ id r = "logging-interceptor") →
  atRest (SENSITIVE_PATTERNS realm) →
  default true (options ≫= blockSensitiveInput) = true →
  default false (options ≫= redactInsteadOfBlock) = true →
  let out := executeInputInterceptors (StringMessage s) mo retry w in
  let redacted := StringMessage (Parts := Parts) (redactSensitiveInfo s realm).1 in
  let filtered :=
    InputCall (theFilter options realm)
      {| message := StringMessage s; isRetry := retry |} (contextOf w mo)
      {| writes := []; calls := [];
         settled :=
           Normal (onInput JSON_stringify options
                     {| message := StringMessage s; isRetry := retry |} realm).1 |} in
  let logged :=
    InputCall theLogger {| message := redacted; isRetry := retry |}
      (contextOf w mo)
      {| writes := []; calls := []; settled := Normal None |} in
  spied out.2 = (spied w ++ [filtered; logged])%list ∧
  out.1 = Normal {[ "message" := JPartListUnion redacted;
                    "blocked" := JBoolean false ]} ∧
  [LoggingInterceptor.PText (redactSensitiveInfo s realm).1]
  ∈ (logInput {| message := redacted; isRetry := retry |} (contextOf w mo) []).2.
Proof.
  intros Hw Hfilter Hlogger Honly Hrest Hblock Hredact out redacted filtered logged.
  destruct (executeInputInterceptors_run (StringMessage s) mo retry w)
    as (res & w' & new & Hrun & Htrace & Hafter).
  apply after_started in Hafter as (Hspied & _).
  subst out. rewrite Hrun. simpl.
  rewrite (two_selected w (theFilter options realm) theLogger) in Htrace;
    [|done|done|done|done|by split; [|eexists]|by split; [|eexists]
     |by vm_compute].
  assert ((onInput (Unknown := Unknown) JSON_stringify options
             {| message := StringMessage s; isRetry := retry |} realm).1
          = None ∧ redacted = StringMessage s
          ∨ (onInput (Unknown := Unknown) JSON_stringify options
               {| message := StringMessage s; isRetry := retry |} realm).1
            = Some {| in_message := Some redacted; in_blocked := None;
                      blockReason := None; in_metadata := None |}) as Hanswer.
  { destruct (onInput_redacts (Unknown := Unknown) JSON_stringify
                options s retry realm Hblock Hredact Hrest)
      as (_ & Hfound & Hnone).
    destruct (at_rest_detection s realm Hrest) as [Hiff _].
    destruct ((some_test (SENSITIVE_PATTERNS realm) s).1) eqn:Hdetected.
    - right. by destruct (Hfound (proj1 Hiff eq_refl)) as [-> _].
    - left. destruct Hnone as [-> Hsame]; [by intros ?%Hiff|].
      split; [done|]. subst redacted. by rewrite Hsame. }
  eapply InputRun_head in Htrace; [|reflexivity].
  change (inputCall _ _ _ _ _ _) with filtered in Htrace.
  assert (blocks filtered = false ∧
          messageAfter (StringMessage s) [filtered] = redacted ∧
          metadataAfter (∅ : gmap string Unknown) [filtered] = ∅)
    as (Hnb & Hmsg & Hmd).
  { subst filtered. unfold messageAfter, metadataAfter. simpl.
    destruct Hanswer as [[-> ->]| ->]; done. }
  destruct Htrace as [(Hb & _)|(_ & new' & -> & Htrace)]; [congruence|].
  rewrite Hmsg, Hmd in Htrace.
  eapply InputRun_head in Htrace; [|reflexivity].
  change (inputCall _ _ _ _ _ _) with logged in Htrace.
  destruct Htrace as [(Hb & _)|(_ & new'' & -> & Htrace)]; [done|].
  inversion Htrace; simplify_eq.
  split; [done|]. split; [done|].
  apply list_elem_of_lookup. by exists 6%nat.
Qed.
End LoggerProperties.

(** ** Scenarios of the filter *)

Section FilterScenarios.
Import Regex ContentFilter.

(** A message that ends with a password is redacted, and the patterns are
    as they were. *)
Lemma redaction_leaves_the_patterns_at_rest_witness :
  let options := Some {| blockSensitiveInput := None; blockSensitiveOutput := None;
                         redactInsteadOfBlock := Some true |} in
  let input := {| message := StringMessage (units "token: abc def");
                  isRetry := None |} in
  let out := onInput (Parts := string) (Unknown := string) units options input
               loaded in
  atRest (SENSITIVE_PATTERNS loaded) ∧
  out.1 = Some {| in_message := Some (StringMessage (units "[REDACTED] def"));
                  in_blocked := None; blockReason := None;
                  in_metadata := None |} ∧
  SENSITIVE_PATTERNS out.2 = SENSITIVE_PATTERNS loaded.
Proof.
  intros options input out.
  assert (atRest (SENSITIVE_PATTERNS loaded)) as Hrest by repeat constructor.
  split; [exact Hrest|].
  destruct (proj1 (redaction_leaves_the_patterns_at_rest (Parts := string)
                     (Value := string) (Others := string)
                     (GeminiEventType := string) (Unknown := string) "content" units)
              options (units "token: abc def") None loaded eq_refl eq_refl Hrest)
    as (Hsame & Hfound & _).
  split; [|exact Hsame].
  apply Hfound. exists (RegExpLiteral (literal "token" ++ assigned)%list).
  split.
  - apply list_elem_of_lookup. by exists 3%nat.
  - exists 0%nat. split; [simpl; lia|]. by eexists.
Defined.

(** A message that ends with a password is blocked, and let through when
    it is sent again. *)
Lemma blocked_once_then_let_through_witness :
  let input := {| message := StringMessage (units "my password=hunter2");
                  isRetry := None |} in
  let first := onInput (Parts := string) (Unknown := string) units None input
                 loaded in
  let second := onInput (Parts := string) (Unknown := string) units None input
                  first.2 in
  first.1 = Some {| in_message := None; in_blocked := Some true;
                    blockReason := Some blockReasonText;
                    in_metadata := None |} ∧
  lastIndex <$> SENSITIVE_PATTERNS first.2 = [19; 0; 0; 0; 0; 0; 0]%nat ∧
  second.1 = None ∧
  SENSITIVE_PATTERNS second.2 = SENSITIVE_PATTERNS loaded.
Proof.
  intros input first second.
  destruct (blocked_once_then_let_through (Parts := string) (Value := string)
              (Others := string) (GeminiEventType := string) (Unknown := string)
              "content" units None input (units "my password=hunter2")
              [] (literal "password" ++ assigned)%list (tail sources) 3 loaded)
    as (Hfirst & Hmoved & Hsecond & Hback & _).
  - reflexivity.
  - intros [=].
  - reflexivity.
  - reflexivity.
  - reflexivity.
  - constructor.
  - repeat constructor; apply (bool_decide_unpack (¬ _)); vm_compute; reflexivity.
  - vm_compute. reflexivity.
  - intros [|[|[|j]]] Hj; [reflexivity..|lia].
  - split; [exact Hfirst|]. split; [exact Hmoved|]. split; [exact Hsecond|exact Hback].
Defined.

(** The filter is registered after a handler of priority 1 and is called
    before it; the handler is not called when the filter blocks. *)
Lemma sensitive_input_stops_at_the_filter_witness :
  let message := StringMessage (units "my password=hunter2") in
  let out := executeInputInterceptors message None None FilterScenario.filtered in
  id <$> JsMap.values (interceptors FilterScenario.filtered)
  = ["echo"; "content-filter-interceptor"] ∧
  id ∘ callee <$> spied out.2 = ["content-filter-interceptor"] ∧
  out.1 = Normal {[ "message" := JPartListUnion message;
                    "blocked" := JBoolean true;
                    "blockReason" := JString blockReasonText ]}.
Proof.
  intros message out. split; [reflexivity|].
  destruct (sensitive_input_stops_at_the_filter (Parts := string)
              (Value := string) (Others := string) (GeminiEventType := string)
              (Unknown := string) (Thrown := string) "content" units None loaded
              FilterScenario.filtered message None None)
    as [_ Hblocked].
  - split; [apply (bool_decide_unpack _); reflexivity|repeat constructor].
  - reflexivity.
  - intros r [->|[->|[]%elem_of_nil]%elem_of_cons]%elem_of_cons Hid.
    + by vm_compute.
    + by destruct Hid.
  - destruct Hblocked as [Hspied Hout].
    + repeat constructor.
    + reflexivity.
    + intros [=].
    + exists (RegExpLiteral (literal "password" ++ assigned)%list). split.
      * apply list_elem_of_lookup. by exists 0%nat.
      * exists 3%nat. split; [simpl; lia|]. by eexists.
    + split; [|exact Hout].
      etransitivity; [exact (f_equal (fmap (id ∘ callee)) Hspied)|reflexivity].
Defined.

(** [PassWord =hunter2] in the middle of a message. *)
Lemma assigned_secrets_are_detected_witness :
  Canonicalize <$> units "PassWord" = Canonicalize <$> units "password" ∧
  (containsSensitiveInfo (units "my PassWord =hunter2 ok") loaded).1 = true.
Proof.
  split; [reflexivity|].
  apply (assigned_secrets_are_detected loaded "password" (units "my ")
           (units "PassWord") (units " ") 61%N [] (units "hunter2") (units " ok")).
  - reflexivity.
  - apply list_elem_of_lookup. by exists 0%nat.
  - reflexivity.
  - by repeat constructor.
  - apply list_elem_of_lookup. by exists 1%nat.
  - constructor.
  - discriminate.
  - by repeat constructor.
Defined.

(** Two tokens in one text. *)
Lemma replace_follows_exec_witness :
  let R := RegExpLiteral (literal "token" ++ assigned)%list in
  let S := units "a token=1 b TOKEN: 2" in
  (RegExpBuiltinExec R S).1 = Some (2, 9)%nat ∧
  (replace R (units "[REDACTED]") S).1
  = (units "a " ++ units "[REDACTED]"
       ++ (replace R (units "[REDACTED]") (units " b TOKEN: 2")).1)%list ∧
  (replace R (units "[REDACTED]") S).1 = units "a [REDACTED] b [REDACTED]".
Proof.
  intros R S. split; [reflexivity|]. split; [|reflexivity].
  apply (replace_follows_exec R (units "[REDACTED]") S).
  apply list_elem_of_lookup. by exists 3%nat.
Defined.

(** The logging interceptor is registered after the filter and a handler
    that returns the message: it is called last, and what the pipeline
    returns is the same. *)
Lemma the_logger_only_observes_witness :
  let w := FilterScenario.filtered in
  let logged := (register LoggerScenario.logger w).2 in
  let message := StringMessage (units "hello") in
  JsMap.get "logging-interceptor" (interceptors w) = None ∧
  id ∘ callee <$> spied (executeInputInterceptors message None None logged).2
  = ["content-filter-interceptor"; "echo"; "logging-interceptor"] ∧
  (executeInputInterceptors message None None logged).1
  = (executeInputInterceptors message None None w).1.
Proof.
  intros w logged message. split; [reflexivity|]. split; [reflexivity|].
  assert (wellKeyed (interceptors w)) as Hw.
  { split; [apply (bool_decide_unpack _); reflexivity|repeat constructor]. }
  destruct (the_logger_only_observes (Parts := string) (Value := string)
              (Others := string) (GeminiEventType := string) (Unknown := string)
              (Thrown := string) "content" "thought" "tool_call_request"
              "tool_call_response" "error" "finished"
              (λ _, "2026-01-01T00:00:00.000Z") units (λ _, "{}") w Hw eq_refl)
    as [Hinput _].
  exact (proj1 (Hinput message None None)).
Defined.

(** The logging interceptor, registered before the filter, is called after
    it and is given the redacted message. *)
Lemma the_logger_sees_the_redacted_message_witness :
  let w := LoggerScenario.logging in
  let out := executeInputInterceptors (StringMessage (units "token: abc def"))
               None None w in
  id <$> JsMap.values (interceptors w)
  = ["logging-interceptor"; "content-filter-interceptor"] ∧
  id ∘ callee <$> spied out.2
  = ["content-filter-interceptor"; "logging-interceptor"] ∧
  out.1 = Normal {[ "message" :=
                      JPartListUnion (StringMessage (units "[REDACTED] def"));
                    "blocked" := JBoolean false ]}.
Proof.
  intros w out. split; [reflexivity|].
  destruct (the_logger_sees_the_redacted_message (Parts := string)
              (Value := string) (Others := string) (GeminiEventType := string)
              (Unknown := string) (Thrown := string) "content" "thought"
              "tool_call_request" "tool_call_response" "error" "finished"
              (λ _, "2026-01-01T00:00:00.000Z") units units (λ _, "{}")
              (Some {| blockSensitiveInput := None; blockSensitiveOutput := None;
                       redactInsteadOfBlock := Some true |})
              loaded w (units "token: abc def") None None)
    as (Hspied & Hout & _).
  - split; [apply (bool_decide_unpack _); reflexivity|repeat constructor].
  - reflexivity.
  - reflexivity.
  - intros r [->|[->|[]%elem_of_nil]%elem_of_cons]%elem_of_cons; [by right|by left].
  - repeat constructor.
  - reflexivity.
  - reflexivity.
  - split; [|exact Hout].
    etransitivity; [exact (f_equal (fmap (id ∘ callee)) Hspied)|reflexivity].
Defined.
End FilterScenarios.
